(** * ForTunnels client: data-plane codecs, adapters and session manager

    A shallow embedding of the Go sources of the client's data plane
    (package [support], [security], [wsconn] and [dataplane]) together
    with the properties of the specification that concern them.

    Conventions.
    - A Go [[]byte] and a Go [string] are both [bytes], a list of 8-bit
      characters.
    - Go's [int] is the 64-bit one; [int64], [uint64] and [time.Duration]
      are integers of [Z] whose wrap-around is written out.
    - A Go [error] is a value of [error]; a [nil] error is [None].
    - A function that drives an external object (a stream, a socket)
      takes the object's state and returns the new one. *)

From Stdlib Require Import ZArith List Ascii String Lia Bool DecimalString.
From stdpp Require Import gmap strings list sorting.

Local Open Scope Z_scope.

(** ** Bytes and integers *)

Module Go.

Definition bytes := list ascii.

(** A string literal as bytes. *)
Definition bs (s : string) : bytes := list_ascii_of_string s.

(** [byte(z)]: conversion to a byte keeps the low eight bits. *)
Definition byte_of_Z (z : Z) : ascii := ascii_of_N (Z.to_N (z mod 256)).
Definition Z_of_byte (b : ascii) : Z := Z.of_N (N_of_ascii b).

(** [len(p)] *)
Definition len (p : bytes) : Z := Z.of_nat (length p).

Definition wrap_uint16 (z : Z) : Z := z mod 2 ^ 16.
Definition wrap_uint32 (z : Z) : Z := z mod 2 ^ 32.
Definition wrap_uint64 (z : Z) : Z := z mod 2 ^ 64.
Definition wrap_int64 (z : Z) : Z := (z + 2 ^ 63) mod 2 ^ 64 - 2 ^ 63.

Definition MaxUint16 : Z := 65535.
Definition MaxUint32 : Z := 4294967295.
Definition MaxInt : Z := 2 ^ 63 - 1.

(** Decimal rendering of an integer, the [%d] verb. *)
Definition itoa (n : Z) : bytes :=
  bs (DecimalString.NilZero.string_of_int (Z.to_int n)).

(** Errors.  The sentinels of [io] and [net] are compared by identity in
    the sources ([err == io.EOF]); [errorString] is what [errors.New] and
    a [fmt.Errorf] without [%w] return, [wrapError] a [fmt.Errorf] with
    [%w]. *)
Inductive error : Type :=
| EOF
| ErrUnexpectedEOF
| ErrShortBuffer
| ErrClosedPipe
| ErrNetClosed
| errorString (msg : bytes)
| wrapError (msg : bytes) (inner : error).

(** [err.Error()] *)
Fixpoint Error (e : error) : bytes :=
  match e with
  | EOF => bs "EOF"
  | ErrUnexpectedEOF => bs "unexpected EOF"
  | ErrShortBuffer => bs "short buffer"
  | ErrClosedPipe => bs "io: read/write on closed pipe"
  | ErrNetClosed => bs "use of closed network connection"
  | errorString msg => msg
  | wrapError msg inner => msg ++ Error inner
  end.

Global Instance error_eq_dec : EqDecision error.
Proof. solve_decision. Defined.

Inductive result (A : Type) : Type :=
| Ok (a : A)
| Err (e : error).
Global Arguments Ok {A} a.
Global Arguments Err {A} e.

(** [strings.Contains(s, substr)] *)
Fixpoint hasPrefix (s prefix : bytes) : bool :=
  match prefix, s with
  | [], _ => true
  | _ :: _, [] => false
  | p :: prefix', c :: s' => bool_decide (p = c) && hasPrefix s' prefix'
  end.

Fixpoint Contains (s substr : bytes) : bool :=
  hasPrefix s substr ||
  match s with
  | [] => false
  | _ :: s' => Contains s' substr
  end.

(** The newline byte, and the strings that hold none. *)
Definition nl : ascii := ascii_of_nat 10.

Definition no_nl (l : bytes) : bool :=
  forallb (fun x => negb (Z_of_byte x =? 10)) l.

End Go.
Export Go.

(** ** encoding/binary, big-endian *)

Module binary.

(** [binary.BigEndian.PutUint16(b, v)] as the two bytes written. *)
Definition PutUint16 (v : Z) : bytes :=
  [byte_of_Z (Z.shiftr v 8); byte_of_Z v].

(** [binary.BigEndian.Uint16(b)]; the slice has at least two bytes at
    every call site. *)
Definition Uint16 (b : bytes) : Z :=
  match b with
  | b0 :: b1 :: _ => Z.lor (Z_of_byte b1) (Z.shiftl (Z_of_byte b0) 8)
  | _ => 0
  end.

Definition PutUint32 (v : Z) : bytes :=
  [byte_of_Z (Z.shiftr v 24); byte_of_Z (Z.shiftr v 16);
   byte_of_Z (Z.shiftr v 8); byte_of_Z v].

Definition Uint32 (b : bytes) : Z :=
  match b with
  | b0 :: b1 :: b2 :: b3 :: _ =>
      Z.lor (Z.lor (Z.lor (Z_of_byte b3) (Z.shiftl (Z_of_byte b2) 8))
                   (Z.shiftl (Z_of_byte b1) 16))
            (Z.shiftl (Z_of_byte b0) 24)
  | _ => 0
  end.

Definition PutUint64 (v : Z) : bytes :=
  [byte_of_Z (Z.shiftr v 56); byte_of_Z (Z.shiftr v 48);
   byte_of_Z (Z.shiftr v 40); byte_of_Z (Z.shiftr v 32);
   byte_of_Z (Z.shiftr v 24); byte_of_Z (Z.shiftr v 16);
   byte_of_Z (Z.shiftr v 8); byte_of_Z v].

Definition Uint64 (b : bytes) : Z :=
  match b with
  | b0 :: b1 :: b2 :: b3 :: b4 :: b5 :: b6 :: b7 :: _ =>
      Z.lor (Z.lor (Z.lor (Z.lor (Z.lor (Z.lor (Z.lor
        (Z_of_byte b7) (Z.shiftl (Z_of_byte b6) 8))
        (Z.shiftl (Z_of_byte b5) 16)) (Z.shiftl (Z_of_byte b4) 24))
        (Z.shiftl (Z_of_byte b3) 32)) (Z.shiftl (Z_of_byte b2) 40))
        (Z.shiftl (Z_of_byte b1) 48)) (Z.shiftl (Z_of_byte b0) 56)
  | _ => 0
  end.

End binary.

(** ** Package support: size conversions (utils.go) *)

Module support.

(** [toUintSize[T](n, limit, label)]; [modulus] stands for the type
    parameter [T]: the final conversion [T(n)] keeps [n] modulo it. *)
Definition toUintSize (modulus : Z) (n : Z) (limit : Z) (label : bytes)
  : result Z :=
  if n <? 0 then
    Err (errorString (bs "value exceeds " ++ label ++ bs " range: " ++ itoa n))
  else if limit <=? MaxInt then
    if n >? limit then
      Err (errorString (bs "value exceeds " ++ label ++ bs " range: " ++ itoa n))
    else Ok (n mod modulus)
  else
    if n >? limit then
      Err (errorString (bs "value exceeds " ++ label ++ bs " range: " ++ itoa n))
    else Ok (n mod modulus).

Definition ToUint32Size (n : Z) : result Z :=
  toUintSize (2 ^ 32) n MaxUint32 (bs "uint32").

Definition ToUint16Size (n : Z) : result Z :=
  toUintSize (2 ^ 16) n MaxUint16 (bs "uint16").

End support.

(** ** Package io: streams *)

Module io.

(** [io.ReadWriteCloser].  [Read s n] is [s.Read(p)] with [len(p) = n]:
    the bytes stored in [p] and the error; [Write s b] returns the count
    and the error. *)
Class ReadWriteCloser (S : Type) : Type := {
  Read : S -> nat -> S * (bytes * option error);
  Write : S -> bytes -> S * (Z * option error);
  Close : S -> S * option error
}.

Section ReadFull.
Context {S : Type} `{ReadWriteCloser S}.

(** The loop of [io.ReadAtLeast]: [for n < min && err == nil].  A
    [Read] that stores nothing and reports no error makes the Go loop
    call it again; the model stops there with [None]. *)
Fixpoint ReadAtLeast_loop (fuel : nat) (r : S) (got : bytes) (min : nat)
  : option (S * (bytes * option error)) :=
  if (length got <? min)%nat then
    match fuel with
    | O => None
    | Datatypes.S fuel' =>
        let '(r', (chunk, err)) := Read r (min - length got)%nat in
        match err with
        | Some e => Some (r', (got ++ chunk, Some e))
        | None =>
            match chunk with
            | [] => None
            | _ => ReadAtLeast_loop fuel' r' (got ++ chunk) min
            end
        end
    end
  else Some (r, (got, None)).

(** [io.ReadFull(r, buf)] with [len(buf) = n]: the bytes read and the
    error after [ReadAtLeast]'s adjustment. *)
Definition ReadFull (r : S) (n : nat) : option (S * result bytes) :=
  match ReadAtLeast_loop n r [] n with
  | None => None
  | Some (r', (got, err)) =>
      if (n <=? length got)%nat then Some (r', Ok got)
      else
        match err with
        | Some e =>
            if bool_decide (e = EOF) && (0 <? length got)%nat
            then Some (r', Err ErrUnexpectedEOF)
            else Some (r', Err e)
        | None => None
        end
  end.
End ReadFull.

(** The in-memory stream of the tests ([mockReadWriteCloser] of
    psk_test.go and bridge_test.go). *)
Record mockReadWriteCloser : Type := {
  readData : bytes;
  readErr : option error;
  writeData : bytes;
  writeErr : option error;
  closeErr : option error;
  closed : bool
}.

Definition with_readData (m : mockReadWriteCloser) (d : bytes) :=
  {| readData := d; readErr := readErr m; writeData := writeData m;
     writeErr := writeErr m; closeErr := closeErr m; closed := closed m |}.

Definition with_writeData (m : mockReadWriteCloser) (d : bytes) :=
  {| readData := readData m; readErr := readErr m; writeData := d;
     writeErr := writeErr m; closeErr := closeErr m; closed := closed m |}.

Definition mock_Read (m : mockReadWriteCloser) (n : nat)
  : mockReadWriteCloser * (bytes * option error) :=
  match readErr m with
  | Some e => (m, ([], Some e))
  | None =>
      match readData m with
      | [] => (m, ([], Some EOF))
      | _ => (with_readData m (drop n (readData m)),
              (take n (readData m), None))
      end
  end.

Definition mock_Write (m : mockReadWriteCloser) (b : bytes)
  : mockReadWriteCloser * (Z * option error) :=
  match writeErr m with
  | Some e => (m, (0, Some e))
  | None => (with_writeData m (writeData m ++ b), (len b, None))
  end.

Definition mock_Close (m : mockReadWriteCloser)
  : mockReadWriteCloser * option error :=
  ({| readData := readData m; readErr := readErr m;
      writeData := writeData m; writeErr := writeErr m;
      closeErr := closeErr m; closed := true |}, closeErr m).

Global Instance mock_rwc : ReadWriteCloser mockReadWriteCloser := {
  Read := mock_Read;
  Write := mock_Write;
  Close := mock_Close
}.

(** A fresh mock whose reader side holds [data]. *)
Definition mock_of (data : bytes) : mockReadWriteCloser :=
  {| readData := data; readErr := None; writeData := []; writeErr := None;
     closeErr := None; closed := false |}.

(** A fresh mock whose writer side has received [data]. *)
Definition mock_of_written (data : bytes) : mockReadWriteCloser :=
  {| readData := []; readErr := None; writeData := data; writeErr := None;
     closeErr := None; closed := false |}.

(** A stream that is closed: each write on it fails with
    [io.ErrClosedPipe] and nothing is written. *)
Definition closed_stream : mockReadWriteCloser :=
  {| readData := []; readErr := None; writeData := [];
     writeErr := Some ErrClosedPipe; closeErr := None; closed := true |}.

End io.

(** ** Package dataplane: UDP frames over a stream (udp.go) *)

Module udp.
Import binary support io.

Definition udpMaxPacketSize : Z := 65535.

Section codec.
Context {S : Type} `{ReadWriteCloser S}.

Definition writeUDPPacket (w : S) (payload : bytes) : S * option error :=
  match ToUint16Size (len payload) with
  | Err err => (w, Some err)
  | Ok length =>
      let hdr := PutUint16 length in
      let '(w1, (_, writeErr)) := Write w hdr in
      match writeErr with
      | Some e => (w1, Some e)
      | None =>
          let '(w2, (_, writeErr)) := Write w1 payload in
          (w2, writeErr)
      end
  end.

Definition readUDPPacket (r : S) : option (S * result bytes) :=
  match ReadFull r 2 with
  | None => None
  | Some (r1, Err err) => Some (r1, Err err)
  | Some (r1, Ok hdr) =>
      let n := Uint16 hdr in
      if (n <=? 0) || (n >? udpMaxPacketSize) then
        Some (r1, Err ErrUnexpectedEOF)
      else
        match ReadFull r1 (Z.to_nat n) with
        | None => None
        | Some (r2, Err err) => Some (r2, Err err)
        | Some (r2, Ok buf) => Some (r2, Ok buf)
        end
  end.
End codec.

(** An address of the local UDP socket, as its text. *)
Definition UDPAddr : Type := bytes.

Section forwarders.
Context {S : Type} `{ReadWriteCloser S}.

(** The goroutine of [startUDPLocalToStream], run until it sends on
    [errCh].  [arriving] is what [uc.ReadFromUDP(buf)] returns, call
    after call: a datagram with its sender, cut to the
    [udpMaxPacketSize] bytes of [buf], or an error.  The result is the
    stream, [*lastSrc] and the error sent; no error means that the
    goroutine waits in [ReadFromUDP]. *)
Fixpoint startUDPLocalToStream (wrapped : S)
    (arriving : list (result (bytes * UDPAddr))) (lastSrc : option UDPAddr)
  : S * option UDPAddr * option error :=
  match arriving with
  | [] => (wrapped, lastSrc, None)
  | Err err :: _ => (wrapped, lastSrc, Some err)
  | Ok (datagram, src) :: arriving' =>
      let payload := take (Z.to_nat udpMaxPacketSize) datagram in
      if len payload <=? 0 then startUDPLocalToStream wrapped arriving' lastSrc
      else
        let lastSrc := Some src in
        match writeUDPPacket wrapped payload with
        | (wrapped, Some writeErr) => (wrapped, lastSrc, Some writeErr)
        | (wrapped, None) => startUDPLocalToStream wrapped arriving' lastSrc
        end
  end.

(** The goroutine of [startStreamToUDPLocal], run until it sends on
    [errCh].  [observed] is the value of [*lastSrc] that each turn
    finds, the other goroutine being the one that sets it; [sendErr]
    is what [uc.WriteToUDP] returns and [delivered] the datagrams
    handed to it.  [None]: the goroutine has not ended. *)
Fixpoint startStreamToUDPLocal (wrapped : S)
    (observed : list (option UDPAddr)) (sendErr : option error)
    (delivered : list (bytes * UDPAddr))
  : option (S * list (bytes * UDPAddr) * error) :=
  match readUDPPacket wrapped with
  | None => None
  | Some (wrapped, Err err) => Some (wrapped, delivered, err)
  | Some (wrapped, Ok packet) =>
      match observed with
      | [] => None
      | None :: observed' =>
          startStreamToUDPLocal wrapped observed' sendErr delivered
      | Some dst :: observed' =>
          let delivered := delivered ++ [(packet, dst)] in
          match sendErr with
          | Some writeErr => Some (wrapped, delivered, writeErr)
          | None => startStreamToUDPLocal wrapped observed' sendErr delivered
          end
      end
  end.
End forwarders.

(** The frames of a sequence of payloads, one after the other. *)
Definition udp_frames (ps : list bytes) : bytes :=
  concat (map (fun p => PutUint16 (len p) ++ p) ps).

(** What the local-to-stream forwarder frames: each datagram cut to
    65535 bytes, the empty ones left out. *)
Definition framed (ds : list (bytes * UDPAddr)) : list bytes :=
  List.filter (fun p => negb (len p <=? 0))
    (map (fun d => take (Z.to_nat udpMaxPacketSize) d.1) ds).

(** The datagrams of [ps] that reach the socket when the turns find
    [observed] in [*lastSrc]: those of the turns that find an address. *)
Definition deliveries (ps : list bytes) (observed : list (option UDPAddr))
  : list (bytes * UDPAddr) :=
  omap (fun po => match po.2 with
                  | Some dst => Some (po.1, dst)
                  | None => None
                  end) (zip ps observed).

End udp.

(** ** Package security: the per-stream AEAD wrapper (psk.go) *)

Module security.
Import binary support io.

(** What psk.go takes from [crypto/sha256] and
    [golang.org/x/crypto/chacha20poly1305]: the digest, the constructor
    [NewX] and the two methods of the [cipher.AEAD] it returns, called
    with a [nil] destination and no additional data. *)
Class Crypto (A : Type) : Type := {
  sha256 : bytes -> bytes;
  NewX : bytes -> result A;
  Seal : A -> bytes -> bytes -> bytes;
  Open : A -> bytes -> bytes -> result bytes
}.

(** The contract of those primitives that the wrapper relies on: a
    digest has 32 bytes, [NewX] accepts a 32-byte key, a sealed message
    is 16 bytes (the Poly1305 tag) longer than its plaintext, and [Open]
    under the same 24-byte nonce recovers it. *)
Class CryptoLaws (A : Type) `{Crypto A} : Prop := {
  sha256_length : forall m, length (sha256 m) = 32%nat;
  NewX_32 : forall key, length key = 32%nat -> exists a, NewX key = Ok a;
  Seal_length : forall a nonce p,
      length (Seal a nonce p) = (length p + 16)%nat;
  Open_Seal : forall a nonce p,
      length nonce = 24%nat -> Open a nonce (Seal a nonce p) = Ok p
}.

Record ClientPSK : Type := { secret : bytes }.

Record ClientAEAD (S A : Type) : Type := {
  base : S;
  aead : A;
  encCtr : Z
}.
Global Arguments base {S A} c.
Global Arguments aead {S A} c.
Global Arguments encCtr {S A} c.

Definition NewClientPSK (secret : bytes) : ClientPSK := {| secret := secret |}.

Section wrapper.
Context {S A : Type} `{ReadWriteCloser S} `{Crypto A}.

Definition with_base (c : ClientAEAD S A) (b : S) : ClientAEAD S A :=
  {| base := b; aead := aead c; encCtr := encCtr c |}.

(** [ClientPSK.Wrap]; [None] is the [nil] it returns when [NewX]
    fails. *)
Definition Wrap (c : ClientPSK) (conn : S) (tunnelID : bytes)
  : option (ClientAEAD S A) :=
  let key := sha256 (secret c ++ tunnelID) in
  match NewX key with
  | Err _ => None
  | Ok a => Some {| base := conn; aead := a; encCtr := 0 |}
  end.

(** The nonce the next [Write] uses: [make([]byte, 24)] with the
    counter stored big-endian in [nonce[16:]]. *)
Definition nonce_of (ctr : Z) : bytes :=
  repeat zero 16 ++ PutUint64 ctr.

(** [ClientAEAD.Read(p)] with [len(p) = n]; the bytes are those
    stored in [p], [p[:n]] of the Go result. *)
Definition ClientAEAD_Read (c : ClientAEAD S A) (n : nat)
  : option (ClientAEAD S A * (bytes * option error)) :=
  match ReadFull (base c) (4 + 24) with
  | None => None
  | Some (b1, Err err) => Some (with_base c b1, ([], Some err))
  | Some (b1, Ok hdr) =>
      let l := Uint32 (take 4 hdr) in
      let nonce := drop 4 hdr in
      match ReadFull b1 (Z.to_nat l) with
      | None => None
      | Some (b2, Err err) => Some (with_base c b2, ([], Some err))
      | Some (b2, Ok buf) =>
          match Open (aead c) nonce buf with
          | Err err => Some (with_base c b2, ([], Some err))
          | Ok pt =>
              let stored := take n pt in
              if (length stored <? length pt)%nat
              then Some (with_base c b2, (stored, Some ErrShortBuffer))
              else Some (with_base c b2, (stored, None))
          end
      end
  end.

(** [ClientAEAD.Write(p)]. *)
Definition ClientAEAD_Write (c : ClientAEAD S A) (p : bytes)
  : ClientAEAD S A * (Z * option error) :=
  let nonce := nonce_of (encCtr c) in
  let c := {| base := base c; aead := aead c;
              encCtr := wrap_uint64 (encCtr c + 1) |} in
  let ct := Seal (aead c) nonce p in
  match ToUint32Size (len ct) with
  | Err err => (c, (0, Some err))
  | Ok l =>
      let hdr := PutUint32 l ++ nonce in
      let '(b1, (_, err)) := Write (base c) hdr in
      match err with
      | Some e => (with_base c b1, (0, Some e))
      | None =>
          let '(b2, (_, err)) := Write b1 ct in
          match err with
          | Some e => (with_base c b2, (0, Some e))
          | None => (with_base c b2, (len p, None))
          end
      end
  end.

(** The AEAD wire format: a frame is the 32-bit big-endian length of
    the ciphertext, the 24-byte nonce and the ciphertext; the frames of
    successive writes carry successive counters. *)
Definition aead_frame (a : A) (k : Z) (p : bytes) : bytes :=
  let ct := Seal a (nonce_of k) p in
  PutUint32 (len ct) ++ nonce_of k ++ ct.

Fixpoint aead_frames (a : A) (k : Z) (ps : list bytes) : bytes :=
  match ps with
  | [] => []
  | p :: ps' => aead_frame a k p ++ aead_frames a (k + 1) ps'
  end.

Definition ClientAEAD_Close (c : ClientAEAD S A)
  : ClientAEAD S A * option error :=
  let '(b, err) := Close (base c) in (with_base c b, err).

(** A writer task: the calls [Write(p)] for each [p] of [ps] in turn,
    whatever each returns. *)
Fixpoint write_all (c : ClientAEAD S A) (ps : list bytes)
  : ClientAEAD S A * list (Z * option error) :=
  match ps with
  | [] => (c, [])
  | p :: ps' =>
      let '(c1, r) := ClientAEAD_Write c p in
      let '(c2, rs) := write_all c1 ps' in
      (c2, r :: rs)
  end.

(** A reader task: one [Read] per buffer length of [caps]. *)
Fixpoint read_all (c : ClientAEAD S A) (caps : list nat)
  : option (ClientAEAD S A * list (bytes * option error)) :=
  match caps with
  | [] => Some (c, [])
  | n :: caps' =>
      match ClientAEAD_Read c n with
      | None => None
      | Some (c1, r) =>
          match read_all c1 caps' with
          | None => None
          | Some (c2, rs) => Some (c2, r :: rs)
          end
      end
  end.
End wrapper.

(** A stand-in provider that satisfies [CryptoLaws], for running the
    wrapper on examples: the key is the first 32 bytes of the padded
    input, the tag the first 16 bytes of the key. *)
Definition demo_tag (key : bytes) : bytes := take 16 (key ++ repeat zero 16).

Definition demo_crypto : Crypto bytes := {|
  sha256 := fun m => take 32 (m ++ repeat zero 32);
  NewX := fun key =>
    if (length key =? 32)%nat then Ok key
    else Err (errorString (bs "chacha20poly1305: bad key length"));
  Seal := fun key nonce p => p ++ demo_tag key;
  Open := fun key nonce ct =>
    if (16 <=? length ct)%nat
       && bool_decide (drop (length ct - 16) ct = demo_tag key)
    then Ok (take (length ct - 16) ct)
    else Err (errorString (bs "chacha20poly1305: message authentication failed"))
|}.

(** The frames of payloads under counters of the writer's choice. *)
Definition frames_with {A} `{Crypto A} (a : A) (kps : list (Z * bytes))
  : bytes :=
  concat (map (fun kp => aead_frame a kp.1 kp.2) kps).

End security.

(** ** Package dataplane: the stream bridge (bridge.go) *)

Module bridge.
Import io security.

(** [config.EncryptionSettings] *)
Record EncryptionSettings : Type := {
  Enabled : bool;
  PSK : bytes
}.

Definition ErrShortWrite : error := errorString (bs "short write").
Definition errInvalidWrite : error := errorString (bs "invalid write result").

Section copy.
Context {D S : Type} `{ReadWriteCloser D} `{ReadWriteCloser S}.

(** The loop of [io.CopyBuffer(dst, src, buf)] with [len(buf) = n], for
    streams without [WriteTo] and [ReadFrom].  [None]: no end within
    [fuel] reads. *)
Fixpoint CopyBuffer_loop (fuel : nat) (dst : D) (src : S) (n : nat)
    (written : Z) : option (D * S * (Z * option error)) :=
  match fuel with
  | O => None
  | Datatypes.S fuel' =>
      let '(src, (chunk, er)) := Read src n in
      let nr := len chunk in
      let '(dst, written, stop) :=
        if 0 <? nr then
          let '(dst, (nw, ew)) := Write dst chunk in
          let '(nw, ew) :=
            if (nw <? 0) || (nr <? nw)
            then (0, match ew with None => Some errInvalidWrite | _ => ew end)
            else (nw, ew) in
          let written := wrap_int64 (written + nw) in
          match ew with
          | Some e => (dst, written, Some (Some e))
          | None =>
              if negb (nr =? nw) then (dst, written, Some (Some ErrShortWrite))
              else (dst, written, None)
          end
        else (dst, written, None) in
      match stop with
      | Some err => Some (dst, src, (written, err))
      | None =>
          match er with
          | Some e =>
              if bool_decide (e = EOF) then Some (dst, src, (written, None))
              else Some (dst, src, (written, Some e))
          | None => CopyBuffer_loop fuel' dst src n written
          end
      end
  end.

Definition isClosedPipe (err : error) : bool :=
  Contains (Error err) (bs "closed pipe").

(** The lines the goroutine of [startBufferedCopy] hands to
    [log.Printf] once [io.CopyBuffer] has returned [err]. *)
Definition copy_log (label : bytes) (err : option error) : list bytes :=
  match err with
  | None => []
  | Some e =>
      if negb (bool_decide (e = EOF)) && negb (isClosedPipe e)
      then [bs "client bridge: copy " ++ label ++ bs " error: " ++ Error e]
      else []
  end.

(** [startBufferedCopy(dst, src, buf, label, done)]: the goroutine it
    starts, run to its send on [done]; the result is the two streams
    and the lines logged. *)
Definition startBufferedCopy (fuel : nat) (dst : D) (src : S) (buf : nat)
    (label : bytes) : option (D * S * list bytes) :=
  match CopyBuffer_loop fuel dst src buf 0 with
  | None => None
  | Some (dst, src, (_, err)) => Some (dst, src, copy_log label err)
  end.
End copy.

Section wrap.
Context {S A : Type} `{Crypto A}.

(** What [WrapClientStream] returns as an [io.ReadWriteCloser]: the
    stream it was given, or the [*ClientAEAD] of [Wrap] ([None] for its
    [nil]). *)
Inductive wrapped : Type :=
| Plain (s : S)
| Encrypted (c : option (ClientAEAD S A)).

Definition WrapClientStream (s : S) (tunnelID : bytes)
    (enc : EncryptionSettings) : wrapped :=
  if negb (Enabled enc) then Plain s
  else
    let mgr := NewClientPSK (PSK enc) in
    Encrypted (Wrap mgr s tunnelID).
End wrap.
Global Arguments wrapped S A : clear implicits.

(** The line [startBufferedCopy] logs for the error [e]. *)
Definition log_line (label : bytes) (e : error) : bytes :=
  bs "client bridge: copy " ++ label ++ bs " error: " ++ Error e.

End bridge.

(** ** Package dataplane: the reconnecting session manager (session.go) *)

Module session.

(** [time.Duration]: a signed 64-bit count of nanoseconds. *)
Definition Second : Z := 1000000000.

(** [config.RuntimeSettings] *)
Record RuntimeSettings : Type := {
  PingInterval : Z;
  PingTimeout : Z;
  SmuxKeepAliveInterval : Z;
  SmuxKeepAliveTimeout : Z
}.

(** The socket ([*websocket.Conn]) and the multiplexed session
    ([*smux.Session]) are objects of the libraries; the manager holds
    pointers to them, here their identities. *)
Definition Conn : Type := nat.
Definition Session : Type := nat.

(** What the network answers to one [websocket.DefaultDialer.Dial]: an
    error, or a socket together with what [smux.Client] will return on
    it in [initializeSession]. *)
Inductive DialResult : Type :=
| DialError (e : error)
| DialConn (c : Conn) (init : result Session).

(** The calls the manager makes on the outside world. *)
Inductive event : Type :=
| EvDial (wsURL origin : bytes)
| EvSetReadDeadline (c : Conn)
| EvSmuxClient (c : Conn)
| EvPingLoop (c : Conn)
| EvConnClose (c : Conn)
| EvSessClose (s : Session)
| EvSleep (d : Z).

(** The world outside the manager: the answers pending for the dials to
    come, the sessions that report [IsClosed()], and the calls made so
    far. *)
Record World : Type := {
  dials : list DialResult;
  closedSessions : list Session;
  trace : list event
}.

Definition IsClosed (w : World) (s : Session) : bool :=
  bool_decide (s ∈ closedSessions w).

Record Manager : Type := {
  serverURL : bytes;
  tunnelID : bytes;
  conn : option Conn;
  sess : option Session;
  stopped : bool;
  boInit : Z;
  boMax : Z;
  settings : RuntimeSettings
}.

Definition NewManager (serverURL tunnelID : bytes) (boInit boMax : Z)
    (settings : RuntimeSettings) : Manager :=
  {| serverURL := serverURL; tunnelID := tunnelID; conn := None;
     sess := None; stopped := false; boInit := boInit; boMax := boMax;
     settings := settings |}.

Definition nextBackoff (current limit : Z) : Z :=
  let next := wrap_int64 (current * 2) in
  if next >? limit then limit else next.

(** The backoff law in the words of the specification:
    [b_{i+1} = min(2 b_i, b_max)], starting from [b_0]. *)
Fixpoint backoff_schedule (b bmax : Z) (n : nat) : list Z :=
  match n with
  | O => []
  | Datatypes.S n' => b :: backoff_schedule (Z.min (2 * b) bmax) bmax n'
  end.

Section manager.
(** [buildWebSocketURL(serverURL, tunnelID)] of common.go rests on
    [net/url]; it is taken as given: the endpoint and the origin, or
    an error. *)
Variable buildWebSocketURL : bytes -> bytes -> result (bytes * bytes).

Definition sessionDialParams (m : Manager) : bytes * bytes :=
  match buildWebSocketURL (serverURL m) (tunnelID m) with
  | Err _ => ([], [])
  | Ok (wsURL, origin) => (wsURL, origin)
  end.

Definition set_session (m : Manager) (c : Conn) (s : Session) : Manager :=
  {| serverURL := serverURL m; tunnelID := tunnelID m; conn := Some c;
     sess := Some s; stopped := stopped m; boInit := boInit m;
     boMax := boMax m; settings := settings m |}.

(** [initializeSession(conn)], given what [smux.Client] returns. *)
Definition initializeSession (m : Manager) (c : Conn)
    (init : result Session) (tr : list event)
  : Manager * list event * result Session :=
  let tr := tr ++ [EvSetReadDeadline c; EvSmuxClient c] in
  match init with
  | Err err =>
      (m, tr ++ [EvConnClose c],
       Err (wrapError (bs "smux client: ") err))
  | Ok s => (set_session m c s, tr ++ [EvPingLoop c], Ok s)
  end.

(** The [for] loop of [EnsureSession]; one iteration per pending
    answer.  [None]: the answers ran out while the loop was still
    dialing, the call has not returned. *)
Fixpoint dial_loop (m : Manager) (answers : list DialResult)
    (tr : list event) (wsURL origin : bytes) (backoff : Z)
  : option (Manager * list DialResult * list event * result Session) :=
  if stopped m then Some (m, answers, tr, Err (errorString (bs "stopped")))
  else
    match answers with
    | [] => None
    | DialError _ :: rest =>
        let tr := tr ++ [EvDial wsURL origin] in
        let tr := tr ++ [EvSleep backoff] in
        dial_loop m rest tr wsURL origin (nextBackoff backoff (boMax m))
    | DialConn c init :: rest =>
        let tr := tr ++ [EvDial wsURL origin] in
        match initializeSession m c init tr with
        | (m', tr, Ok s) => Some (m', rest, tr, Ok s)
        | (m', tr, Err _) =>
            let tr := tr ++ [EvSleep backoff] in
            dial_loop m' rest tr wsURL origin
              (nextBackoff backoff (boMax m))
        end
    end.

(** [m.sess != nil && !m.sess.IsClosed()] *)
Definition live_session (m : Manager) (w : World) : option Session :=
  match sess m with
  | Some s => if IsClosed w s then None else Some s
  | None => None
  end.

Definition EnsureSession (m : Manager) (w : World)
  : option (Manager * World * result Session) :=
  if stopped m then Some (m, w, Err (errorString (bs "stopped")))
  else
    match live_session m w with
    | Some s => Some (m, w, Ok s)
    | None =>
        let '(wsURL, origin) := sessionDialParams m in
        match wsURL with
        | [] => Some (m, w, Err (errorString (bs "invalid websocket url")))
        | _ =>
            let backoff := boInit m in
            match dial_loop m (dials w) (trace w) wsURL origin backoff with
            | None => None
            | Some (m', rest, tr, r) =>
                Some (m',
                      {| dials := rest; closedSessions := closedSessions w;
                         trace := tr |},
                      r)
            end
        end
    end.

(** [(m *Manager) Close()] *)
Definition Close (m : Manager) (w : World) : Manager * World :=
  let '(tr, closedS) :=
    match sess m with
    | Some s => (trace w ++ [EvSessClose s], s :: closedSessions w)
    | None => (trace w, closedSessions w)
    end in
  let tr :=
    match conn m with
    | Some c => tr ++ [EvConnClose c]
    | None => tr
    end in
  ({| serverURL := serverURL m; tunnelID := tunnelID m; conn := None;
      sess := None; stopped := true; boInit := boInit m;
      boMax := boMax m; settings := settings m |},
   {| dials := dials w; closedSessions := closedS; trace := tr |}).

(** A caller's view: a sequence of calls on one manager. *)
Inductive call : Type := CallEnsureSession | CallClose.

Fixpoint run (calls : list call) (m : Manager) (w : World)
  : option (Manager * World * list (result Session)) :=
  match calls with
  | [] => Some (m, w, [])
  | CallEnsureSession :: calls' =>
      match EnsureSession m w with
      | None => None
      | Some (m1, w1, r) =>
          match run calls' m1 w1 with
          | None => None
          | Some (m2, w2, rs) => Some (m2, w2, r :: rs)
          end
      end
  | CallClose :: calls' =>
      let '(m1, w1) := Close m w in run calls' m1 w1
  end.

(** The durations slept, in order. *)
Definition sleeps (tr : list event) : list Z :=
  omap (fun e => match e with EvSleep d => Some d | _ => None end) tr.

(** The dials made, in order. *)
Definition dialed (tr : list event) : list event :=
  List.filter (fun e => match e with EvDial _ _ => true | _ => false end) tr.
End manager.

(** A dial that fails, or whose connection fails to become a session. *)
Definition is_failure (a : DialResult) : Prop :=
  match a with
  | DialError _ => True
  | DialConn _ (Err _) => True
  | DialConn _ (Ok _) => False
  end.

(** The schedule the loop of [EnsureSession] follows, in terms of
    [nextBackoff]. *)
Fixpoint sleep_schedule (b bmax : Z) (n : nat) : list Z :=
  match n with
  | O => []
  | Datatypes.S n' => b :: sleep_schedule (nextBackoff b bmax) bmax n'
  end.

(** A [buildWebSocketURL] that always succeeds. *)
Definition demo_url (server tunnel : bytes) : result (bytes * bytes) :=
  Ok (server ++ bs "/ws?mode=data&tunnel_id=" ++ tunnel, server).

(** The sockets closed, in order, and the sockets of the answers whose
    handshake fails. *)
Definition closedConns (tr : list event) : list Conn :=
  omap (fun e => match e with EvConnClose c => Some c | _ => None end) tr.

Definition failedHandshakes (answers : list DialResult) : list Conn :=
  omap (fun a => match a with DialConn c (Err _) => Some c | _ => None end)
       answers.

End session.

(** ** Package wsconn: a byte stream over a WebSocket (wsconn.go) *)

Module wsconn.

Definition MaxWebSocketMessageSize : Z := 1024 * 1024.
Definition MaxWebSocketFrameSize : Z := 64 * 1024.

(** Message types of github.com/gorilla/websocket. *)
Definition TextMessage : Z := 1.
Definition BinaryMessage : Z := 2.
Definition CloseMessage : Z := 8.
Definition CloseNormalClosure : Z := 1000.

(** The part of [*websocket.Conn] that the adapter calls.  [C] is the
    state of the connection, [R] the reader of one message and [W] the
    writer of one; reading a message and writing one go through the
    connection.  [reader_Discard c r n] is [io.CopyN(io.Discard, r, n)]
    on a message reader, and [ErrCloseSent] the sentinel that [Close]
    tests for. *)
Class WebsocketConn (C R W : Type) : Type := {
  SetReadLimit : C -> Z -> C;
  NextReader : C -> C * result (Z * R);
  reader_Read : C -> R -> nat -> C * R * (bytes * option error);
  reader_Discard : C -> R -> Z -> C;
  NextWriter : C -> Z -> C * result W;
  writer_Write : C -> W -> bytes -> C * (Z * option error);
  writer_Close : C -> W -> C * option error;
  WriteMessage : C -> Z -> bytes -> C * option error;
  FormatCloseMessage : Z -> bytes -> bytes;
  conn_Close : C -> C * option error;
  ErrCloseSent : error
}.

(** [WSConn]; the two mutexes serialize the readers and the writers and
    hold no data.  [conn] is a pointer that [Read] compares with [nil]. *)
Record WSConn (C R : Type) : Type := {
  conn : option C;
  currReader : option R
}.
Global Arguments conn {C R} w.
Global Arguments currReader {C R} w.

Definition isConnClosed (err : error) : bool :=
  let msg := Error err in
  Contains msg (bs "websocket: close") ||
  Contains msg (bs "use of closed network connection") ||
  Contains msg (bs "connection closed") ||
  Contains msg (bs "connection reset by peer") ||
  Contains msg (bs "broken pipe").

Section adapter.
Context {C R W : Type} `{WebsocketConn C R W}.

Definition NewWSConn (c : C) : WSConn C R :=
  let c := SetReadLimit c MaxWebSocketMessageSize in
  {| conn := Some c; currReader := None |}.

Definition NewClientWSConn (c : C) : WSConn C R := NewWSConn c.

(** The [for] loop of [Read]; [fuel] bounds its iterations, [None]
    means that it is still looping.  A [nil] connection met with a
    reader in place cannot be read and ends in [None] too. *)
Fixpoint Read_loop (fuel : nat) (w : WSConn C R) (n : nat)
  : option (WSConn C R * (bytes * option error)) :=
  match fuel with
  | O => None
  | Datatypes.S fuel' =>
      (* if w.currReader == nil { ... } *)
      let next :=
        match currReader w with
        | Some r => inl (inl (w, r))
        | None =>
            match conn w with
            | None => inr (w, ([], Some EOF))
            | Some c =>
                let '(c, res) := NextReader c in
                let w := {| conn := Some c; currReader := None |} in
                match res with
                | Err err =>
                    if isConnClosed err then inr (w, ([], Some EOF))
                    else inr (w, ([], Some err))
                | Ok (mt, r) =>
                    if negb (mt =? BinaryMessage) then
                      let c := reader_Discard c r MaxWebSocketFrameSize in
                      inl (inr {| conn := Some c; currReader := None |})
                    else
                      inl (inl ({| conn := Some c; currReader := Some r |}, r))
                end
            end
        end in
      match next with
      | inr ret => Some ret
      | inl (inr w) => Read_loop fuel' w n
      | inl (inl (w, r)) =>
          match conn w with
          | None => None
          | Some c =>
              (* n, err := w.currReader.Read(p) *)
              let '(c, r, (data, err)) := reader_Read c r n in
              if bool_decide (err = Some EOF) then
                let w := {| conn := Some c; currReader := None |} in
                if (0 <? length data)%nat then Some (w, (data, None))
                else Read_loop fuel' w n
              else
                let w := {| conn := Some c; currReader := Some r |} in
                match err with
                | Some e =>
                    if isConnClosed e then Some (w, (data, Some EOF))
                    else Some (w, (data, Some e))
                | None => Some (w, (data, None))
                end
          end
      end
  end.

(** [WSConn.Read(p)] with [len(p) = n]. *)
Definition WSConn_Read (fuel : nat) (w : WSConn C R) (n : nat)
  : option (WSConn C R * (bytes * option error)) :=
  if Z.of_nat n >? MaxWebSocketFrameSize then
    Some (w, ([], Some (errorString
                          (bs "requested buffer size exceeds maximum allowed"))))
  else Read_loop fuel w n.

(** [WSConn.Write(p)]; [None] is the panic of a [nil] connection. *)
Definition WSConn_Write (w : WSConn C R) (p : bytes)
  : option (WSConn C R * (Z * option error)) :=
  if len p >? MaxWebSocketMessageSize then
    Some (w, (0, Some (errorString (bs "message size exceeds maximum allowed"))))
  else
    match conn w with
    | None => None
    | Some c =>
        let '(c, res) := NextWriter c BinaryMessage in
        match res with
        | Err err =>
            Some ({| conn := Some c; currReader := currReader w |},
                  (0, Some err))
        | Ok writer =>
            let '(c, (n, werr)) := writer_Write c writer p in
            let '(c, cerr) := writer_Close c writer in
            let w := {| conn := Some c; currReader := currReader w |} in
            match werr with
            | Some e => Some (w, (n, Some e))
            | None => Some (w, (n, cerr))
            end
        end
    end.

(** [WSConn.Close()] *)
Definition WSConn_Close (w : WSConn C R)
  : option (WSConn C R * option error) :=
  match conn w with
  | None => None
  | Some c =>
      let closePayload := FormatCloseMessage CloseNormalClosure [] in
      let '(c, writeErr) := WriteMessage c CloseMessage closePayload in
      match writeErr with
      | Some e =>
          if negb (bool_decide (e = ErrCloseSent)) then
            Some ({| conn := Some c; currReader := currReader w |}, Some e)
          else
            let '(c, err) := conn_Close c in
            Some ({| conn := Some c; currReader := currReader w |}, err)
      | None =>
          let '(c, err) := conn_Close c in
          Some ({| conn := Some c; currReader := currReader w |}, err)
      end
  end.
(** A reader task: [Read] with a buffer of [n] bytes, call after call,
    until one returns an error; the result is the bytes read and that
    error.  [None]: no error within [fuel] calls. *)
Fixpoint read_to_end (fuel : nat) (w : WSConn C R) (n : nat) (got : bytes)
  : option (WSConn C R * bytes * error) :=
  match fuel with
  | O => None
  | Datatypes.S fuel' =>
      match WSConn_Read fuel w n with
      | None => None
      | Some (w, (data, None)) => read_to_end fuel' w n (got ++ data)
      | Some (w, (data, Some err)) => Some (w, got ++ data, err)
      end
  end.

(** A writer task: [Write(p)] for each [p] of [ps] in turn, whatever
    each returns. *)
Fixpoint WSConn_write_all (w : WSConn C R) (ps : list bytes)
  : option (WSConn C R * list (Z * option error)) :=
  match ps with
  | [] => Some (w, [])
  | p :: ps' =>
      match WSConn_Write w p with
      | None => None
      | Some (w, r) =>
          match WSConn_write_all w ps' with
          | None => None
          | Some (w, rs) => Some (w, r :: rs)
          end
      end
  end.

End adapter.

(** [ErrReadLimit] and [CloseMessageTooBig] of
    github.com/gorilla/websocket. *)
Definition ErrReadLimit : error :=
  errorString (bs "websocket: read limit exceeded").
Definition CloseMessageTooBig : Z := 1009.

(** A scripted connection for examples: the messages still to arrive,
    the messages sent, the number of calls it has served, the limit
    that [SetReadLimit] has set (0: none) and the error that has ended
    the reading side.  A message reader is the bytes left of its
    message.  As the library does, the connection refuses a message
    that is longer than the read limit: it sends the peer a close
    message with the code [CloseMessageTooBig] and fails that call of
    [NextReader], and every later one, with [ErrReadLimit]. *)
Record scriptConn : Type := {
  incoming : list (Z * bytes);
  sent : list (Z * bytes);
  calls : nat;
  isClosed : bool;
  readLimit : Z;
  readErr : option error
}.

Definition tick (c : scriptConn) : scriptConn :=
  {| incoming := incoming c; sent := sent c;
     calls := Datatypes.S (calls c); isClosed := isClosed c;
     readLimit := readLimit c; readErr := readErr c |}.

Global Instance script_conn : WebsocketConn scriptConn bytes unit := {
  SetReadLimit c limit :=
    {| incoming := incoming c; sent := sent c;
       calls := Datatypes.S (calls c); isClosed := isClosed c;
       readLimit := limit; readErr := readErr c |};
  NextReader c :=
    match readErr c with
    | Some e => (tick c, Err e)
    | None =>
        match incoming c with
        | [] => (tick c,
                 Err (errorString (bs "websocket: close 1006 (abnormal closure)")))
        | (mt, data) :: rest =>
            if (0 <? readLimit c) && (readLimit c <? len data) then
              ({| incoming := rest;
                  sent := sent c
                          ++ [(CloseMessage, binary.PutUint16 CloseMessageTooBig)];
                  calls := Datatypes.S (calls c); isClosed := isClosed c;
                  readLimit := readLimit c; readErr := Some ErrReadLimit |},
               Err ErrReadLimit)
            else
              ({| incoming := rest; sent := sent c;
                  calls := Datatypes.S (calls c); isClosed := isClosed c;
                  readLimit := readLimit c; readErr := readErr c |},
               Ok (mt, data))
        end
    end;
  reader_Read c r n :=
    match r with
    | [] => (tick c, r, ([], Some EOF))
    | _ => (tick c, drop n r, (take n r, None))
    end;
  reader_Discard c _ _ := tick c;
  NextWriter c _ := (tick c, Ok tt);
  writer_Write c _ p :=
    ({| incoming := incoming c; sent := sent c ++ [(BinaryMessage, p)];
        calls := Datatypes.S (calls c); isClosed := isClosed c;
        readLimit := readLimit c; readErr := readErr c |},
     (len p, None));
  writer_Close c _ := (tick c, None);
  WriteMessage c mt p :=
    ({| incoming := incoming c; sent := sent c ++ [(mt, p)];
        calls := Datatypes.S (calls c); isClosed := isClosed c;
        readLimit := readLimit c; readErr := readErr c |}, None);
  FormatCloseMessage code text :=
    binary.PutUint16 code ++ text;
  conn_Close c :=
    ({| incoming := incoming c; sent := sent c;
        calls := Datatypes.S (calls c); isClosed := true;
        readLimit := readLimit c; readErr := readErr c |}, None);
  ErrCloseSent := errorString (bs "websocket: close sent")
}.

(** The connection of TestWSConnReadSkipsNonBinaryFrames: a text message,
    then the binary message "ok". *)
Definition demo_ws : WSConn scriptConn bytes :=
  NewWSConn {| incoming := [(TextMessage, bs "ignore"); (BinaryMessage, bs "ok")];
               sent := []; calls := 0; isClosed := false;
               readLimit := 0; readErr := None |}.

(** The payloads of the binary messages of a sequence, joined. *)
Definition binary_payloads (ms : list (Z * bytes)) : bytes :=
  concat (map snd (List.filter (fun m => m.1 =? BinaryMessage) ms)).

(** The bytes that a reader of a message still holds, and a bound on
    the turns that the loop of [Read] takes on a scripted connection. *)
Definition pending (cr : option bytes) : bytes :=
  match cr with Some r => r | None => [] end.

Definition weight (cr : option bytes) (ms : list (Z * bytes)) : nat :=
  (match cr with Some r => S (length r) | None => 0 end
   + (length (concat (map snd ms)) + 2 * length ms))%nat.

(** What ends the reading of a connection once the messages within the
    read limit of [NewWSConn] have been read: the messages [tail] that
    follow them are none, the connection is closed, or start with a
    message above the limit. *)
Definition ends_reading (tail : list (Z * bytes)) : Prop :=
  match tail with
  | [] => True
  | m :: _ => MaxWebSocketMessageSize < len m.2
  end.

Definition end_error (tail : list (Z * bytes)) : error :=
  match tail with
  | [] => EOF
  | _ :: _ => ErrReadLimit
  end.

(** A connection that reads under the limit of [NewWSConn] and has met
    no error. *)
Definition reading (c : scriptConn) : Prop :=
  readErr c = None /\ readLimit c = MaxWebSocketMessageSize.

End wsconn.

(** ** Package unicode/utf8, unicode/utf16 and unicode: what the JSON codec
    and [strings.TrimSpace] use *)

Module utf8.

Definition RuneError : Z := 0xFFFD.
Definition RuneSelf : Z := 0x80.
Definition MaxRune : Z := 0x10FFFF.
Definition UTFMax : nat := 4.

(** [utf8.DecodeRune(p)]: the rune and its width.  The table [first] is
    written as the ranges it holds: bytes C2..DF start a 2-byte
    sequence, E0..EF a 3-byte one, F0..F4 a 4-byte one, and the second
    byte is confined to A0..BF after E0, 80..9F after ED, 90..BF after
    F0 and 80..8F after F4.  Every failure is [(RuneError, 1)], so the
    test [n < sz] is folded into the matches on the list. *)
Definition DecodeRune (p : bytes) : Z * nat :=
  match p with
  | [] => (RuneError, 0%nat)
  | c0 :: t0 =>
      let p0 := Z_of_byte c0 in
      if p0 <? RuneSelf then (p0, 1%nat)
      else if (p0 <? 0xC2) || (0xF4 <? p0) then (RuneError, 1%nat)
      else
        let sz := if p0 <? 0xE0 then 2 else if p0 <? 0xF0 then 3 else 4 in
        let lo := if p0 =? 0xE0 then 0xA0 else if p0 =? 0xF0 then 0x90 else 0x80 in
        let hi := if p0 =? 0xED then 0x9F else if p0 =? 0xF4 then 0x8F else 0xBF in
        match t0 with
        | [] => (RuneError, 1%nat)
        | c1 :: t1 =>
            let b1 := Z_of_byte c1 in
            if (b1 <? lo) || (hi <? b1) then (RuneError, 1%nat)
            else if sz <=? 2 then
              (Z.lor (Z.shiftl (Z.land p0 0x1F) 6) (Z.land b1 0x3F), 2%nat)
            else
              match t1 with
              | [] => (RuneError, 1%nat)
              | c2 :: t2 =>
                  let b2 := Z_of_byte c2 in
                  if (b2 <? 0x80) || (0xBF <? b2) then (RuneError, 1%nat)
                  else if sz <=? 3 then
                    (Z.lor (Z.lor (Z.shiftl (Z.land p0 0x0F) 12)
                                  (Z.shiftl (Z.land b1 0x3F) 6))
                           (Z.land b2 0x3F), 3%nat)
                  else
                    match t2 with
                    | [] => (RuneError, 1%nat)
                    | c3 :: _ =>
                        let b3 := Z_of_byte c3 in
                        if (b3 <? 0x80) || (0xBF <? b3) then (RuneError, 1%nat)
                        else
                          (Z.lor (Z.lor (Z.lor
                             (Z.shiftl (Z.land p0 0x07) 18)
                             (Z.shiftl (Z.land b1 0x3F) 12))
                             (Z.shiftl (Z.land b2 0x3F) 6))
                             (Z.land b3 0x3F), 4%nat)
                    end
              end
        end
  end.

(** [utf8.EncodeRune(p, r)]: the bytes stored. *)
Definition EncodeRune (r : Z) : bytes :=
  let i := wrap_uint32 r in
  if i <=? 0x7F then [byte_of_Z r]
  else if i <=? 0x7FF then
    [byte_of_Z (Z.lor 0xC0 (Z_of_byte (byte_of_Z (Z.shiftr r 6))));
     byte_of_Z (Z.lor 0x80 (Z.land (Z_of_byte (byte_of_Z r)) 0x3F))]
  else if (i <? 0xD800) || ((0xDFFF <? i) && (i <=? 0xFFFF)) then
    [byte_of_Z (Z.lor 0xE0 (Z_of_byte (byte_of_Z (Z.shiftr r 12))));
     byte_of_Z (Z.lor 0x80 (Z.land (Z_of_byte (byte_of_Z (Z.shiftr r 6))) 0x3F));
     byte_of_Z (Z.lor 0x80 (Z.land (Z_of_byte (byte_of_Z r)) 0x3F))]
  else if (0xFFFF <? i) && (i <=? MaxRune) then
    [byte_of_Z (Z.lor 0xF0 (Z_of_byte (byte_of_Z (Z.shiftr r 18))));
     byte_of_Z (Z.lor 0x80 (Z.land (Z_of_byte (byte_of_Z (Z.shiftr r 12))) 0x3F));
     byte_of_Z (Z.lor 0x80 (Z.land (Z_of_byte (byte_of_Z (Z.shiftr r 6))) 0x3F));
     byte_of_Z (Z.lor 0x80 (Z.land (Z_of_byte (byte_of_Z r)) 0x3F))]
  else [byte_of_Z 0xEF; byte_of_Z 0xBF; byte_of_Z 0xBD].

(** [utf8.RuneStart(b)] *)
Definition RuneStart (b : Z) : bool := negb (Z.land b 0xC0 =? 0x80).

(** The backward scan of [DecodeLastRune]:
    [for start--; start >= lim; start-- { if RuneStart(p[start]) { break } }]
    entered after the first [start--]. *)
Fixpoint back_scan (fuel : nat) (p : bytes) (start lim : Z) : Z :=
  match fuel with
  | O => start
  | S fuel' =>
      if start <? lim then start
      else if RuneStart (Z_of_byte (nth (Z.to_nat start) p zero)) then start
      else back_scan fuel' p (start - 1) lim
  end.

(** [utf8.DecodeLastRune(p)] *)
Definition DecodeLastRune (p : bytes) : Z * nat :=
  let end_ := len p in
  if end_ =? 0 then (RuneError, 0%nat)
  else
    let start := end_ - 1 in
    let r := Z_of_byte (nth (Z.to_nat start) p zero) in
    if r <? RuneSelf then (r, 1%nat)
    else
      let lim := Z.max 0 (end_ - Z.of_nat UTFMax) in
      let start := back_scan UTFMax p (start - 1) lim in
      let start := if start <? 0 then 0 else start in
      let '(r, size) := DecodeRune (drop (Z.to_nat start) p) in
      if negb (start + Z.of_nat size =? end_) then (RuneError, 1%nat)
      else (r, size).

(** [utf8.ValidString(s)]: no position decodes to [(RuneError, 1)]. *)
Fixpoint ValidString_loop (fuel : nat) (s : bytes) : bool :=
  match fuel, s with
  | _, [] => true
  | O, _ => false
  | S fuel', _ =>
      let '(r, size) := DecodeRune s in
      if (r =? RuneError) && (size =? 1)%nat then false
      else ValidString_loop fuel' (drop size s)
  end.

Definition ValidString (s : bytes) : bool := ValidString_loop (length s) s.

(** [unicode/utf16]: [IsSurrogate] and [DecodeRune]. *)
Definition IsSurrogate (r : Z) : bool := (0xD800 <=? r) && (r <? 0xE000).

Definition utf16_DecodeRune (r1 r2 : Z) : Z :=
  if (0xD800 <=? r1) && (r1 <? 0xDC00) && (0xDC00 <=? r2) && (r2 <? 0xE000)
  then Z.lor (Z.shiftl (r1 - 0xD800) 10) (r2 - 0xDC00) + 0x10000
  else RuneError.

(** [unicode.IsSpace(r)]; beyond Latin-1 the table [White_Space]. *)
Definition IsSpace (r : Z) : bool :=
  if wrap_uint32 r <=? 0xFF then
    (r =? 9) || (r =? 10) || (r =? 11) || (r =? 12) || (r =? 13)
    || (r =? 32) || (r =? 0x85) || (r =? 0xA0)
  else
    (r =? 0x1680) || ((0x2000 <=? r) && (r <=? 0x200A))
    || (r =? 0x2028) || (r =? 0x2029) || (r =? 0x202F) || (r =? 0x205F)
    || (r =? 0x3000).

(** A continuation byte. *)
Definition cont (c : ascii) : Prop := 0x80 <= Z_of_byte c <= 0xBF.

End utf8.

(** ** Package strings: [TrimSpace] *)

Module strings.
Import utf8.

(** The table [asciiSpace]. *)
Definition asciiSpace (b : Z) : bool :=
  (b =? 9) || (b =? 10) || (b =? 11) || (b =? 12) || (b =? 13) || (b =? 32).

(** [strings.TrimLeftFunc(s, unicode.IsSpace)]: the suffix from the
    first rune that is not a space. *)
Fixpoint TrimLeftFunc_loop (fuel : nat) (s : bytes) : bytes :=
  match fuel, s with
  | _, [] => []
  | O, _ => s
  | S fuel', _ =>
      let '(r, wid) := DecodeRune s in
      if IsSpace r then TrimLeftFunc_loop fuel' (drop wid s) else s
  end.

Definition TrimLeftFunc (s : bytes) : bytes := TrimLeftFunc_loop (length s) s.

(** [lastIndexFunc(s, unicode.IsSpace, false)] from the end [i]. *)
Fixpoint lastIndexFunc_loop (fuel : nat) (s : bytes) (i : nat) : Z :=
  match fuel with
  | O => -1
  | S fuel' =>
      if (i =? 0)%nat then -1
      else
        let '(r, size) := DecodeLastRune (take i s) in
        let i := (i - size)%nat in
        if negb (IsSpace r) then Z.of_nat i
        else lastIndexFunc_loop fuel' s i
  end.

(** [strings.TrimRightFunc(s, unicode.IsSpace)] *)
Definition TrimRightFunc (s : bytes) : bytes :=
  let i := lastIndexFunc_loop (length s) s (length s) in
  if (0 <=? i) && (RuneSelf <=? Z_of_byte (nth (Z.to_nat i) s zero)) then
    let '(_, wid) := DecodeRune (drop (Z.to_nat i) s) in
    take (Z.to_nat i + wid) s
  else take (Z.to_nat (i + 1)) s.

(** The first loop of [TrimSpace]: [s[start:]], and whether the loop
    left for the Unicode-aware path on a byte outside ASCII. *)
Fixpoint TrimSpace_start (s : bytes) : bool * bytes :=
  match s with
  | [] => (false, [])
  | c :: tl =>
      let b := Z_of_byte c in
      if RuneSelf <=? b then (true, s)
      else if asciiSpace b then TrimSpace_start tl
      else (false, s)
  end.

(** The second loop, on [s[start:]] reversed: [s[start:stop]] reversed,
    and whether it left for [TrimRightFunc]. *)
Fixpoint TrimSpace_stop (r : bytes) : bool * bytes :=
  match r with
  | [] => (false, [])
  | c :: tl =>
      let b := Z_of_byte c in
      if RuneSelf <=? b then (true, r)
      else if asciiSpace b then TrimSpace_stop tl
      else (false, r)
  end.

(** [strings.TrimSpace(s)] *)
Definition TrimSpace (s : bytes) : bytes :=
  match TrimSpace_start s with
  | (true, s') => TrimRightFunc (TrimLeftFunc s')
  | (false, s') =>
      match TrimSpace_stop (rev s') with
      | (true, r) => TrimRightFunc (rev r)
      | (false, r) => rev r
      end
  end.

End strings.

(** ** Package support: the rest of utils.go *)

Module utils.
Import utf8.

(** [errors.Is(err, target)] for a sentinel [target]: the chain of
    [%w] wrappers is followed. *)
Fixpoint errors_Is (err target : error) : bool :=
  bool_decide (err = target) ||
  match err with
  | wrapError _ inner => errors_Is inner target
  | _ => false
  end.

(** [IsBenignCopyError(err)]; [None] is the [nil] error. *)
Definition IsBenignCopyError (err : option error) : bool :=
  match err with
  | None => true
  | Some err =>
      if errors_Is err EOF || errors_Is err ErrUnexpectedEOF
         || errors_Is err ErrNetClosed
      then true
      else
        let msg := Error err in
        if Contains msg (bs "use of closed network connection")
           || Contains msg (bs "broken pipe")
           || Contains msg (bs "connection reset by peer")
           || Contains msg (bs "stream closed")
           || Contains msg (bs "EOF")
        then true
        else false
  end.

Definition maxSecretSize : Z := 64 * 1024.

(** [ReadSecretFile(path)], given what [os.ReadFile(path)] returns. *)
Definition ReadSecretFile (file : result bytes) : result bytes :=
  match file with
  | Err err => Err (wrapError (bs "read secret file: ") err)
  | Ok data =>
      let secret := strings.TrimSpace data in
      if bool_decide (secret = []) then
        Err (errorString (bs "secret file is empty"))
      else if len secret >? maxSecretSize then
        Err (errorString (bs "secret file is too large"))
      else Ok secret
  end.

(** [ReadSecretStdin(label)], given what the standard input delivers:
    its bytes up to its end, or an error.  [io.LimitReader] cuts the
    bytes after [maxSecretSize + 1] of them. *)
Definition ReadSecretStdin (label : bytes) (stdin : result bytes)
  : result bytes :=
  match stdin with
  | Err err =>
      Err (wrapError (bs "read " ++ label ++ bs " from stdin: ") err)
  | Ok input =>
      let data := take (Z.to_nat (maxSecretSize + 1)) input in
      if len data >? maxSecretSize then
        Err (errorString (label ++ bs " from stdin is too large"))
      else
        let secret := strings.TrimSpace data in
        if bool_decide (secret = []) then
          Err (errorString (label ++ bs " from stdin is empty"))
        else Ok secret
  end.

(** [strings.TrimPrefix(s, prefix)] *)
Definition TrimPrefix (s prefix : bytes) : bytes :=
  if hasPrefix s prefix then drop (length prefix) s else s.

(** The loop [for _, ch := range s] of [ParsePort]: [false] when it
    meets a rune that is not a digit and the function returns [""]. *)
Fixpoint ParsePort_loop (fuel : nat) (s : bytes) : bool :=
  match fuel, s with
  | _, [] => true
  | O, _ => false
  | S fuel', _ =>
      let '(ch, size) := DecodeRune s in
      if (ch <? 48) || (57 <? ch) then false
      else ParsePort_loop fuel' (drop size s)
  end.

(** [ParsePort(s)] *)
Definition ParsePort (s : bytes) : bytes :=
  match s with
  | [] => []
  | _ =>
      let s := TrimPrefix s (bs ":") in
      if ParsePort_loop (length s) s then s else []
  end.

(** [strings.LastIndex(s, substr)] for a [substr] of one byte [c]: the
    scan from the end of [s], here along [s] reversed. *)
Fixpoint LastIndexByte_loop (r : bytes) (c : ascii) : Z :=
  match r with
  | [] => -1
  | x :: r' => if bool_decide (x = c) then len r' else LastIndexByte_loop r' c
  end.

Definition LastIndexByte (s : bytes) (c : ascii) : Z :=
  LastIndexByte_loop (rev s) c.

(** [LooksLikeHostPort(s)] *)
Definition LooksLikeHostPort (s : bytes) : bool :=
  let i := LastIndexByte s ":"%char in
  if i <=? 0 then false
  else
    let host := take (Z.to_nat i) s in
    let port := drop (Z.to_nat (i + 1)) s in
    if bool_decide (host = []) || bool_decide (port = []) then false
    else negb (bool_decide (ParsePort port = [])).

(** A decimal digit. *)
Definition digit (c : ascii) : Prop := 48 <= Z_of_byte c <= 57.

End utils.

(** ** Package config: the encryption requirements (validation.go,
    config.go) *)

Module config.

(** The fields of [Config] that the functions below read. *)
Record Config : Type := {
  Encrypt : bool;
  PSK : bytes
}.

(** [enforceEncryptionRequirements(cfg)]: [None] when it returns, the
    status of [os.Exit] when it ends the process after printing the
    reason. *)
Definition enforceEncryptionRequirements (cfg : Config) : option Z :=
  if negb (Encrypt cfg) then None
  else
    let psk := strings.TrimSpace (PSK cfg) in
    if bool_decide (psk = []) then Some 2
    else if len psk <? 32 then Some 2
    else None.

(** [(c *Config) EncryptionSettings()] *)
Definition EncryptionSettings (c : Config) : bridge.EncryptionSettings :=
  {| bridge.Enabled := Encrypt c; bridge.PSK := PSK c |}.

End config.

(** ** Package bufio: [Reader.ReadString] *)

Module bufio.

(** A [bufio.Reader] over a stream that delivers [data] and then the
    error [err] ([io.EOF] at the end of the stream).  How the stream
    cuts [data] into reads does not change what [ReadString] returns. *)
Record Reader : Type := {
  data : bytes;
  err : error
}.

Definition NewReader (stream : bytes) : Reader :=
  {| data := stream; err := EOF |}.

(** The bytes up to and including the first [delim], and the rest. *)
Fixpoint cut (delim : ascii) (s : bytes) : option (bytes * bytes) :=
  match s with
  | [] => None
  | c :: tl =>
      if bool_decide (c = delim) then Some ([c], tl)
      else
        match cut delim tl with
        | Some (line, rest) => Some (c :: line, rest)
        | None => None
        end
  end.

(** [rd.ReadString(delim)]: the line with its delimiter; without a
    delimiter before the stream ends, what was read and the stream's
    error.  The line grows as needed: there is no bound on its length. *)
Definition ReadString (rd : Reader) (delim : ascii)
  : Reader * (bytes * option error) :=
  match cut delim (data rd) with
  | Some (line, rest) => ({| data := rest; err := err rd |}, (line, None))
  | None => ({| data := []; err := err rd |}, (data rd, Some (err rd)))
  end.

End bufio.

(** ** Package encoding/json, for [map[string]string] *)

Module json.
Import utf8.

(** A Go [map[string]string]: [None] is the [nil] map. *)
Definition gomap : Type := option (gmap bytes bytes).

(** [m[key]] *)
Definition index (m : gomap) (key : bytes) : bytes :=
  match m with
  | Some g => default [] (g !! key)
  | None => []
  end.

Definition dq : ascii := "034"%char.
Definition bslash : ascii := "\"%char.

Definition hex : bytes := bs "0123456789abcdef".
Definition hexdigit (n : Z) : ascii := nth (Z.to_nat n) hex zero.

(** The table [htmlSafeSet]: the printable ASCII characters but the
    double quote, the backslash, [<], [>] and [&]. *)
Definition htmlSafe (b : Z) : bool :=
  (0x20 <=? b) && (b <? 0x80)
  && negb ((b =? 34) || (b =? 92) || (b =? 60) || (b =? 62) || (b =? 38)).

(** One turn of the loop of [appendString(dst, src, escapeHTML = true)]
    at the head of [src]: the bytes appended and the bytes consumed. *)
Definition appendString_step (src : bytes) : bytes * nat :=
  match src with
  | [] => ([], 0%nat)
  | c :: _ =>
      let b := Z_of_byte c in
      if b <? RuneSelf then
        if htmlSafe b then ([c], 1%nat)
        else if (b =? 92) || (b =? 34) then ([bslash; c], 1%nat)
        else if b =? 8 then (bs "\b", 1%nat)
        else if b =? 12 then (bs "\f", 1%nat)
        else if b =? 10 then (bs "\n", 1%nat)
        else if b =? 13 then (bs "\r", 1%nat)
        else if b =? 9 then (bs "\t", 1%nat)
        else (bs "\u00" ++ [hexdigit (Z.shiftr b 4); hexdigit (Z.land b 0xF)],
              1%nat)
      else
        let '(r, size) := DecodeRune (take UTFMax src) in
        if (r =? RuneError) && (size =? 1)%nat then (bs "\ufffd", 1%nat)
        else if (r =? 0x2028) || (r =? 0x2029) then
          (bs "\u202" ++ [hexdigit (Z.land r 0xF)], size)
        else (take size src, size)
  end.

Fixpoint appendString_loop (fuel : nat) (src : bytes) : bytes :=
  match fuel, src with
  | _, [] => []
  | O, _ => []
  | S fuel', _ =>
      let '(out, n) := appendString_step src in
      out ++ appendString_loop fuel' (drop n src)
  end.

(** The JSON string literal of [src]. *)
Definition appendString (src : bytes) : bytes :=
  dq :: appendString_loop (length src) src ++ [dq].

(** What a string becomes when it is encoded and decoded again: each
    byte that is not part of a well-formed UTF-8 sequence is replaced by
    U+FFFD, the rest is kept. *)
Definition coerce_step (s : bytes) : bytes * nat :=
  match s with
  | [] => ([], 0%nat)
  | _ :: _ =>
      let '(r, size) := DecodeRune s in
      if (r =? RuneError) && (size =? 1)%nat then (EncodeRune RuneError, 1%nat)
      else (take size s, size)
  end.

Fixpoint coerce_loop (fuel : nat) (s : bytes) : bytes :=
  match fuel, s with
  | _, [] => []
  | O, _ => []
  | S fuel', _ =>
      let '(out, n) := coerce_step s in
      out ++ coerce_loop fuel' (drop n s)
  end.

Definition coerce (s : bytes) : bytes := coerce_loop (length s) s.

(** [strings.Compare(x, y) <= 0]: the order of the keys. *)
Fixpoint bytes_le (x y : bytes) : bool :=
  match x, y with
  | [], _ => true
  | _ :: _, [] => false
  | a :: x', b :: y' =>
      if Z_of_byte a <? Z_of_byte b then true
      else if Z_of_byte b <? Z_of_byte a then false
      else bytes_le x' y'
  end.

Definition key_le (p q : bytes * bytes) : Prop := Is_true (bytes_le p.1 q.1).

Global Instance key_le_dec p q : Decision (key_le p q).
Proof. unfold key_le. apply _. Defined.

Definition member (kv : bytes * bytes) : bytes :=
  appendString kv.1 ++ bs ":" ++ appendString kv.2.

Fixpoint members (sv : list (bytes * bytes)) : bytes :=
  match sv with
  | [] => []
  | [kv] => member kv
  | kv :: sv' => member kv ++ bs "," ++ members sv'
  end.

(** [json.Marshal(m)] for a [map[string]string]; it cannot fail. *)
Definition Marshal (m : gomap) : result bytes :=
  match m with
  | None => Ok (bs "null")
  | Some g =>
      let sv := merge_sort key_le (map_to_list g) in
      Ok (bs "{" ++ members sv ++ bs "}")
  end.

(** *** Decoding *)

(** The scanner's [isSpace]. *)
Definition isSpace (b : Z) : bool :=
  (b =? 32) || (b =? 9) || (b =? 13) || (b =? 10).

Fixpoint skipSpace (s : bytes) : bytes :=
  match s with
  | c :: tl => if isSpace (Z_of_byte c) then skipSpace tl else s
  | [] => []
  end.

Definition hexval (b : Z) : Z :=
  if (48 <=? b) && (b <=? 57) then b - 48
  else if (97 <=? b) && (b <=? 102) then b - 97 + 10
  else if (65 <=? b) && (b <=? 70) then b - 65 + 10
  else -1.

(** [getu4(s)]: the rune of a leading [\uXXXX], or -1. *)
Definition getu4 (s : bytes) : Z :=
  match s with
  | c0 :: c1 :: h0 :: h1 :: h2 :: h3 :: _ =>
      if negb (Z_of_byte c0 =? 92) || negb (Z_of_byte c1 =? 117) then -1
      else
        let d0 := hexval (Z_of_byte h0) in
        let d1 := hexval (Z_of_byte h1) in
        let d2 := hexval (Z_of_byte h2) in
        let d3 := hexval (Z_of_byte h3) in
        if (d0 <? 0) || (d1 <? 0) || (d2 <? 0) || (d3 <? 0) then -1
        else ((d0 * 16 + d1) * 16 + d2) * 16 + d3
  | _ => -1
  end.

(** One turn of reading a string literal, after its opening quote: the
    scanner's check of the next character or escape, and the bytes that
    [unquote] stores for it. *)
Inductive step : Type :=
| Fail
| Done
| Emit (out : bytes) (n : nat).

Definition unquote_step (s : bytes) : step :=
  match s with
  | [] => Fail
  | c :: tl =>
      let b := Z_of_byte c in
      if b =? 92 then
        match tl with
        | [] => Fail
        | e :: _ =>
            let x := Z_of_byte e in
            if (x =? 34) || (x =? 92) || (x =? 47) then Emit [e] 2
            else if x =? 98 then Emit [byte_of_Z 8] 2
            else if x =? 102 then Emit [byte_of_Z 12] 2
            else if x =? 110 then Emit [byte_of_Z 10] 2
            else if x =? 114 then Emit [byte_of_Z 13] 2
            else if x =? 116 then Emit [byte_of_Z 9] 2
            else if x =? 117 then
              let rr := getu4 s in
              if rr <? 0 then Fail
              else if IsSurrogate rr then
                let rr1 := getu4 (drop 6 s) in
                let dec := utf16_DecodeRune rr rr1 in
                if negb (dec =? RuneError) then Emit (EncodeRune dec) 12
                else Emit (EncodeRune RuneError) 6
              else Emit (EncodeRune rr) 6
            else Fail
        end
      else if b =? 34 then Done
      else if b <? 32 then Fail
      else if b <? RuneSelf then Emit [c] 1
      else
        let '(rr, size) := DecodeRune s in
        Emit (EncodeRune rr) size
  end.

Fixpoint unquote_loop (fuel : nat) (s : bytes) : option (bytes * bytes) :=
  match fuel with
  | O => None
  | S fuel' =>
      match unquote_step s with
      | Fail => None
      | Done => Some ([], drop 1 s)
      | Emit out n =>
          match unquote_loop fuel' (drop n s) with
          | Some (o, rest) => Some (out ++ o, rest)
          | None => None
          end
      end
  end.

(** A string literal at the head of [s]: its value and what follows. *)
Definition string_literal (s : bytes) : option (bytes * bytes) :=
  match s with
  | c :: tl =>
      if Z_of_byte c =? 34 then unquote_loop (length s) tl else None
  | [] => None
  end.

(** The value of a member, stored into a [string]: a string literal, or
    [null], which leaves the zero value.  Any other value ends in an
    [UnmarshalTypeError] or a [SyntaxError]. *)
Definition element (s : bytes) : option (bytes * bytes) :=
  match s with
  | c :: _ =>
      if Z_of_byte c =? 34 then string_literal s
      else if hasPrefix s (bs "null") then Some ([], drop 4 s)
      else None
  | [] => None
  end.

(** The members of an object from its first key on; a later key
    replaces an earlier equal one. *)
Fixpoint object_members (fuel : nat) (s : bytes) (acc : gmap bytes bytes)
  : option (gmap bytes bytes * bytes) :=
  match fuel with
  | O => None
  | S fuel' =>
      match string_literal s with
      | None => None
      | Some (key, s1) =>
          match skipSpace s1 with
          | c :: s2 =>
              if Z_of_byte c =? 58 then
                match element (skipSpace s2) with
                | None => None
                | Some (v, s3) =>
                    let acc := <[key := v]> acc in
                    match skipSpace s3 with
                    | d :: s4 =>
                        if Z_of_byte d =? 44 then
                          object_members fuel' (skipSpace s4) acc
                        else if Z_of_byte d =? 125 then Some (acc, s4)
                        else None
                    | [] => None
                    end
                end
              else None
          | [] => None
          end
      end
  end.

Definition jsonError : error := errorString (bs "json: invalid preface").

(** [json.Unmarshal(data, &pre)] with [pre] a [nil] [map[string]string]:
    the map stored, or an error (which error of the package, and its
    text, is left out). *)
Definition Unmarshal (data : bytes) : result gomap :=
  match skipSpace data with
  | c :: s1 =>
      if Z_of_byte c =? 123 then
        match skipSpace s1 with
        | d :: s2 =>
            if Z_of_byte d =? 125 then
              match skipSpace s2 with
              | [] => Ok (Some ∅)
              | _ => Err jsonError
              end
            else
              match object_members (length s1) (d :: s2) ∅ with
              | Some (g, s3) =>
                  match skipSpace s3 with
                  | [] => Ok (Some g)
                  | _ => Err jsonError
                  end
              | None => Err jsonError
              end
        | [] => Err jsonError
        end
      else if hasPrefix (c :: s1) (bs "null") then
        match skipSpace (drop 4 (c :: s1)) with
        | [] => Ok None
        | _ => Err jsonError
        end
      else Err jsonError
  | [] => Err jsonError
  end.

(** The insertion the decoder performs for an encoded member. *)
Definition store (acc : gmap bytes bytes) (kv : bytes * bytes)
  : gmap bytes bytes :=
  <[coerce kv.1 := coerce kv.2]> acc.

End json.

(** ** Package dataplane: the stream preface (common.go, tcp.go) *)

Module preface.
Import json.

(** [encodePreface(fields)] *)
Definition encodePreface (fields : gomap) : result bytes :=
  match Marshal fields with
  | Err err => Err (wrapError (bs "marshal preface: ") err)
  | Ok b => Ok (b ++ [ascii_of_nat 10])
  end.

(** The loop of [readStreamDestination(rd)]; a turn consumes a line, so
    one turn more than there are bytes is enough. *)
Fixpoint readStreamDestination_loop (fuel : nat) (rd : bufio.Reader)
  : option (bufio.Reader * result bytes) :=
  match fuel with
  | O => None
  | S fuel' =>
      let '(rd, (line, err)) := bufio.ReadString rd (ascii_of_nat 10) in
      match err with
      | Some e => Some (rd, Err e)
      | None =>
          let line := strings.TrimSpace line in
          match line with
          | [] => readStreamDestination_loop fuel' rd
          | _ =>
              match Unmarshal line with
              | Err e => Some (rd, Err e)
              | Ok pre => Some (rd, Ok (index pre (bs "dst")))
              end
          end
      end
  end.

Definition readStreamDestination (rd : bufio.Reader)
  : option (bufio.Reader * result bytes) :=
  readStreamDestination_loop (S (length (bufio.data rd))) rd.

(** Input that is ASCII white space only. *)
Definition blank (ws : bytes) : Prop :=
  Forall (fun x => strings.asciiSpace (Z_of_byte x) = true) ws.

(** The preface of scenario E1, and a line that holds a preface. *)
Definition demo_preface : gmap bytes bytes :=
  {[ bs "dst" := bs "127.0.0.1:8080"; bs "proto" := bs "tcp" ]}.

Definition demo_line : bytes :=
  bs "{" ++ dq :: bs "dst" ++ dq :: bs ":" ++ dq :: bs "a:1" ++ dq :: bs "} ".

(** [sendUDPPreface(stream, dst, tunnelID)] of udp.go *)
Definition sendUDPPreface {S : Type} `{io.ReadWriteCloser S} (stream : S)
    (dst tunnelID : bytes) : S * option error :=
  match encodePreface (Some {[ bs "dst" := dst; bs "proto" := bs "udp";
                               bs "tunnel_id" := tunnelID ]}) with
  | Err err => (stream, Some err)
  | Ok payload =>
      let '(stream, (_, err)) := io.Write stream payload in
      match err with
      | Some e => (stream, Some (wrapError (bs "write preface: ") e))
      | None => (stream, None)
      end
  end.

End preface.

(** * Properties *)

(** ** Bytes, big-endian integers, size conversions *)

Import binary support io.

Lemma Z_of_byte_range b : 0 <= Z_of_byte b < 256.
Proof.
  unfold Z_of_byte. pose proof (N_ascii_bounded b). lia.
Qed.

Lemma Z_of_byte_of_Z z : Z_of_byte (byte_of_Z z) = z mod 256.
Proof.
  unfold Z_of_byte, byte_of_Z.
  pose proof (Z.mod_pos_bound z 256 ltac:(lia)).
  rewrite N_ascii_embedding by lia. lia.
Qed.

Lemma byte_of_Z_of_byte b : byte_of_Z (Z_of_byte b) = b.
Proof.
  unfold Z_of_byte, byte_of_Z.
  pose proof (N_ascii_bounded b).
  rewrite Z.mod_small by lia.
  rewrite N2Z.id. apply ascii_N_embedding.
Qed.

(** Bit-level facts used to read a big-endian value back. *)
Lemma land_shiftl_small a b k :
  0 <= k -> 0 <= a < 2 ^ k -> Z.land a (Z.shiftl b k) = 0.
Proof.
  intros Hk Ha. apply Z.bits_inj'. intros n Hn.
  rewrite Z.land_spec, Z.bits_0.
  destruct (Z.lt_ge_cases n k) as [Hlt|Hge].
  - rewrite Z.shiftl_spec_low by lia. apply andb_false_r.
  - destruct (Z.eq_dec a 0) as [->|Hnz].
    + rewrite Z.bits_0. reflexivity.
    + rewrite Z.bits_above_log2; [reflexivity|lia|].
      apply Z.log2_lt_pow2; [lia|].
      apply Z.lt_le_trans with (2 ^ k); [lia|].
      apply Z.pow_le_mono_r; lia.
Qed.

Lemma lor_shiftl_add a b k :
  0 <= k -> 0 <= a < 2 ^ k -> Z.lor a (Z.shiftl b k) = a + b * 2 ^ k.
Proof.
  intros Hk Ha.
  rewrite <- Z.lxor_lor by (apply land_shiftl_small; lia).
  rewrite <- Z.add_nocarry_lxor by (apply land_shiftl_small; lia).
  rewrite Z.shiftl_mul_pow2 by lia. reflexivity.
Qed.

Lemma Z_of_byte_shiftr v k :
  0 <= k -> Z_of_byte (byte_of_Z (Z.shiftr v k)) = (v / 2 ^ k) mod 256.
Proof.
  intros Hk. rewrite Z_of_byte_of_Z, Z.shiftr_div_pow2 by lia. reflexivity.
Qed.

Lemma Uint16_PutUint16 v : 0 <= v < 65536 -> Uint16 (PutUint16 v) = v.
Proof.
  intros Hv. unfold Uint16, PutUint16.
  rewrite lor_shiftl_add by (try lia; apply Z_of_byte_range).
  rewrite Z_of_byte_shiftr, Z_of_byte_of_Z by lia.
  change (2 ^ 8) with 256.
  rewrite (Z.mod_small (v / 256)) by (split; [apply Z.div_pos|apply Z.div_lt_upper_bound]; lia).
  pose proof (Z.div_mod v 256 ltac:(lia)). lia.
Qed.

Lemma Uint16_app b0 b1 rest : Uint16 (b0 :: b1 :: rest) = Uint16 [b0; b1].
Proof. reflexivity. Qed.

Lemma PutUint16_length v : length (PutUint16 v) = 2%nat.
Proof. reflexivity. Qed.

Lemma Uint32_PutUint32 v : 0 <= v < 4294967296 -> Uint32 (PutUint32 v) = v.
Proof.
  intros Hv. unfold Uint32, PutUint32.
  assert (H8 : 0 <= Z_of_byte (byte_of_Z v) < 2 ^ 8) by apply Z_of_byte_range.
  pose proof (Z_of_byte_range (byte_of_Z (Z.shiftr v 8))) as R1.
  pose proof (Z_of_byte_range (byte_of_Z (Z.shiftr v 16))) as R2.
  pose proof (Z_of_byte_range (byte_of_Z (Z.shiftr v 24))) as R3.
  rewrite (lor_shiftl_add _ _ 8) by lia.
  rewrite (lor_shiftl_add _ _ 16) by lia.
  rewrite (lor_shiftl_add _ _ 24) by lia.
  rewrite !Z_of_byte_shiftr, Z_of_byte_of_Z by lia.
  change (2 ^ 8) with 256. change (2 ^ 16) with 65536.
  change (2 ^ 24) with 16777216.
  pose proof (Z.div_mod v 256 ltac:(lia)).
  pose proof (Z.div_mod (v / 256) 256 ltac:(lia)).
  pose proof (Z.div_mod (v / 65536) 256 ltac:(lia)).
  replace (v / 65536) with (v / 256 / 256) in *
    by (rewrite Z.div_div by lia; reflexivity).
  replace (v / 16777216) with (v / 256 / 256 / 256) in *
    by (rewrite !Z.div_div by lia; reflexivity).
  assert (0 <= v / 256 / 256 / 256 < 256).
  { split; [repeat apply Z.div_pos; lia|].
    repeat apply Z.div_lt_upper_bound; lia. }
  rewrite (Z.mod_small (v / 256 / 256 / 256)) by lia.
  pose proof (Z.div_mod (v / 256 / 256) 256 ltac:(lia)).
  lia.
Qed.

Lemma ToUint16Size_ok n : 0 <= n <= 65535 -> ToUint16Size n = Ok n.
Proof.
  intros Hn. unfold ToUint16Size, toUintSize, MaxUint16, MaxInt.
  destruct (Z.ltb_spec n 0); [lia|].
  destruct (Z.leb_spec 65535 (2 ^ 63 - 1)); [|lia].
  destruct (Z.gtb_spec n 65535); [lia|].
  rewrite Z.mod_small by lia. reflexivity.
Qed.

Lemma ToUint16Size_over n : 65535 < n -> exists e, ToUint16Size n = Err e.
Proof.
  intros Hn. unfold ToUint16Size, toUintSize, MaxUint16, MaxInt.
  destruct (Z.ltb_spec n 0); [lia|].
  destruct (Z.leb_spec 65535 (2 ^ 63 - 1)); [|lia].
  destruct (Z.gtb_spec n 65535); [|lia].
  eauto.
Qed.

Lemma ToUint32Size_ok n : 0 <= n <= 4294967295 -> ToUint32Size n = Ok n.
Proof.
  intros Hn. unfold ToUint32Size, toUintSize, MaxUint32, MaxInt.
  destruct (Z.ltb_spec n 0); [lia|].
  destruct (Z.leb_spec 4294967295 (2 ^ 63 - 1)); [|lia].
  destruct (Z.gtb_spec n 4294967295); [lia|].
  rewrite Z.mod_small by lia. reflexivity.
Qed.

Lemma ToUint32Size_over n : 4294967295 < n -> exists e, ToUint32Size n = Err e.
Proof.
  intros Hn. unfold ToUint32Size, toUintSize, MaxUint32, MaxInt.
  destruct (Z.ltb_spec n 0); [lia|].
  destruct (Z.leb_spec 4294967295 (2 ^ 63 - 1)); [|lia].
  destruct (Z.gtb_spec n 4294967295); [|lia].
  eauto.
Qed.

Lemma mock_Write_ok m b :
  writeErr m = None ->
  Write m b = (with_writeData m (writeData m ++ b), (len b, None)).
Proof. intros Hw. cbn. unfold mock_Write. rewrite Hw. reflexivity. Qed.

Lemma with_readData_id m : with_readData m (readData m) = m.
Proof. destruct m; reflexivity. Qed.

Lemma ReadAtLeast_loop_done {S} `{ReadWriteCloser S} fuel (r : S) got min :
  (min <= length got)%nat ->
  ReadAtLeast_loop fuel r got min = Some (r, (got, None)).
Proof.
  intros Hle. destruct fuel; cbn [ReadAtLeast_loop];
    destruct (Nat.ltb_spec (length got) min); (lia || reflexivity).
Qed.

(** Reading [n] bytes that the mock holds takes one [Read]. *)
Lemma mock_ReadFull_ok m (p rest : bytes) :
  readErr m = None -> readData m = p ++ rest ->
  ReadFull m (length p) = Some (with_readData m rest, Ok p).
Proof.
  intros Hr Hd. unfold ReadFull.
  destruct p as [|c p].
  - cbn. cbn in Hd. rewrite <- Hd, with_readData_id. reflexivity.
  - remember (c :: p) as q eqn:Hq.
    assert (Hlen : length q = Datatypes.S (length p)) by (subst q; reflexivity).
    rewrite Hlen at 1. cbn [ReadAtLeast_loop].
    destruct (Nat.ltb_spec (length (@nil ascii)) (length q)) as [_|Hbad];
      [|cbn in Hbad; lia].
    cbn [Read mock_rwc]. unfold mock_Read. rewrite Hr, Hd.
    destruct (q ++ rest) as [|x xs] eqn:Hqr; [subst q; discriminate|].
    rewrite <- Hqr. cbn [length]. rewrite Nat.sub_0_r.
    rewrite take_app_length, drop_app_length. cbn [app].
    destruct q as [|y q']; [discriminate|].
    rewrite ReadAtLeast_loop_done by lia.
    destruct (Nat.leb_spec (length (y :: q')) (length (y :: q'))); [|lia].
    reflexivity.
Qed.

(** ** UDP frames *)

Import udp.

Lemma writeUDPPacket_mock (w : mockReadWriteCloser) (P : bytes) :
  writeErr w = None -> 0 <= len P <= 65535 ->
  writeUDPPacket w P =
    (with_writeData w (writeData w ++ PutUint16 (len P) ++ P), None).
Proof.
  intros Hw HP. unfold writeUDPPacket.
  rewrite ToUint16Size_ok by lia.
  rewrite mock_Write_ok by assumption.
  rewrite mock_Write_ok by (cbn; assumption).
  unfold with_writeData; cbn. rewrite <- app_assoc. reflexivity.
Qed.

Lemma readUDPPacket_mock (r : mockReadWriteCloser) (P rest : bytes) :
  readErr r = None -> 1 <= len P <= 65535 ->
  readData r = PutUint16 (len P) ++ P ++ rest ->
  readUDPPacket r = Some (with_readData r rest, Ok P).
Proof.
  intros Hr HP Hd. unfold readUDPPacket.
  change 2%nat with (length (PutUint16 (len P))).
  rewrite (mock_ReadFull_ok r (PutUint16 (len P)) (P ++ rest)) by assumption.
  rewrite Uint16_PutUint16 by lia.
  unfold udpMaxPacketSize.
  destruct (Z.leb_spec (len P) 0); [lia|].
  destruct (Z.gtb_spec (len P) 65535); [lia|].
  cbn [orb]. unfold len. rewrite Nat2Z.id.
  rewrite (mock_ReadFull_ok _ P rest) by (cbn; assumption || reflexivity).
  reflexivity.
Qed.

Lemma readUDPPacket_zero {S} `{ReadWriteCloser S} (r r1 : S) (hdr : bytes) :
  ReadFull r 2 = Some (r1, Ok hdr) -> Uint16 hdr = 0 ->
  readUDPPacket r = Some (r1, Err ErrUnexpectedEOF).
Proof.
  intros Hrd Hz. unfold readUDPPacket. rewrite Hrd, Hz. reflexivity.
Qed.

Lemma writeUDPPacket_too_long {S} `{ReadWriteCloser S} (w : S) (P : bytes) :
  65535 < len P -> exists e, writeUDPPacket w P = (w, Some e).
Proof.
  intros HP. unfold writeUDPPacket.
  destruct (ToUint16Size_over (len P) HP) as [e ->]. eauto.
Qed.

(** C2.  A payload of 1 to 65535 bytes written by [writeUDPPacket] is read
    back unchanged by [readUDPPacket] (whatever follows it on the stream);
    [readUDPPacket] fails on a frame whose big-endian length header is 0;
    [writeUDPPacket] fails, writing nothing, on a payload longer than
    65535 bytes. *)
Theorem udp_frame_roundtrip :
  (forall (P rest : bytes), 1 <= len P <= 65535 ->
     exists frame,
       writeUDPPacket (mock_of []) P = (mock_of_written frame, None) /\
       readUDPPacket (mock_of (frame ++ rest)) = Some (mock_of rest, Ok P)) /\
  (forall (r : mockReadWriteCloser) (rest : bytes),
     readErr r = None -> readData r = PutUint16 0 ++ rest ->
     exists r', readUDPPacket r = Some (r', Err ErrUnexpectedEOF)) /\
  (forall (S : Type) (rwc : ReadWriteCloser S) (w : S) (P : bytes),
     65535 < len P -> exists e, writeUDPPacket w P = (w, Some e)).
Proof.
  split; [|split].
  - intros P rest HP. exists (PutUint16 (len P) ++ P). split.
    + rewrite writeUDPPacket_mock by (reflexivity || lia). reflexivity.
    + rewrite (readUDPPacket_mock _ P rest);
        [reflexivity|reflexivity|lia|].
      cbn [readData mock_of]. rewrite <- app_assoc. reflexivity.
  - intros r rest Hr Hd. eexists.
    apply (readUDPPacket_zero r _ (PutUint16 0)); [|reflexivity].
    apply (mock_ReadFull_ok r (PutUint16 0) rest); assumption.
  - intros S rwc w P HP. apply writeUDPPacket_too_long. exact HP.
Qed.

(** The frame of scenario E3: "ping" travels as 00 04 'p' 'i' 'n' 'g'. *)
Lemma udp_frame_roundtrip_witness :
  exists frame,
    writeUDPPacket (mock_of []) (bs "ping") = (mock_of_written frame, None) /\
    readUDPPacket (mock_of (frame ++ bs "next"))
      = Some (mock_of (bs "next"), Ok (bs "ping")).
Proof.
  apply (proj1 udp_frame_roundtrip (bs "ping") (bs "next")).
  vm_compute. split; discriminate.
Defined.

Example udp_frame_ping :
  writeUDPPacket (mock_of []) (bs "ping")
  = (mock_of_written [zero; "004"%char; "p"%char; "i"%char; "n"%char; "g"%char],
     None).
Proof. reflexivity. Qed.

(** ** The AEAD wrapper *)

Import security.

Lemma mod_split_byte v k k' :
  0 <= k -> k' = k + 8 ->
  v mod 2 ^ k' = v mod 2 ^ k + 2 ^ k * ((v / 2 ^ k) mod 256).
Proof.
  intros Hk ->. rewrite Z.pow_add_r by lia. change (2 ^ 8) with 256.
  apply Z.rem_mul_r; [|lia].
  apply Z.pow_nonzero; lia.
Qed.

Lemma Uint64_PutUint64 v : Uint64 (PutUint64 v) = v mod 2 ^ 64.
Proof.
  unfold Uint64, PutUint64.
  rewrite !Z_of_byte_shiftr, Z_of_byte_of_Z by lia.
  pose proof (Z.mod_pos_bound v 256 ltac:(lia)) as B0.
  pose proof (Z.mod_pos_bound (v / 2 ^ 8) 256 ltac:(lia)) as B1.
  pose proof (Z.mod_pos_bound (v / 2 ^ 16) 256 ltac:(lia)) as B2.
  pose proof (Z.mod_pos_bound (v / 2 ^ 24) 256 ltac:(lia)) as B3.
  pose proof (Z.mod_pos_bound (v / 2 ^ 32) 256 ltac:(lia)) as B4.
  pose proof (Z.mod_pos_bound (v / 2 ^ 40) 256 ltac:(lia)) as B5.
  pose proof (Z.mod_pos_bound (v / 2 ^ 48) 256 ltac:(lia)) as B6.
  pose proof (Z.mod_pos_bound (v / 2 ^ 56) 256 ltac:(lia)) as B7.
  rewrite (lor_shiftl_add _ _ 8) by lia.
  rewrite (lor_shiftl_add _ _ 16) by lia.
  rewrite (lor_shiftl_add _ _ 24) by lia.
  rewrite (lor_shiftl_add _ _ 32) by lia.
  rewrite (lor_shiftl_add _ _ 40) by lia.
  rewrite (lor_shiftl_add _ _ 48) by lia.
  rewrite (lor_shiftl_add _ _ 56) by lia.
  pose proof (mod_split_byte v 56 64 ltac:(lia) ltac:(lia)) as E7.
  pose proof (mod_split_byte v 48 56 ltac:(lia) ltac:(lia)) as E6.
  pose proof (mod_split_byte v 40 48 ltac:(lia) ltac:(lia)) as E5.
  pose proof (mod_split_byte v 32 40 ltac:(lia) ltac:(lia)) as E4.
  pose proof (mod_split_byte v 24 32 ltac:(lia) ltac:(lia)) as E3.
  pose proof (mod_split_byte v 16 24 ltac:(lia) ltac:(lia)) as E2.
  pose proof (mod_split_byte v 8 16 ltac:(lia) ltac:(lia)) as E1.
  change (v mod 2 ^ 8) with (v mod 256) in E1.
  lia.
Qed.

Lemma byte_of_Z_mod a b : a mod 256 = b mod 256 -> byte_of_Z a = byte_of_Z b.
Proof. unfold byte_of_Z. intros ->. reflexivity. Qed.

Lemma shiftr_wrap_byte v k :
  0 <= k <= 56 -> ((v mod 2 ^ 64) / 2 ^ k) mod 256 = (v / 2 ^ k) mod 256.
Proof.
  intros Hk.
  assert (E64 : 2 ^ 64 = 2 ^ (56 - k) * 256 * 2 ^ k).
  { change 256 with (2 ^ 8). rewrite <- !Z.pow_add_r by lia. f_equal. lia. }
  assert (Hpos : 2 ^ k <> 0) by (apply Z.pow_nonzero; lia).
  replace (v mod 2 ^ 64)
    with (v + (- (v / 2 ^ 64) * (2 ^ (56 - k) * 256)) * 2 ^ k).
  - rewrite Z.div_add by assumption.
    replace (- (v / 2 ^ 64) * (2 ^ (56 - k) * 256))
      with ((- (v / 2 ^ 64) * 2 ^ (56 - k)) * 256) by ring.
    apply Z.mod_add. lia.
  - pose proof (Z.div_mod v (2 ^ 64) ltac:(lia)) as Hdm.
    rewrite E64 in Hdm at 1.
    remember (v / 2 ^ 64) as q. remember (v mod 2 ^ 64) as r.
    remember (2 ^ (56 - k)) as a. remember (2 ^ k) as b.
    rewrite Hdm at 1. ring.
Qed.

Lemma PutUint64_wrap v : PutUint64 (wrap_uint64 v) = PutUint64 v.
Proof.
  unfold PutUint64, wrap_uint64.
  rewrite !Z.shiftr_div_pow2 by lia.
  repeat (f_equal; [apply byte_of_Z_mod; apply shiftr_wrap_byte; lia|]).
  f_equal. apply byte_of_Z_mod.
  pose proof (shiftr_wrap_byte v 0 ltac:(lia)) as H0.
  change (2 ^ 0) with 1 in H0. rewrite !Z.div_1_r in H0. exact H0.
Qed.

Lemma nonce_of_length ctr : length (nonce_of ctr) = 24%nat.
Proof. reflexivity. Qed.

Lemma nonce_of_wrap ctr : nonce_of (wrap_uint64 ctr) = nonce_of ctr.
Proof. unfold nonce_of. rewrite PutUint64_wrap. reflexivity. Qed.

Lemma nonce_of_inj x y : nonce_of x = nonce_of y -> x mod 2 ^ 64 = y mod 2 ^ 64.
Proof.
  unfold nonce_of. intros Heq. apply app_inv_head in Heq.
  rewrite <- !Uint64_PutUint64, Heq. reflexivity.
Qed.

(** Two counters less than 2^64 apart give different nonces. *)
Lemma nonce_of_distinct x d :
  0 < d < 2 ^ 64 -> nonce_of (x + d) <> nonce_of x.
Proof.
  intros Hd Heq. apply nonce_of_inj in Heq.
  pose proof (Z.div_mod (x + d) (2 ^ 64) ltac:(lia)).
  pose proof (Z.div_mod x (2 ^ 64) ltac:(lia)).
  pose proof (Z.mod_pos_bound x (2 ^ 64) ltac:(lia)).
  lia.
Qed.

Section wrapper_facts.
Context {S A : Type} `{ReadWriteCloser S} `{Crypto A}.

Lemma Write_encCtr (c : ClientAEAD S A) (p : bytes) :
  encCtr (ClientAEAD_Write c p).1 = wrap_uint64 (encCtr c + 1).
Proof.
  unfold ClientAEAD_Write. cbn [aead base encCtr].
  destruct (ToUint32Size _); [|reflexivity].
  destruct (Write (base c) _) as [b1 [n1 [e1|]]]; [reflexivity|].
  destruct (Write b1 _) as [b2 [n2 [e2|]]]; reflexivity.
Qed.

Lemma Write_aead (c : ClientAEAD S A) (p : bytes) :
  aead (ClientAEAD_Write c p).1 = aead c.
Proof.
  unfold ClientAEAD_Write. cbn [aead base encCtr].
  destruct (ToUint32Size _); [|reflexivity].
  destruct (Write (base c) _) as [b1 [n1 [e1|]]]; [reflexivity|].
  destruct (Write b1 _) as [b2 [n2 [e2|]]]; reflexivity.
Qed.

Lemma write_all_app (c : ClientAEAD S A) (ps qs : list bytes) :
  write_all c (ps ++ qs) =
    let '(c1, rs) := write_all c ps in
    let '(c2, rs') := write_all c1 qs in
    (c2, rs ++ rs').
Proof.
  revert c. induction ps as [|p ps IH]; intros c; cbn [write_all app].
  - destruct (write_all c qs). reflexivity.
  - destruct (ClientAEAD_Write c p) as [c1 r]. rewrite IH.
    destruct (write_all c1 ps) as [c2 rs].
    destruct (write_all c2 qs) as [c3 rs']. reflexivity.
Qed.

(** After [n] calls the counter has advanced by [n], modulo 2^64. *)
Lemma write_all_encCtr (c : ClientAEAD S A) (ps : list bytes) :
  encCtr (write_all c ps).1 = wrap_uint64 (encCtr c + Z.of_nat (length ps))
  \/ (ps = [] /\ (write_all c ps).1 = c).
Proof.
  revert c. induction ps as [|p ps IH]; intros c.
  - right. split; reflexivity.
  - left. cbn [write_all].
    pose proof (Write_encCtr c p) as Hc.
    destruct (ClientAEAD_Write c p) as [c1 r]. cbn [fst] in Hc.
    specialize (IH c1).
    destruct (write_all c1 ps) as [c2 rs]. cbn [fst] in *.
    destruct IH as [IH|[-> ->]].
    + rewrite IH, Hc. unfold wrap_uint64. cbn [length].
      rewrite Nat2Z.inj_succ.
      rewrite Zplus_mod_idemp_l. f_equal. lia.
    + rewrite Hc. reflexivity.
Qed.

Lemma write_all_nonce (c : ClientAEAD S A) (ps : list bytes) :
  nonce_of (encCtr (write_all c ps).1)
  = nonce_of (encCtr c + Z.of_nat (length ps)).
Proof.
  destruct (write_all_encCtr c ps) as [->|[-> ->]].
  - apply nonce_of_wrap.
  - cbn. rewrite Z.add_0_r. reflexivity.
Qed.
End wrapper_facts.

Lemma demo_tag_length key : length (demo_tag key) = 16%nat.
Proof.
  unfold demo_tag. rewrite length_take, length_app, repeat_length. lia.
Qed.

Lemma demo_crypto_laws : @CryptoLaws bytes demo_crypto.
Proof.
  split.
  - intros m. cbn. rewrite length_take, length_app. cbn [length]. lia.
  - intros key Hk. cbn. rewrite Hk. eauto.
  - intros a nonce p. cbn. rewrite length_app, demo_tag_length. reflexivity.
  - intros a nonce p _. cbn.
    rewrite length_app, demo_tag_length.
    replace (length p + 16 - 16)%nat with (length p) by lia.
    rewrite drop_app_length, take_app_length.
    rewrite bool_decide_eq_true_2 by reflexivity.
    replace (length p + 16)%nat with (16 + length p)%nat by lia.
    reflexivity.
Qed.

Lemma nonce_of_congr x y : x mod 2 ^ 64 = y mod 2 ^ 64 -> nonce_of x = nonce_of y.
Proof.
  intros Heq. rewrite <- (nonce_of_wrap x), <- (nonce_of_wrap y).
  unfold wrap_uint64. rewrite Heq. reflexivity.
Qed.

Lemma nonce_of_succ x y : nonce_of x = nonce_of y -> nonce_of (x + 1) = nonce_of (y + 1).
Proof.
  intros Heq. apply nonce_of_inj in Heq. apply nonce_of_congr.
  rewrite <- (Zplus_mod_idemp_l x), <- (Zplus_mod_idemp_l y), Heq. reflexivity.
Qed.

Section wrapper_on_mock.
Context {A : Type} `{Crypto A} `{!CryptoLaws A}.

Lemma Seal_len (a : A) nonce p : len (Seal a nonce p) = len p + 16.
Proof. unfold len. rewrite Seal_length. lia. Qed.

Lemma aead_frame_nonce (a : A) x y p :
  nonce_of x = nonce_of y -> aead_frame a x p = aead_frame a y p.
Proof. unfold aead_frame. intros ->. reflexivity. Qed.

Lemma Write_mock_ok (c : ClientAEAD mockReadWriteCloser A) (p : bytes) :
  writeErr (base c) = None -> len p + 16 <= MaxUint32 ->
  ClientAEAD_Write c p =
    ({| base := with_writeData (base c)
                  (writeData (base c) ++ aead_frame (aead c) (encCtr c) p);
        aead := aead c;
        encCtr := wrap_uint64 (encCtr c + 1) |},
     (len p, None)).
Proof.
  intros Hw Hp. unfold ClientAEAD_Write. cbn [aead base encCtr].
  unfold MaxUint32 in Hp.
  rewrite ToUint32Size_ok by (rewrite Seal_len; unfold len in *; lia).
  rewrite mock_Write_ok by assumption.
  rewrite mock_Write_ok by (cbn; assumption).
  unfold with_base, aead_frame. cbn. rewrite <- !app_assoc. reflexivity.
Qed.

Lemma Read_mock_ok (c : ClientAEAD mockReadWriteCloser A)
    (k : Z) (p rest : bytes) (n : nat) :
  readErr (base c) = None -> len p + 16 <= MaxUint32 ->
  readData (base c) = aead_frame (aead c) k p ++ rest ->
  (length p <= n)%nat ->
  ClientAEAD_Read c n =
    Some (with_base c (with_readData (base c) rest), (p, None)).
Proof.
  intros Hr Hp Hd Hn. unfold ClientAEAD_Read, aead_frame in *.
  set (ct := Seal (aead c) (nonce_of k) p) in *.
  unfold MaxUint32 in Hp.
  assert (Hct : len ct = len p + 16) by apply Seal_len.
  change (4 + 24)%nat with (length (PutUint32 (len ct) ++ nonce_of k)).
  rewrite (mock_ReadFull_ok _ _ (ct ++ rest))
    by (assumption || (rewrite Hd, <- !app_assoc; reflexivity)).
  change (take 4 (PutUint32 (len ct) ++ nonce_of k)) with (PutUint32 (len ct)).
  change (drop 4 (PutUint32 (len ct) ++ nonce_of k)) with (nonce_of k).
  rewrite Uint32_PutUint32 by (unfold len in *; lia).
  unfold len at 1. rewrite Nat2Z.id.
  rewrite (mock_ReadFull_ok _ ct rest) by (cbn; assumption || reflexivity).
  subst ct. rewrite Open_Seal by apply nonce_of_length.
  rewrite firstn_all2 by lia.
  destruct (Nat.ltb_spec (length p) (length p)); [lia|].
  unfold with_base, with_readData. cbn. reflexivity.
Qed.

Lemma write_all_mock (ps : list bytes) :
  forall (c : ClientAEAD mockReadWriteCloser A) (k : Z),
  writeErr (base c) = None -> nonce_of (encCtr c) = nonce_of k ->
  Forall (fun p => len p + 16 <= MaxUint32) ps ->
  exists c',
    write_all c ps = (c', map (fun p => (len p, None)) ps) /\
    base c' = with_writeData (base c)
                (writeData (base c) ++ aead_frames (aead c) k ps) /\
    aead c' = aead c.
Proof.
  induction ps as [|p ps IH]; intros c k Hw Hk Hall.
  - exists c. cbn. rewrite app_nil_r.
    destruct c as [b a e]; destruct b; cbn. auto.
  - inversion Hall as [|? ? Hp Hps]; subst.
    cbn [write_all map aead_frames].
    rewrite Write_mock_ok by assumption.
    set (c1 := {| base := with_writeData (base c)
                   (writeData (base c) ++ aead_frame (aead c) (encCtr c) p);
                  aead := aead c;
                  encCtr := wrap_uint64 (encCtr c + 1) |}).
    destruct (IH c1 (k + 1)) as (c' & Hrun & Hbase & Haead).
    + unfold c1; cbn [base with_writeData writeErr]. assumption.
    + unfold c1; cbn [encCtr]. rewrite nonce_of_wrap.
      apply nonce_of_succ. assumption.
    + exact Hps.
    + exists c'. rewrite Hrun. split; [reflexivity|]. split.
      * rewrite Hbase. unfold c1; cbn [base aead writeData with_writeData
          readData readErr writeErr closeErr closed].
        rewrite (aead_frame_nonce _ _ k) by assumption.
        rewrite <- app_assoc. reflexivity.
      * rewrite Haead. reflexivity.
Qed.

Lemma read_all_mock (ps : list bytes) :
  forall (c : ClientAEAD mockReadWriteCloser A) (k : Z) (caps : list nat)
         (rest : bytes),
  readErr (base c) = None ->
  readData (base c) = aead_frames (aead c) k ps ++ rest ->
  Forall (fun p => len p + 16 <= MaxUint32) ps ->
  Forall2 (fun p n => (length p <= n)%nat) ps caps ->
  read_all c caps =
    Some (with_base c (with_readData (base c) rest),
          map (fun p => (p, None)) ps).
Proof.
  induction ps as [|p ps IH]; intros c k caps rest Hr Hd Hall Hcaps.
  - inversion Hcaps; subst. cbn in *. subst rest.
    destruct c as [b a e]; destruct b; reflexivity.
  - inversion Hcaps as [|? n ? caps' Hn Hcaps']; subst.
    inversion Hall as [|? ? Hp Hps]; subst.
    cbn [read_all map]. cbn [aead_frames] in Hd.
    rewrite (Read_mock_ok c k p (aead_frames (aead c) (k + 1) ps ++ rest))
      by (assumption || (rewrite Hd, <- app_assoc; reflexivity)).
    rewrite (IH _ (k + 1) caps' rest); try assumption; try reflexivity.
Qed.
End wrapper_on_mock.

Lemma aead_frames_lookup {A} `{Crypto A} (a : A) (ps : list bytes) :
  forall (x : Z) (k : nat) (p : bytes),
  ps !! k = Some p ->
  exists pre post,
    aead_frames a x ps = pre ++ aead_frame a (x + Z.of_nat k) p ++ post.
Proof.
  induction ps as [|q ps IH]; intros x k p Hk; [discriminate|].
  destruct k as [|k]; cbn in Hk.
  - injection Hk as ->. exists [], (aead_frames a (x + 1) ps).
    cbn [aead_frames app]. rewrite Z.add_0_r. reflexivity.
  - destruct (IH (x + 1) k p Hk) as (pre & post & Heq).
    exists (aead_frame a x q ++ pre), post.
    cbn [aead_frames]. rewrite Heq, <- app_assoc.
    replace (x + 1 + Z.of_nat k) with (x + Z.of_nat (Datatypes.S k)) by lia.
    reflexivity.
Qed.

Lemma Wrap_ok {S A} `{Crypto A} `{!CryptoLaws A} (psk tunnelID : bytes) :
  exists a : A, forall conn : S,
    Wrap (NewClientPSK psk) conn tunnelID
    = Some {| base := conn; aead := a; encCtr := 0 |}.
Proof.
  destruct (NewX_32 (sha256 (psk ++ tunnelID)) (sha256_length _)) as [a Ha].
  exists a. intros conn. unfold Wrap, NewClientPSK. cbn [secret].
  rewrite Ha. reflexivity.
Qed.

(** C1 (amended).  For any PSK and tunnel id, a writer made by [Wrap]
    over an in-memory stream that writes [P1..Pn], each with a ciphertext
    length [|Pk| + 16] that fits 32 bits, succeeds on each and emits the
    frames [length; nonce; ciphertext] whose k-th nonce is 16 zero bytes
    followed by [k-1] big-endian over 8 bytes; a reader made by [Wrap]
    with the same PSK and tunnel id that reads the output with buffers at
    least as long as the plaintexts returns [P1..Pn] in order.  The
    counter after [k < 2^64] writes is [k], and the nonces of any two of
    the first 2^64 writes differ. *)
Theorem aead_roundtrip :
  forall (A : Type) (crypto : Crypto A), CryptoLaws A ->
  forall (psk tunnelID : bytes) (Ps : list bytes) (caps : list nat),
    Forall (fun P => len P + 16 <= MaxUint32) Ps ->
    Forall2 (fun P n => (length P <= n)%nat) Ps caps ->
    exists (a : A) w' r',
      Wrap (NewClientPSK psk) (mock_of []) tunnelID
        = Some {| base := mock_of []; aead := a; encCtr := 0 |} /\
      write_all {| base := mock_of []; aead := a; encCtr := 0 |} Ps
        = (w', map (fun P => (len P, None)) Ps) /\
      writeData (base w') = aead_frames a 0 Ps /\
      (forall (k : nat) (P : bytes), Ps !! k = Some P ->
         exists pre post,
           writeData (base w') =
             pre ++ (PutUint32 (len P + 16)
                     ++ (repeat zero 16 ++ PutUint64 (Z.of_nat k))
                     ++ Seal a (repeat zero 16 ++ PutUint64 (Z.of_nat k)) P)
                 ++ post) /\
      (forall k : nat, (k <= length Ps)%nat -> Z.of_nat k < 2 ^ 64 ->
         encCtr (write_all {| base := mock_of []; aead := a; encCtr := 0 |}
                   (take k Ps)).1 = Z.of_nat k) /\
      (forall i j : nat, (i < j)%nat -> Z.of_nat j < 2 ^ 64 ->
         nonce_of (Z.of_nat i) <> nonce_of (Z.of_nat j)) /\
      Wrap (NewClientPSK psk) (mock_of (writeData (base w'))) tunnelID
        = Some {| base := mock_of (writeData (base w'));
                  aead := a; encCtr := 0 |} /\
      read_all {| base := mock_of (writeData (base w'));
                  aead := a; encCtr := 0 |} caps
        = Some (r', map (fun P => (P, None)) Ps).
Proof.
  intros A crypto laws psk tunnelID Ps caps Hsize Hcaps.
  destruct (Wrap_ok (S := mockReadWriteCloser) psk tunnelID) as [a Hwrap].
  set (w := {| base := mock_of []; aead := a; encCtr := 0 |}).
  destruct (write_all_mock Ps w 0) as (w' & Hrun & Hbase & Haead);
    [reflexivity|reflexivity|assumption|].
  assert (Hout : writeData (base w') = aead_frames a 0 Ps).
  { rewrite Hbase. reflexivity. }
  exists a, w'. eexists. fold w. split; [apply Hwrap|].
  split; [exact Hrun|]. split; [exact Hout|]. split; [|split; [|split; [|split]]].
  - intros k P Hk. rewrite Hout.
    destruct (aead_frames_lookup a Ps 0 k P Hk) as (pre & post & Heq).
    exists pre, post. rewrite Heq. unfold aead_frame. cbn [Z.add].
    rewrite Seal_len. reflexivity.
  - intros k Hk Hlt.
    destruct (write_all_encCtr w (take k Ps)) as [Heq|[Hnil Heq]].
    + rewrite Heq. rewrite length_take. unfold w; cbn [encCtr].
      unfold wrap_uint64. rewrite Z.mod_small by lia. lia.
    + rewrite Heq. unfold w; cbn [encCtr].
      apply (f_equal length) in Hnil. rewrite length_take in Hnil.
      cbn in Hnil. lia.
  - intros i j Hij Hj Heq. symmetry in Heq.
    replace (Z.of_nat j) with (Z.of_nat i + Z.of_nat (j - i)) in Heq by lia.
    revert Heq. apply nonce_of_distinct. lia.
  - apply Hwrap.
  - rewrite (read_all_mock Ps _ 0 caps []); [reflexivity|reflexivity| |assumption|assumption].
    cbn [base readData mock_of aead]. rewrite Hout, app_nil_r. reflexivity.
Qed.

#[local] Existing Instance demo_crypto.

Lemma aead_roundtrip_witness :
  exists (a : bytes) w' r',
    Wrap (NewClientPSK (bs "K")) (mock_of []) (bs "tunnel-123")
      = Some {| base := mock_of []; aead := a; encCtr := 0 |} /\
    write_all {| base := mock_of []; aead := a; encCtr := 0 |}
        [bs "hello"; []; bs "bye"]
      = (w', [(5, None); (0, None); (3, None)]) /\
    read_all {| base := mock_of (writeData (base w'));
                aead := a; encCtr := 0 |} [5; 0; 64]%nat
      = Some (r', [(bs "hello", None); ([], None); (bs "bye", None)]).
Proof.
  destruct (aead_roundtrip bytes demo_crypto demo_crypto_laws
              (bs "K") (bs "tunnel-123") [bs "hello"; []; bs "bye"]
              [5; 0; 64]%nat)
    as (a & w' & r' & Hw & Hrun & _ & _ & _ & _ & _ & Hread).
  - repeat constructor; vm_compute; discriminate.
  - repeat constructor; vm_compute; lia.
  - exists a, w', r'. auto.
Defined.

(** The claim as first stated, without the buffer condition, fails: a
    2-byte plaintext read into a 1-byte buffer comes back as its first
    byte with [io.ErrShortBuffer], and the rest of it is gone. *)
Lemma aead_read_short_buffer :
  exists (a : bytes) w' r',
    Wrap (NewClientPSK (bs "K")) (mock_of []) (bs "tunnel-123")
      = Some {| base := mock_of []; aead := a; encCtr := 0 |} /\
    write_all {| base := mock_of []; aead := a; encCtr := 0 |} [bs "hi"]
      = (w', [(2, None)]) /\
    read_all {| base := mock_of (writeData (base w'));
                aead := a; encCtr := 0 |} [1; 64]%nat
      = Some (r', [(bs "h", Some ErrShortBuffer); ([], Some EOF)]).
Proof.
  do 3 eexists. split; [reflexivity|]. split; reflexivity.
Qed.

(** C10 (amended).  Whatever [Write] returns, it leaves the counter incremented by
    one (modulo 2^64): also when the size check fails, and when the first
    write on the underlying stream fails so that no byte reached it.  The
    nonce of the call is thereby consumed: the next call uses another
    one, and no two of up to 2^64 successive calls, failed or not, use
    the same nonce. *)
Theorem Write_consumes_nonce :
  forall (S A : Type) (rwc : ReadWriteCloser S) (crypto : Crypto A)
         (c : ClientAEAD S A) (p : bytes),
    let ct := Seal (aead c) (nonce_of (encCtr c)) p in
    let c1 := {| base := base c; aead := aead c;
                 encCtr := wrap_uint64 (encCtr c + 1) |} in
    encCtr (ClientAEAD_Write c p).1 = wrap_uint64 (encCtr c + 1) /\
    (forall e, ToUint32Size (len ct) = Err e ->
       ClientAEAD_Write c p = (c1, (0, Some e))) /\
    (forall l b1 n e, ToUint32Size (len ct) = Ok l ->
       Write (base c) (PutUint32 l ++ nonce_of (encCtr c)) = (b1, (n, Some e)) ->
       ClientAEAD_Write c p = (with_base c1 b1, (0, Some e))) /\
    nonce_of (encCtr (ClientAEAD_Write c p).1) <> nonce_of (encCtr c) /\
    (forall (ps : list bytes) (i j : nat),
       (i < j <= length ps)%nat -> Z.of_nat (j - i) < 2 ^ 64 ->
       nonce_of (encCtr (write_all c (take i ps)).1)
       <> nonce_of (encCtr (write_all c (take j ps)).1)).
Proof.
  intros S A rwc crypto c p ct c1.
  split; [apply Write_encCtr|]. split; [|split; [|split]].
  - intros e He. unfold ClientAEAD_Write. cbn [aead base encCtr].
    fold ct. rewrite He. reflexivity.
  - intros l b1 n e Hl Hw. unfold ClientAEAD_Write. cbn [aead base encCtr].
    fold ct. rewrite Hl, Hw. reflexivity.
  - rewrite Write_encCtr, nonce_of_wrap. apply nonce_of_distinct. lia.
  - intros ps i j Hij Hd. rewrite !write_all_nonce, !length_take.
    replace (i `min` length ps)%nat with i by lia.
    replace (j `min` length ps)%nat with j by lia.
    intros Heq. symmetry in Heq.
    replace (encCtr c + Z.of_nat j)
      with (encCtr c + Z.of_nat i + Z.of_nat (j - i)) in Heq by lia.
    revert Heq. apply nonce_of_distinct. lia.
Qed.

Lemma Write_consumes_nonce_witness :
  ClientAEAD_Write {| base := closed_stream; aead := bs "key"; encCtr := 0 |}
    (bs "x")
  = ({| base := closed_stream; aead := bs "key"; encCtr := 1 |},
     (0, Some ErrClosedPipe)).
Proof.
  apply (proj1 (proj2 (proj2
    (Write_consumes_nonce _ _ _ demo_crypto
       {| base := closed_stream; aead := bs "key"; encCtr := 0 |} (bs "x"))))
    17 closed_stream 0 ErrClosedPipe); reflexivity.
Defined.

(** The claim as first stated, a nonce never used again under the same
    key, fails after 2^64 calls: the counter is a [uint64] and wraps.
    A wrapper whose counter has reached 2^64 - 1 leaves it at 0, the
    value at which [Wrap] starts it, and its next frame is, byte for
    byte, the first frame of a fresh wrapper for the same plaintext. *)
Lemma Write_nonce_reused_after_wrap :
  let fresh := {| base := mock_of []; aead := bs "key"; encCtr := 0 |} in
  let late := {| base := mock_of []; aead := bs "key";
                 encCtr := 2 ^ 64 - 1 |} in
  let wrapped := (ClientAEAD_Write late (bs "x")).1 in
  encCtr wrapped = 0 /\
  nonce_of (encCtr wrapped) = nonce_of (encCtr fresh) /\
  nonce_of (0 + 2 ^ 64) = nonce_of 0 /\
  writeData (base (ClientAEAD_Write (with_base wrapped (mock_of [])) (bs "a")).1)
  = writeData (base (ClientAEAD_Write fresh (bs "a")).1).
Proof.
  cbv zeta. split; [reflexivity|]. split; [reflexivity|].
  split; [reflexivity|]. vm_compute. reflexivity.
Qed.

(** ** The stream bridge *)

Import bridge.

(** C8 (amended).  [WrapClientStream] returns the stream unchanged exactly
    when encryption is disabled; when it is enabled it returns the AEAD
    wrapper of the stream, with a fresh counter, whatever the PSK is, the
    empty one included. *)
Theorem WrapClientStream_enabled :
  forall (S A : Type) (crypto : Crypto A), CryptoLaws A ->
  forall (s : S) (tunnelID : bytes) (enc : EncryptionSettings),
    (Enabled enc = false -> WrapClientStream s tunnelID enc = Plain s) /\
    (Enabled enc = true ->
       exists a : A,
         WrapClientStream s tunnelID enc
         = Encrypted (Some {| base := s; aead := a; encCtr := 0 |})).
Proof.
  intros S A crypto laws s tunnelID enc. split; intros Hen.
  - unfold WrapClientStream. rewrite Hen. reflexivity.
  - destruct (Wrap_ok (S := S) (PSK enc) tunnelID) as [a Ha].
    exists a. unfold WrapClientStream. rewrite Hen. cbn [negb].
    rewrite Ha. reflexivity.
Qed.

Lemma WrapClientStream_enabled_witness :
  exists a : bytes,
    WrapClientStream (mock_of []) (bs "tunnel-123")
      {| Enabled := true; PSK := bs "test-secret-key" |}
    = Encrypted (Some {| base := mock_of []; aead := a; encCtr := 0 |}).
Proof.
  apply (WrapClientStream_enabled _ bytes demo_crypto demo_crypto_laws
           (mock_of []) (bs "tunnel-123")
           {| Enabled := true; PSK := bs "test-secret-key" |}).
  reflexivity.
Defined.

(** The claim as first stated fails: with encryption enabled and an empty
    PSK the stream is wrapped, not returned unchanged (the case
    "encryption with empty PSK" of TestWrapClientStream). *)
Lemma WrapClientStream_empty_PSK :
  (exists a : bytes,
     WrapClientStream (mock_of []) (bs "tunnel-123")
       {| Enabled := true; PSK := [] |}
     = Encrypted (Some {| base := mock_of []; aead := a; encCtr := 0 |})) /\
  WrapClientStream (A := bytes) (mock_of []) (bs "tunnel-123")
    {| Enabled := true; PSK := [] |} <> Plain (mock_of []).
Proof. split; [eexists; reflexivity|discriminate]. Qed.

(** C5 (amended).  The copy loop of the bridge logs nothing when the copy
    ends without error, with [io.EOF] itself, or with an error whose
    message contains "closed pipe" (such as [io.ErrClosedPipe]), and those
    are the only errors it treats as benign: unexpected-EOF,
    closed-network-connection, broken-pipe, connection-reset, "stream
    closed" and "use of closed network connection" errors are each
    logged. *)
Theorem bridge_benign_errors :
  forall label : bytes,
    copy_log label None = [] /\
    (forall e, copy_log label (Some e) = [] <->
               e = EOF \/ Contains (Error e) (bs "closed pipe") = true) /\
    Forall (fun e => copy_log label (Some e) = []) [EOF; ErrClosedPipe] /\
    Forall (fun e => copy_log label (Some e) = [log_line label e])
      [ErrUnexpectedEOF; ErrNetClosed;
       errorString (bs "write: broken pipe");
       errorString (bs "read: connection reset by peer");
       errorString (bs "stream closed");
       errorString (bs "use of closed network connection")].
Proof.
  intros label. split; [reflexivity|]. split; [|split].
  - intros e. unfold copy_log, isClosedPipe.
    destruct (decide (e = EOF)) as [->|Hne].
    + cbn. tauto.
    + rewrite bool_decide_eq_false_2 by assumption. cbn [negb andb].
      destruct (Contains (Error e) (bs "closed pipe")); cbn [negb].
      * tauto.
      * split; [discriminate|]. intros [?|?]; congruence.
  - repeat constructor.
  - repeat constructor.
Qed.

(** The claim as first stated fails: when a side of the bridge fails with a
    broken pipe (the streams of the case "handles closed pipe error" of
    TestPipeStreams), the copy loop logs it. *)
Lemma bridge_logs_broken_pipe :
  startBufferedCopy 1 (mock_of [])
    {| readData := []; readErr := Some (errorString (bs "read: broken pipe"));
       writeData := []; writeErr := None; closeErr := None; closed := false |}
    (64 * 1024) (bs "b->a")
  = Some (mock_of [],
          {| readData := [];
             readErr := Some (errorString (bs "read: broken pipe"));
             writeData := []; writeErr := None; closeErr := None;
             closed := false |},
          [bs "client bridge: copy b->a error: read: broken pipe"]).
Proof. reflexivity. Qed.

(** ** The session manager *)

Import session.

Lemma nextBackoff_min b bmax :
  - 2 ^ 62 <= b < 2 ^ 62 -> nextBackoff b bmax = Z.min (2 * b) bmax.
Proof.
  intros Hb. unfold nextBackoff, wrap_int64.
  rewrite Z.mod_small by lia.
  replace (b * 2 + 2 ^ 63 - 2 ^ 63) with (2 * b) by lia.
  destruct (Z.gtb_spec (2 * b) bmax); lia.
Qed.

Lemma sleep_schedule_law b bmax n :
  0 <= b < 2 ^ 62 -> 0 <= bmax < 2 ^ 62 ->
  sleep_schedule b bmax n = backoff_schedule b bmax n.
Proof.
  revert b. induction n as [|n IH]; intros b Hb Hmax; [reflexivity|].
  cbn [sleep_schedule backoff_schedule].
  rewrite nextBackoff_min by lia. f_equal. apply IH; lia.
Qed.

Lemma sleeps_app tr tr' : sleeps (tr ++ tr') = sleeps tr ++ sleeps tr'.
Proof. unfold sleeps. apply omap_app. Qed.

Lemma dialed_app tr tr' : dialed (tr ++ tr') = dialed tr ++ dialed tr'.
Proof. unfold dialed. apply List.filter_app. Qed.

Section manager_facts.
Variable buildWebSocketURL : bytes -> bytes -> result (bytes * bytes).

Lemma EnsureSession_stopped m w :
  stopped m = true ->
  EnsureSession buildWebSocketURL m w
  = Some (m, w, Err (errorString (bs "stopped"))).
Proof. intros Hs. unfold EnsureSession. rewrite Hs. reflexivity. Qed.

Lemma Close_closed m w :
  stopped m = true -> sess m = None -> conn m = None -> Close m w = (m, w).
Proof.
  intros Hs Hsess Hconn. unfold Close. rewrite Hsess, Hconn.
  destruct m, w; cbn in *; subst. reflexivity.
Qed.

Lemma run_closed calls : forall m w,
  stopped m = true -> sess m = None -> conn m = None ->
  exists results,
    run buildWebSocketURL calls m w = Some (m, w, results) /\
    Forall (fun r => r = Err (errorString (bs "stopped"))) results.
Proof.
  induction calls as [|[|] calls IH]; intros m w Hs Hsess Hconn.
  - exists []. split; [reflexivity|constructor].
  - destruct (IH m w Hs Hsess Hconn) as (rs & Hrun & Hall).
    exists (Err (errorString (bs "stopped")) :: rs).
    cbn [run]. rewrite EnsureSession_stopped, Hrun by assumption.
    split; [reflexivity|]. constructor; [reflexivity|assumption].
  - cbn [run]. rewrite Close_closed by assumption.
    apply IH; assumption.
Qed.

Lemma dial_loop_sleeps (fails : list DialResult) :
  forall m tr wsURL origin b c s rest,
  stopped m = false -> Forall is_failure fails ->
  exists tr',
    dial_loop m (fails ++ DialConn c (Ok s) :: rest) tr wsURL origin b
    = Some (set_session m c s, rest, tr', Ok s) /\
    sleeps tr' = sleeps tr ++ sleep_schedule b (boMax m) (length fails) /\
    dialed tr' = dialed tr
                 ++ repeat (EvDial wsURL origin) (Datatypes.S (length fails)).
Proof.
  induction fails as [|a fails IH];
    intros m tr wsURL origin b c s rest Hs Hfails.
  - eexists. cbn [app dial_loop]. rewrite Hs.
    unfold initializeSession. split; [reflexivity|]. split.
    + rewrite !sleeps_app. cbn. rewrite !app_nil_r. reflexivity.
    + rewrite !dialed_app. cbn. rewrite !app_nil_r. reflexivity.
  - inversion Hfails as [|? ? Ha Hrest]; subst.
    cbn [app dial_loop]. rewrite Hs.
    destruct a as [e|c' [s'|e]]; cbn in Ha; [|contradiction|].
    + destruct (IH m ((tr ++ [EvDial wsURL origin]) ++ [EvSleep b])
                  wsURL origin (nextBackoff b (boMax m)) c s rest Hs Hrest)
        as (tr' & Hrun & Hsl & Hd).
      exists tr'. split; [exact Hrun|]. split.
      * rewrite Hsl, !sleeps_app. cbn. rewrite app_nil_r, <- app_assoc.
        reflexivity.
      * rewrite Hd, !dialed_app. cbn. rewrite app_nil_r, <- app_assoc.
        reflexivity.
    + unfold initializeSession.
      destruct (IH m ((((tr ++ [EvDial wsURL origin])
                         ++ [EvSetReadDeadline c'; EvSmuxClient c'])
                         ++ [EvConnClose c']) ++ [EvSleep b])
                  wsURL origin (nextBackoff b (boMax m)) c s rest Hs Hrest)
        as (tr' & Hrun & Hsl & Hd).
      exists tr'. split; [exact Hrun|]. split.
      * rewrite Hsl, !sleeps_app. cbn. rewrite !app_nil_r, <- app_assoc.
        reflexivity.
      * rewrite Hd, !dialed_app. cbn. rewrite !app_nil_r, <- app_assoc.
        reflexivity.
Qed.
End manager_facts.

(** C4.  Once [Close] has been called on a manager, every [EnsureSession]
    on it returns the error "stopped", in any state of the world and
    without changing it: no session is returned and nothing is dialed;
    a further [Close] changes nothing either.  So any sequence of later
    calls leaves the manager and the world as the first [Close] left
    them, and all its [EnsureSession] results are "stopped". *)
Theorem closed_manager_is_terminal :
  forall (buildWebSocketURL : bytes -> bytes -> result (bytes * bytes))
         (m : Manager) (w : World),
    let m1 := (Close m w).1 in
    let w1 := (Close m w).2 in
    stopped m1 = true /\
    (forall w' : World,
       EnsureSession buildWebSocketURL m1 w'
       = Some (m1, w', Err (errorString (bs "stopped")))) /\
    (forall w' : World, Close m1 w' = (m1, w')) /\
    (forall calls : list call,
       exists results,
         run buildWebSocketURL calls m1 w1 = Some (m1, w1, results) /\
         Forall (fun r => r = Err (errorString (bs "stopped"))) results).
Proof.
  intros build m w m1 w1.
  assert (Hs : stopped m1 = true).
  { unfold m1, Close. destruct (sess m), (conn m); reflexivity. }
  assert (Hsess : sess m1 = None).
  { unfold m1, Close. destruct (sess m), (conn m); reflexivity. }
  assert (Hconn : session.conn m1 = None).
  { unfold m1, Close. destruct (sess m), (conn m); reflexivity. }
  split; [exact Hs|]. split; [|split].
  - intros w'. apply EnsureSession_stopped. exact Hs.
  - intros w'. apply Close_closed; assumption.
  - intros calls.
    destruct (run_closed build calls m1 w1 Hs Hsess Hconn) as (rs & Hrun & Hall).
    exists rs. auto.
Qed.

(** [Close] on a manager that holds a live session closes the session
    and the socket once; [EnsureSession] and [Close] afterwards add no
    call on the outside world. *)
Example Close_then_calls :
  let demo_url := fun server tunnel : bytes =>
    Ok (server ++ bs "/ws?mode=data&tunnel_id=" ++ tunnel, server) in
  let m := {| serverURL := bs "http://example.com";
              tunnelID := bs "tunnel-123";
              conn := Some 7%nat; sess := Some 3%nat; stopped := false;
              boInit := Second; boMax := 30 * Second;
              settings := {| PingInterval := 0; PingTimeout := 0;
                             SmuxKeepAliveInterval := 0;
                             SmuxKeepAliveTimeout := 0 |} |} in
  let w := {| dials := [DialConn 8%nat (Ok 4%nat)]; closedSessions := [];
              trace := [] |} in
  option_map (fun r => (trace r.1.2, dials r.1.2, r.2))
    (run demo_url [CallClose; CallEnsureSession; CallClose; CallEnsureSession]
       m w)
  = Some ([EvSessClose 3%nat; EvConnClose 7%nat],
          [DialConn 8%nat (Ok 4%nat)],
          [Err (errorString (bs "stopped"));
           Err (errorString (bs "stopped"))]).
Proof. reflexivity. Qed.

(** C7 (amended).  For a current backoff [b] whose double fits the signed
    64-bit duration, [-2^62 <= b < 2^62], and any cap, the next backoff
    is [min(2 b, b_max)].  Within one [EnsureSession] call that has to
    dial, with [backoff_initial] and [backoff_max] in [[0, 2^62)], the
    sleeps after the failed attempts are [backoff_initial] and then each
    time the doubled, clamped value. *)
Theorem backoff_law :
  forall buildWebSocketURL : bytes -> bytes -> result (bytes * bytes),
    (forall b bmax : Z,
       - 2 ^ 62 <= b < 2 ^ 62 -> nextBackoff b bmax = Z.min (2 * b) bmax) /\
    (forall (m : Manager) (w : World) (wsURL origin : bytes)
            (fails rest : list DialResult) (c : Conn) (s : Session),
       stopped m = false -> live_session m w = None ->
       buildWebSocketURL (serverURL m) (tunnelID m) = Ok (wsURL, origin) ->
       wsURL <> [] ->
       Forall is_failure fails ->
       dials w = fails ++ DialConn c (Ok s) :: rest ->
       0 <= boInit m < 2 ^ 62 -> 0 <= boMax m < 2 ^ 62 ->
       exists w',
         EnsureSession buildWebSocketURL m w
         = Some (set_session m c s, w', Ok s) /\
         dials w' = rest /\
         sleeps (trace w')
         = sleeps (trace w)
           ++ backoff_schedule (boInit m) (boMax m) (length fails) /\
         dialed (trace w')
         = dialed (trace w)
           ++ repeat (EvDial wsURL origin) (Datatypes.S (length fails))).
Proof.
  intros build. split; [apply nextBackoff_min|].
  intros m w wsURL origin fails rest c s Hs Hlive Hurl Hne Hfails Hd Hi Hmax.
  unfold EnsureSession. rewrite Hs, Hlive.
  unfold sessionDialParams. rewrite Hurl.
  destruct wsURL as [|u wsURL]; [congruence|].
  rewrite Hd.
  destruct (dial_loop_sleeps fails m (trace w) (u :: wsURL) origin (boInit m)
              c s rest Hs Hfails) as (tr' & Hrun & Hsl & Hdl).
  rewrite Hrun. eexists. split; [reflexivity|].
  cbn [dials trace]. split; [reflexivity|]. split.
  - rewrite Hsl, sleep_schedule_law by assumption. reflexivity.
  - exact Hdl.
Qed.

(** Scenario E4 with more failures: backoff from 1 s, capped at 5 s. *)
Lemma backoff_law_witness :
  let m := NewManager (bs "http://example.com") (bs "tunnel-123")
             Second (5 * Second)
             {| PingInterval := 0; PingTimeout := 0;
                SmuxKeepAliveInterval := 0; SmuxKeepAliveTimeout := 0 |} in
  let w := {| dials := [DialError EOF; DialConn 1%nat (Err EOF);
                        DialError EOF; DialError EOF;
                        DialConn 2%nat (Ok 9%nat)];
              closedSessions := []; trace := [] |} in
  nextBackoff (4 * Second) (5 * Second) = 5 * Second /\
  exists w',
    EnsureSession demo_url m w = Some (set_session m 2%nat 9%nat, w', Ok 9%nat) /\
    sleeps (trace w') = [Second; 2 * Second; 4 * Second; 5 * Second].
Proof.
  intros m w. split.
  - rewrite (proj1 (backoff_law demo_url)) by (unfold Second; lia).
    reflexivity.
  - destruct (proj2 (backoff_law demo_url) m w
                (bs "http://example.com/ws?mode=data&tunnel_id=tunnel-123")
                (bs "http://example.com")
                [DialError EOF; DialConn 1%nat (Err EOF);
                 DialError EOF; DialError EOF] [] 2%nat 9%nat)
      as (w' & Hrun & _ & Hsl & _);
      try reflexivity; try discriminate.
    + repeat constructor.
    + unfold m, Second; cbn; lia.
    + unfold m, Second; cbn; lia.
    + exists w'. split; [exact Hrun|]. rewrite Hsl. reflexivity.
Defined.

(** The claim as first stated fails where doubling overflows: with a
    backoff of 5e9 s and a cap of 9e9 s, both accepted by the
    validator, the next backoff is negative. *)
Lemma nextBackoff_overflow :
  nextBackoff (5000000000 * Second) (9000000000 * Second)
    = -8446744073709551616 /\
  nextBackoff (5000000000 * Second) (9000000000 * Second)
    <> Z.min (2 * (5000000000 * Second)) (9000000000 * Second).
Proof. split; [reflexivity|discriminate]. Qed.

(** ** The WebSocket adapter *)

Import wsconn.

(** C6.  [Read] with a buffer longer than 65536 bytes and [Write] of more
    than 1048576 bytes return an error and leave the adapter, the
    connection it holds included, exactly as it was: whatever the
    implementation of the connection, none of its operations has run. *)
Theorem wsconn_size_caps :
  forall (C R W : Type) (ws : WebsocketConn C R W) (w : WSConn C R),
    (forall (fuel n : nat), 65536 < Z.of_nat n ->
       WSConn_Read fuel w n
       = Some (w, ([], Some (errorString
             (bs "requested buffer size exceeds maximum allowed"))))) /\
    (forall p : bytes, 1048576 < len p ->
       WSConn_Write w p
       = Some (w, (0, Some (errorString
             (bs "message size exceeds maximum allowed"))))).
Proof.
  intros C R W ws w. split.
  - intros fuel n Hn. unfold WSConn_Read, MaxWebSocketFrameSize.
    destruct (Z.gtb_spec (Z.of_nat n) (64 * 1024)); [reflexivity|lia].
  - intros p Hp. unfold WSConn_Write, MaxWebSocketMessageSize.
    destruct (Z.gtb_spec (len p) (1024 * 1024)); [reflexivity|lia].
Qed.

Lemma wsconn_size_caps_witness :
  WSConn_Read 0 demo_ws (64 * 1024 + 1)
  = Some (demo_ws, ([], Some (errorString
        (bs "requested buffer size exceeds maximum allowed")))) /\
  option_map (fun r => calls <$> conn r.1) (WSConn_Read 0 demo_ws (64 * 1024 + 1))
  = Some (Some 1%nat).
Proof.
  assert (Hn : 65536 < Z.of_nat (64 * 1024 + 1)) by (vm_compute; reflexivity).
  pose proof (proj1 (wsconn_size_caps _ _ _ script_conn demo_ws)
                0%nat (64 * 1024 + 1)%nat Hn) as Hread.
  split; [exact Hread|]. rewrite Hread. reflexivity.
Defined.

Example wsconn_Read_skips_text :
  option_map snd (WSConn_Read 3 demo_ws (64 * 1024))
  = Some (bs "ok", None).
Proof. vm_compute. reflexivity. Qed.

(** ** UTF-8 *)

Import utf8.

Lemma lor_disjoint b a k :
  0 <= k -> 0 <= a < 2 ^ k -> b mod 2 ^ k = 0 -> Z.lor b a = b + a.
Proof.
  intros Hk Ha Hb.
  assert (Hpos : 0 < 2 ^ k) by (apply Z.pow_pos_nonneg; lia).
  pose proof (Z.div_mod b (2 ^ k) ltac:(lia)) as Hdm.
  rewrite Hb, Z.add_0_r in Hdm.
  rewrite Z.lor_comm.
  replace b with (Z.shiftl (b / 2 ^ k) k) at 1
    by (rewrite Z.shiftl_mul_pow2 by lia; lia).
  rewrite lor_shiftl_add by lia. lia.
Qed.

Lemma land_1F b : Z.land b 0x1F = b mod 32.
Proof. change 0x1F with (Z.ones 5). rewrite Z.land_ones by lia. reflexivity. Qed.

Lemma land_0F b : Z.land b 0x0F = b mod 16.
Proof. change 0x0F with (Z.ones 4). rewrite Z.land_ones by lia. reflexivity. Qed.

Lemma land_07 b : Z.land b 0x07 = b mod 8.
Proof. change 0x07 with (Z.ones 3). rewrite Z.land_ones by lia. reflexivity. Qed.

Lemma land_3F b : Z.land b 0x3F = b mod 64.
Proof. change 0x3F with (Z.ones 6). rewrite Z.land_ones by lia. reflexivity. Qed.

Lemma decode2_val p0 b1 :
  Z.lor (Z.shiftl (Z.land p0 0x1F) 6) (Z.land b1 0x3F)
  = (p0 mod 32) * 64 + b1 mod 64.
Proof.
  rewrite land_1F, land_3F, Z.shiftl_mul_pow2 by lia.
  change (2 ^ 6) with 64.
  pose proof (Z.mod_pos_bound b1 64 ltac:(lia)).
  apply (lor_disjoint _ _ 6); [lia|lia|].
  change (2 ^ 6) with 64. apply Z.mod_mul. lia.
Qed.

Lemma decode3_val p0 b1 b2 :
  Z.lor (Z.lor (Z.shiftl (Z.land p0 0x0F) 12) (Z.shiftl (Z.land b1 0x3F) 6))
        (Z.land b2 0x3F)
  = (p0 mod 16) * 4096 + (b1 mod 64) * 64 + b2 mod 64.
Proof.
  rewrite land_0F, !land_3F, !Z.shiftl_mul_pow2 by lia.
  change (2 ^ 6) with 64. change (2 ^ 12) with 4096.
  pose proof (Z.mod_pos_bound b1 64 ltac:(lia)).
  pose proof (Z.mod_pos_bound b2 64 ltac:(lia)).
  rewrite (lor_disjoint (p0 mod 16 * 4096) (b1 mod 64 * 64) 12);
    [|lia|change (2 ^ 12) with 4096; lia
     |change (2 ^ 12) with 4096; apply Z.mod_mul; lia].
  apply (lor_disjoint _ _ 6); [lia|lia|].
  change (2 ^ 6) with 64.
  replace (p0 mod 16 * 4096 + b1 mod 64 * 64)
    with ((p0 mod 16 * 64 + b1 mod 64) * 64) by ring.
  apply Z.mod_mul. lia.
Qed.

Lemma decode4_val p0 b1 b2 b3 :
  Z.lor (Z.lor (Z.lor (Z.shiftl (Z.land p0 0x07) 18)
                      (Z.shiftl (Z.land b1 0x3F) 12))
               (Z.shiftl (Z.land b2 0x3F) 6))
        (Z.land b3 0x3F)
  = (p0 mod 8) * 262144 + (b1 mod 64) * 4096 + (b2 mod 64) * 64 + b3 mod 64.
Proof.
  rewrite land_07, !land_3F, !Z.shiftl_mul_pow2 by lia.
  change (2 ^ 6) with 64. change (2 ^ 12) with 4096.
  change (2 ^ 18) with 262144.
  pose proof (Z.mod_pos_bound b1 64 ltac:(lia)).
  pose proof (Z.mod_pos_bound b2 64 ltac:(lia)).
  pose proof (Z.mod_pos_bound b3 64 ltac:(lia)).
  rewrite (lor_disjoint (p0 mod 8 * 262144) (b1 mod 64 * 4096) 18);
    [|lia|change (2 ^ 18) with 262144; lia
     |change (2 ^ 18) with 262144; apply Z.mod_mul; lia].
  rewrite (lor_disjoint (p0 mod 8 * 262144 + b1 mod 64 * 4096)
             (b2 mod 64 * 64) 12);
    [|lia|change (2 ^ 12) with 4096; lia|].
  2: { change (2 ^ 12) with 4096.
       replace (p0 mod 8 * 262144 + b1 mod 64 * 4096)
         with ((p0 mod 8 * 64 + b1 mod 64) * 4096) by ring.
       apply Z.mod_mul. lia. }
  apply (lor_disjoint _ _ 6); [lia|lia|].
  change (2 ^ 6) with 64.
  replace (p0 mod 8 * 262144 + b1 mod 64 * 4096 + b2 mod 64 * 64)
    with ((p0 mod 8 * 4096 + b1 mod 64 * 64 + b2 mod 64) * 64) by ring.
  apply Z.mod_mul. lia.
Qed.

Lemma lor_tx x : Z.lor 0x80 (Z.land x 0x3F) = 0x80 + x mod 64.
Proof.
  rewrite land_3F. pose proof (Z.mod_pos_bound x 64 ltac:(lia)).
  apply (lor_disjoint _ _ 6); [lia|assumption|reflexivity].
Qed.

Lemma EncodeRune_2 r :
  0x80 <= r <= 0x7FF ->
  EncodeRune r = [byte_of_Z (0xC0 + r / 64); byte_of_Z (0x80 + r mod 64)].
Proof.
  intros Hr. unfold EncodeRune, wrap_uint32.
  rewrite Z.mod_small by lia.
  destruct (Z.leb_spec r 0x7F); [lia|].
  destruct (Z.leb_spec r 0x7FF); [|lia].
  rewrite lor_tx, !Z_of_byte_of_Z, Z.shiftr_div_pow2 by lia.
  change (2 ^ 6) with 64.
  assert (E : 0 <= r / 64 < 32).
  { split; [apply Z.div_pos; lia|apply Z.div_lt_upper_bound; lia]. }
  rewrite (Z.mod_small (r / 64)) by lia.
  rewrite (lor_disjoint _ _ 5) by (try reflexivity; change (2 ^ 5) with 32; lia).
  f_equal. f_equal. f_equal. f_equal.
  pose proof (Z.div_mod r 256 ltac:(lia)).
  pose proof (Z.div_mod r 64 ltac:(lia)).
  pose proof (Z.div_mod (r mod 256) 64 ltac:(lia)).
  pose proof (Z.mod_pos_bound r 256 ltac:(lia)).
  pose proof (Z.mod_pos_bound r 64 ltac:(lia)).
  pose proof (Z.mod_pos_bound (r mod 256) 64 ltac:(lia)).
  lia.
Qed.

Lemma mod256_mod64 x : (x mod 256) mod 64 = x mod 64.
Proof.
  pose proof (Z.div_mod x 256 ltac:(lia)).
  pose proof (Z.div_mod x 64 ltac:(lia)).
  pose proof (Z.div_mod (x mod 256) 64 ltac:(lia)).
  pose proof (Z.mod_pos_bound x 256 ltac:(lia)).
  pose proof (Z.mod_pos_bound x 64 ltac:(lia)).
  pose proof (Z.mod_pos_bound (x mod 256) 64 ltac:(lia)).
  lia.
Qed.

Lemma lor_tx_byte x :
  Z.lor 0x80 (Z.land (Z_of_byte (byte_of_Z x)) 0x3F) = 0x80 + x mod 64.
Proof. rewrite lor_tx, Z_of_byte_of_Z, mod256_mod64. reflexivity. Qed.

Lemma EncodeRune_3 r :
  0x800 <= r <= 0xFFFF -> ~ (0xD800 <= r <= 0xDFFF) ->
  EncodeRune r = [byte_of_Z (0xE0 + r / 4096);
                  byte_of_Z (0x80 + (r / 64) mod 64);
                  byte_of_Z (0x80 + r mod 64)].
Proof.
  intros Hr Hs. unfold EncodeRune, wrap_uint32.
  rewrite Z.mod_small by lia.
  destruct (Z.leb_spec r 0x7F); [lia|].
  destruct (Z.leb_spec r 0x7FF); [lia|].
  replace ((r <? 0xD800) || (0xDFFF <? r) && (r <=? 0xFFFF)) with true.
  2: { symmetry. destruct (Z.ltb_spec r 0xD800); [reflexivity|].
       destruct (Z.ltb_spec 0xDFFF r); [|lia].
       destruct (Z.leb_spec r 0xFFFF); [reflexivity|lia]. }
  rewrite !lor_tx_byte, Z_of_byte_of_Z, !Z.shiftr_div_pow2 by lia.
  change (2 ^ 6) with 64. change (2 ^ 12) with 4096.
  assert (E : 0 <= r / 4096 < 16).
  { split; [apply Z.div_pos; lia|apply Z.div_lt_upper_bound; lia]. }
  rewrite (Z.mod_small (r / 4096)) by lia.
  rewrite (lor_disjoint _ _ 4) by (try reflexivity; change (2 ^ 4) with 16; lia).
  reflexivity.
Qed.

Lemma EncodeRune_4 r :
  0x10000 <= r <= 0x10FFFF ->
  EncodeRune r = [byte_of_Z (0xF0 + r / 262144);
                  byte_of_Z (0x80 + (r / 4096) mod 64);
                  byte_of_Z (0x80 + (r / 64) mod 64);
                  byte_of_Z (0x80 + r mod 64)].
Proof.
  intros Hr. unfold EncodeRune, wrap_uint32, MaxRune.
  rewrite Z.mod_small by lia.
  destruct (Z.leb_spec r 0x7F); [lia|].
  destruct (Z.leb_spec r 0x7FF); [lia|].
  replace ((r <? 0xD800) || (0xDFFF <? r) && (r <=? 0xFFFF)) with false.
  2: { symmetry. destruct (Z.ltb_spec r 0xD800); [lia|].
       destruct (Z.ltb_spec 0xDFFF r); [|lia].
       destruct (Z.leb_spec r 0xFFFF); [lia|reflexivity]. }
  replace ((0xFFFF <? r) && (r <=? 0x10FFFF)) with true.
  2: { symmetry. destruct (Z.ltb_spec 0xFFFF r); [|lia].
       destruct (Z.leb_spec r 0x10FFFF); [reflexivity|lia]. }
  rewrite !lor_tx_byte, Z_of_byte_of_Z, !Z.shiftr_div_pow2 by lia.
  change (2 ^ 6) with 64. change (2 ^ 12) with 4096.
  change (2 ^ 18) with 262144.
  assert (E : 0 <= r / 262144 < 8).
  { split; [apply Z.div_pos; lia|apply Z.div_lt_upper_bound; lia]. }
  rewrite (Z.mod_small (r / 262144)) by lia.
  rewrite (lor_disjoint _ _ 3) by (try reflexivity; change (2 ^ 3) with 8; lia).
  reflexivity.
Qed.

Lemma EncodeRune_1 r : 0 <= r <= 0x7F -> EncodeRune r = [byte_of_Z r].
Proof.
  intros Hr. unfold EncodeRune, wrap_uint32.
  rewrite Z.mod_small by lia.
  destruct (Z.leb_spec r 0x7F); [reflexivity|lia].
Qed.

Ltac zb :=
  repeat (match goal with
  | |- context [Z.eqb ?a ?b] => destruct (Z.eqb_spec a b); try lia
  end; cbn [orb andb negb]);
  repeat (match goal with
  | |- context [Z.ltb ?a ?b] => destruct (Z.ltb_spec a b); try lia
  | |- context [Z.leb ?a ?b] => destruct (Z.leb_spec a b); try lia
  end; cbn [orb andb negb]).

Lemma DecodeRune_2_ok c0 c1 t :
  0xC2 <= Z_of_byte c0 <= 0xDF -> 0x80 <= Z_of_byte c1 <= 0xBF ->
  DecodeRune (c0 :: c1 :: t)
  = ((Z_of_byte c0 - 0xC0) * 64 + (Z_of_byte c1 - 0x80), 2%nat).
Proof.
  intros H0 H1. unfold DecodeRune, RuneSelf.
  set (p0 := Z_of_byte c0) in *. set (b1 := Z_of_byte c1) in *.
  zb. rewrite decode2_val. f_equal. Z.div_mod_to_equations. lia.
Qed.

Lemma DecodeRune_3_ok c0 c1 c2 t :
  0xE0 <= Z_of_byte c0 <= 0xEF -> 0x80 <= Z_of_byte c1 <= 0xBF ->
  (Z_of_byte c0 = 0xE0 -> 0xA0 <= Z_of_byte c1) ->
  (Z_of_byte c0 = 0xED -> Z_of_byte c1 <= 0x9F) ->
  0x80 <= Z_of_byte c2 <= 0xBF ->
  DecodeRune (c0 :: c1 :: c2 :: t)
  = ((Z_of_byte c0 - 0xE0) * 4096 + (Z_of_byte c1 - 0x80) * 64
     + (Z_of_byte c2 - 0x80), 3%nat).
Proof.
  intros H0 H1 Hlo Hhi H2. unfold DecodeRune, RuneSelf.
  set (p0 := Z_of_byte c0) in *. set (b1 := Z_of_byte c1) in *.
  set (b2 := Z_of_byte c2) in *.
  zb; rewrite decode3_val; f_equal; Z.div_mod_to_equations; lia.
Qed.

Lemma DecodeRune_4_ok c0 c1 c2 c3 t :
  0xF0 <= Z_of_byte c0 <= 0xF4 -> 0x80 <= Z_of_byte c1 <= 0xBF ->
  (Z_of_byte c0 = 0xF0 -> 0x90 <= Z_of_byte c1) ->
  (Z_of_byte c0 = 0xF4 -> Z_of_byte c1 <= 0x8F) ->
  0x80 <= Z_of_byte c2 <= 0xBF -> 0x80 <= Z_of_byte c3 <= 0xBF ->
  DecodeRune (c0 :: c1 :: c2 :: c3 :: t)
  = ((Z_of_byte c0 - 0xF0) * 262144 + (Z_of_byte c1 - 0x80) * 4096
     + (Z_of_byte c2 - 0x80) * 64 + (Z_of_byte c3 - 0x80), 4%nat).
Proof.
  intros H0 H1 Hlo Hhi H2 H3. unfold DecodeRune, RuneSelf.
  set (p0 := Z_of_byte c0) in *. set (b1 := Z_of_byte c1) in *.
  set (b2 := Z_of_byte c2) in *. set (b3 := Z_of_byte c3) in *.
  zb; rewrite decode4_val; f_equal; Z.div_mod_to_equations; lia.
Qed.

Lemma DecodeRune_inv c0 t0 r size :
  0x80 <= Z_of_byte c0 -> DecodeRune (c0 :: t0) = (r, size) ->
  (r = RuneError /\ size = 1%nat) \/
  (exists c1 t, t0 = c1 :: t /\ size = 2%nat /\
     0xC2 <= Z_of_byte c0 <= 0xDF /\ cont c1) \/
  (exists c1 c2 t, t0 = c1 :: c2 :: t /\ size = 3%nat /\
     0xE0 <= Z_of_byte c0 <= 0xEF /\ cont c1 /\
     (Z_of_byte c0 = 0xE0 -> 0xA0 <= Z_of_byte c1) /\
     (Z_of_byte c0 = 0xED -> Z_of_byte c1 <= 0x9F) /\ cont c2) \/
  (exists c1 c2 c3 t, t0 = c1 :: c2 :: c3 :: t /\ size = 4%nat /\
     0xF0 <= Z_of_byte c0 <= 0xF4 /\ cont c1 /\
     (Z_of_byte c0 = 0xF0 -> 0x90 <= Z_of_byte c1) /\
     (Z_of_byte c0 = 0xF4 -> Z_of_byte c1 <= 0x8F) /\ cont c2 /\ cont c3).
Proof.
  intros Hc. unfold DecodeRune, RuneSelf, cont.
  pose proof (Z_of_byte_range c0).
  set (p0 := Z_of_byte c0) in *.
  destruct t0 as [|c1 [|c2 [|c3 t]]];
    try set (b1 := Z_of_byte c1) in *;
    try set (b2 := Z_of_byte c2) in *;
    try set (b3 := Z_of_byte c3) in *;
    zb; intros Heq; injection Heq as <- <-;
    first [ left; split; reflexivity
          | right; left; do 2 eexists; repeat split; (reflexivity || lia)
          | right; right; left; do 3 eexists; repeat split; (reflexivity || lia)
          | right; right; right; do 4 eexists; repeat split; (reflexivity || lia) ].
Qed.

Lemma byte_of_Z_eq c z : Z_of_byte c = z -> byte_of_Z z = c.
Proof. intros <-. apply byte_of_Z_of_byte. Qed.

Lemma DecodeRune_ascii c t :
  Z_of_byte c < 0x80 -> DecodeRune (c :: t) = (Z_of_byte c, 1%nat).
Proof.
  intros Hc. unfold DecodeRune, RuneSelf.
  destruct (Z.ltb_spec (Z_of_byte c) 0x80); [reflexivity|lia].
Qed.

Lemma DecodeRune_take s : DecodeRune (take UTFMax s) = DecodeRune s.
Proof. destruct s as [|c0 [|c1 [|c2 [|c3 t]]]]; reflexivity. Qed.

(** A well-formed multi-byte sequence at the head of a string: it
    decodes on its own, whatever follows, and encodes back to itself. *)
Lemma DecodeRune_multibyte c0 t0 r size :
  0x80 <= Z_of_byte c0 -> DecodeRune (c0 :: t0) = (r, size) ->
  ~ (r = RuneError /\ size = 1%nat) ->
  exists p tl,
    c0 :: t0 = p ++ tl /\ length p = size /\ (2 <= size <= 4)%nat /\
    EncodeRune r = p /\ Forall (fun c => 0x80 <= Z_of_byte c) p /\
    forall t, DecodeRune (p ++ t) = (r, size).
Proof.
  intros Hc Hdec Hok.
  destruct (DecodeRune_inv c0 t0 r size Hc Hdec)
    as [Herr|[(c1 & t & -> & -> & H0 & H1)
       |[(c1 & c2 & t & -> & -> & H0 & H1 & Hlo & Hhi & H2)
        |(c1 & c2 & c3 & t & -> & -> & H0 & H1 & Hlo & Hhi & H2 & H3)]]];
    [contradiction| | |]; unfold cont in *.
  - rewrite DecodeRune_2_ok in Hdec by assumption. injection Hdec as <-.
    exists [c0; c1], t. repeat split; try reflexivity; try lia.
    2: { repeat constructor; lia. }
    + rewrite EncodeRune_2 by lia.
      f_equal; [|f_equal]; apply byte_of_Z_eq; Z.div_mod_to_equations; lia.
    + intros t'. apply DecodeRune_2_ok; assumption.
  - rewrite DecodeRune_3_ok in Hdec by assumption. injection Hdec as <-.
    exists [c0; c1; c2], t. repeat split; try reflexivity; try lia.
    2: { repeat constructor; lia. }
    + rewrite EncodeRune_3 by lia.
      f_equal; [|f_equal; [|f_equal]]; apply byte_of_Z_eq;
        Z.div_mod_to_equations; lia.
    + intros t'. apply DecodeRune_3_ok; assumption.
  - rewrite DecodeRune_4_ok in Hdec by assumption. injection Hdec as <-.
    exists [c0; c1; c2; c3], t. repeat split; try reflexivity; try lia.
    2: { repeat constructor; lia. }
    + rewrite EncodeRune_4 by lia.
      f_equal; [|f_equal; [|f_equal; [|f_equal]]]; apply byte_of_Z_eq;
        Z.div_mod_to_equations; lia.
    + intros t'. apply DecodeRune_4_ok; assumption.
Qed.

(** ** JSON string literals *)

Import json.

Lemma coerce_step_ascii c tl :
  Z_of_byte c < 0x80 -> coerce_step (c :: tl) = ([c], 1%nat).
Proof.
  intros Hc. unfold coerce_step. rewrite DecodeRune_ascii by assumption.
  pose proof (Z_of_byte_range c).
  destruct (Z.eqb_spec (Z_of_byte c) RuneError); [unfold RuneError in *; lia|].
  reflexivity.
Qed.

(** An ASCII character: what the encoder writes for it, the decoder
    reads back as that character. *)
Lemma unquote_step_ascii c :
  Z_of_byte c < 0x80 ->
  forall tl t,
    (appendString_step (c :: tl)).2 = 1%nat /\
    (1 <=? length (appendString_step (c :: tl)).1)%nat = true /\
    unquote_step ((appendString_step (c :: tl)).1 ++ t)
    = Emit [c] (length (appendString_step (c :: tl)).1).
Proof.
  intros Hc tl t.
  destruct c as [[] [] [] [] [] [] [] []];
    try (exfalso; vm_compute in Hc; discriminate);
    (split; [|split]); vm_compute; reflexivity.
Qed.

Lemma unquote_appendString_step c tl t :
  exists out k o,
    appendString_step (c :: tl) = (out, k) /\
    coerce_step (c :: tl) = (o, k) /\
    (1 <= k <= length (c :: tl))%nat /\ (k <= length out)%nat /\
    unquote_step (out ++ t) = Emit o (length out).
Proof.
  destruct (Z.lt_ge_cases (Z_of_byte c) 0x80) as [Hc|Hc].
  - destruct (unquote_step_ascii c Hc tl t) as (Hk & Hlen & Hstep).
    destruct (appendString_step (c :: tl)) as [out k] eqn:Happ.
    cbn [fst snd] in *. subst k. apply Nat.leb_le in Hlen.
    exists out, 1%nat, [c]. split; [reflexivity|].
    split; [apply coerce_step_ascii; assumption|].
    split; [cbn; lia|]. split; [exact Hlen|exact Hstep].
  - unfold appendString_step, coerce_step. rewrite DecodeRune_take.
    unfold RuneSelf.
    destruct (Z.ltb_spec (Z_of_byte c) 0x80); [lia|].
    destruct (DecodeRune (c :: tl)) as [r size] eqn:Hdec.
    destruct ((r =? RuneError) && (size =? 1)%nat) eqn:Herr.
    + exists (bs "\u" ++ bs "fffd"), 1%nat, (EncodeRune RuneError).
      repeat split; try reflexivity; cbn; lia.
    + assert (Hok : ~ (r = RuneError /\ size = 1%nat)).
      { intros [-> ->]. cbn in Herr. discriminate. }
      destruct (DecodeRune_multibyte c tl r size Hc Hdec Hok)
        as (p & tl' & Hs & Hlen & Hsize & Henc & Hhigh & Hall).
      assert (Htake : take size (c :: tl) = p).
      { rewrite Hs, <- Hlen. apply take_app_length. }
      assert (Hk : (1 <= size <= length (c :: tl))%nat).
      { rewrite Hs, length_app. lia. }
      destruct ((r =? 0x2028) || (r =? 0x2029)) eqn:Hls.
      * exists (bs "\u202" ++ [hexdigit (Z.land r 0xF)]), size, p.
        split; [reflexivity|]. split; [rewrite Htake; reflexivity|].
        split; [exact Hk|]. split; [cbn; lia|].
        rewrite <- Henc.
        destruct (Z.eqb_spec r 0x2028) as [->|_]; [vm_compute; reflexivity|].
        destruct (Z.eqb_spec r 0x2029) as [->|_]; [vm_compute; reflexivity|].
        discriminate.
      * exists p, size, p. rewrite Htake.
        split; [reflexivity|]. split; [reflexivity|].
        split; [exact Hk|]. split; [lia|].
        destruct p as [|c' p']; [cbn in Hlen; lia|].
        injection Hs as <- Htl.
        specialize (Hall t). cbn [app] in *.
        unfold unquote_step. unfold RuneSelf.
        pose proof (Z_of_byte_range c).
        zb. rewrite Hall, Henc, Hlen. reflexivity.
Qed.

Lemma unquote_appendString_loop n :
  forall (s : bytes) (fuel : nat) (rest : bytes),
    (length s <= n)%nat -> (length s < fuel)%nat ->
    unquote_loop fuel (appendString_loop n s ++ dq :: rest)
    = Some (coerce_loop n s, rest).
Proof.
  induction n as [|n IH]; intros s fuel rest Hn Hfuel.
  - destruct s; [|cbn in Hn; lia]. destruct fuel; [lia|]. reflexivity.
  - destruct s as [|c tl].
    + destruct fuel; [lia|]. reflexivity.
    + destruct fuel as [|fuel]; [lia|].
      destruct (unquote_appendString_step c tl
                  (appendString_loop n (drop (appendString_step (c :: tl)).2 (c :: tl))
                   ++ dq :: rest))
        as (out & k & o & Happ & Hco & Hk & Hout & Hstep).
      cbn [appendString_loop coerce_loop]. rewrite Happ, Hco.
      rewrite Happ in Hstep. cbn [snd] in Hstep.
      rewrite <- app_assoc. cbn [unquote_loop]. rewrite Hstep.
      rewrite drop_app_length.
      rewrite IH; [reflexivity| |].
      * rewrite length_drop. cbn [length] in *. lia.
      * rewrite length_drop. cbn [length] in *. lia.
Qed.

Lemma appendString_loop_length n :
  forall s : bytes,
    (length s <= n)%nat -> (length s <= length (appendString_loop n s))%nat.
Proof.
  induction n as [|n IH]; intros s Hn.
  - destruct s; cbn in *; lia.
  - destruct s as [|c tl]; [cbn; lia|].
    destruct (unquote_appendString_step c tl [])
      as (out & k & o & Happ & _ & Hk & Hout & _).
    cbn [appendString_loop]. rewrite Happ, length_app.
    specialize (IH (drop k (c :: tl))). rewrite length_drop in IH.
    cbn [length] in *. lia.
Qed.

Lemma string_literal_appendString s rest :
  string_literal (appendString s ++ rest) = Some (coerce s, rest).
Proof.
  unfold string_literal, appendString. cbn [app].
  change (Z_of_byte dq =? 34) with true. cbv iota.
  rewrite <- app_assoc. cbn [app].
  apply unquote_appendString_loop; [apply Nat.le_refl|].
  cbn [length]. rewrite length_app. cbn [length].
  pose proof (appendString_loop_length (length s) s (Nat.le_refl _)). lia.
Qed.

(** ** JSON objects *)

Lemma no_nl_app l1 l2 : no_nl (l1 ++ l2) = no_nl l1 && no_nl l2.
Proof. apply forallb_app. Qed.

Lemma no_nl_high p :
  Forall (fun c => 0x80 <= Z_of_byte c) p -> no_nl p = true.
Proof.
  induction 1 as [|c p Hc _ IH]; [reflexivity|].
  change (no_nl (c :: p)) with (negb (Z_of_byte c =? 10) && no_nl p).
  rewrite IH. destruct (Z.eqb_spec (Z_of_byte c) 10); [lia|reflexivity].
Qed.

Lemma appendString_step_ascii_no_nl c :
  Z_of_byte c < 0x80 ->
  forall tl, no_nl (appendString_step (c :: tl)).1 = true.
Proof.
  intros Hc tl.
  destruct c as [[] [] [] [] [] [] [] []];
    try (exfalso; vm_compute in Hc; discriminate);
    vm_compute; reflexivity.
Qed.

Lemma appendString_step_no_nl c tl :
  no_nl (appendString_step (c :: tl)).1 = true.
Proof.
  destruct (Z.lt_ge_cases (Z_of_byte c) 0x80) as [Hc|Hc].
  - apply appendString_step_ascii_no_nl. assumption.
  - unfold appendString_step. rewrite DecodeRune_take. unfold RuneSelf.
    destruct (Z.ltb_spec (Z_of_byte c) 0x80); [lia|].
    destruct (DecodeRune (c :: tl)) as [r size] eqn:Hdec.
    destruct ((r =? RuneError) && (size =? 1)%nat) eqn:Herr; [reflexivity|].
    assert (Hok : ~ (r = RuneError /\ size = 1%nat)).
    { intros [-> ->]. cbn in Herr. discriminate. }
    destruct (DecodeRune_multibyte c tl r size Hc Hdec Hok)
      as (p & tl' & Hs & Hlen & Hsize & Henc & Hhigh & Hall).
    destruct (Z.eqb_spec r 0x2028) as [->|_]; [reflexivity|].
    destruct (Z.eqb_spec r 0x2029) as [->|_]; [reflexivity|].
    cbn [orb fst]. rewrite Hs, <- Hlen, take_app_length.
    apply no_nl_high. assumption.
Qed.

Lemma appendString_loop_no_nl n : forall s, no_nl (appendString_loop n s) = true.
Proof.
  induction n as [|n IH]; intros s; [destruct s; reflexivity|].
  destruct s as [|c tl]; [reflexivity|].
  cbn [appendString_loop].
  pose proof (appendString_step_no_nl c tl) as Hstep.
  destruct (appendString_step (c :: tl)) as [out k]. cbn [fst] in Hstep.
  rewrite no_nl_app, Hstep, IH. reflexivity.
Qed.

Lemma appendString_no_nl s : no_nl (appendString s) = true.
Proof.
  unfold appendString.
  change (no_nl (dq :: appendString_loop (length s) s ++ [dq]))
    with (negb (Z_of_byte dq =? 10)
          && no_nl (appendString_loop (length s) s ++ [dq])).
  rewrite no_nl_app, appendString_loop_no_nl. reflexivity.
Qed.

Lemma member_no_nl kv : no_nl (member kv) = true.
Proof.
  unfold member. rewrite !no_nl_app, !appendString_no_nl. reflexivity.
Qed.

Lemma members_no_nl sv : no_nl (members sv) = true.
Proof.
  induction sv as [|kv sv IH]; [reflexivity|].
  destruct sv as [|kv' sv']; [apply member_no_nl|].
  change (members (kv :: kv' :: sv'))
    with (member kv ++ bs "," ++ members (kv' :: sv')).
  rewrite !no_nl_app, member_no_nl, IH. reflexivity.
Qed.

Lemma members_cons kv sv :
  members (kv :: sv)
  = member kv ++ match sv with [] => [] | _ => bs "," ++ members sv end.
Proof. destruct sv; [cbn; rewrite app_nil_r|]; reflexivity. Qed.

Lemma members_head kv sv :
  exists tl, members (kv :: sv) = dq :: tl.
Proof.
  rewrite members_cons. unfold member, appendString. cbn [app].
  eexists. reflexivity.
Qed.

Lemma skipSpace_dq tl : skipSpace (dq :: tl) = dq :: tl.
Proof. reflexivity. Qed.

Lemma skipSpace_appendString v X :
  skipSpace (appendString v ++ X) = appendString v ++ X.
Proof. reflexivity. Qed.

Lemma element_appendString v X :
  element (appendString v ++ X) = Some (coerce v, X).
Proof.
  rewrite <- string_literal_appendString. reflexivity.
Qed.

Lemma object_members_members sv :
  forall (fuel : nat) (acc : gmap bytes bytes) (rest : bytes),
    sv <> [] -> (length sv <= fuel)%nat ->
    object_members fuel (members sv ++ bs "}" ++ rest) acc
    = Some (foldl store acc sv, rest).
Proof.
  induction sv as [|[k v] sv IH]; intros fuel acc rest Hne Hfuel;
    [congruence|].
  destruct fuel as [|fuel]; [cbn in Hfuel; lia|].
  rewrite members_cons. unfold member. cbn [fst snd].
  rewrite <- !app_assoc. cbn [object_members].
  rewrite string_literal_appendString.
  change (skipSpace (bs ":" ++ ?Y)) with (":"%char :: Y).
  change (Z_of_byte ":" =? 58) with true. cbv iota.
  rewrite skipSpace_appendString, element_appendString.
  fold (store acc (k, v)).
  destruct sv as [|kv' sv'].
  - change (skipSpace ([] ++ bs "}" ++ rest)) with ("}"%char :: rest).
    change (Z_of_byte "}" =? 44) with false.
    change (Z_of_byte "}" =? 125) with true. cbv iota.
    reflexivity.
  - rewrite <- app_assoc.
    change (skipSpace (bs "," ++ ?Y)) with (","%char :: Y).
    change (Z_of_byte "," =? 44) with true. cbv iota.
    destruct (members_head kv' sv') as [tl Htl].
    rewrite Htl. cbn [app]. rewrite skipSpace_dq.
    change (dq :: tl ++ bs "}" ++ rest) with ((dq :: tl) ++ bs "}" ++ rest).
    rewrite <- Htl.
    apply IH; [discriminate|]. cbn [length] in *. lia.
Qed.

Lemma members_length sv : (length sv <= length (members sv))%nat.
Proof.
  induction sv as [|kv sv IH]; [cbn; lia|].
  rewrite members_cons. unfold member, appendString.
  destruct sv as [|kv' sv'].
  - cbn [app length]. lia.
  - rewrite !length_app. cbn [length] in *. rewrite ?length_app in *.
    cbn [length bs list_ascii_of_string] in *. lia.
Qed.

(** Decoding what [Marshal] wrote stores each pair, keys and values
    coerced, in the order of the sorted keys. *)
Lemma Unmarshal_Marshal (g : gmap bytes bytes) :
  let sv := merge_sort key_le (map_to_list g) in
  Marshal (Some g) = Ok (bs "{" ++ members sv ++ bs "}") /\
  Unmarshal (bs "{" ++ members sv ++ bs "}") = Ok (Some (foldl store ∅ sv)).
Proof.
  intros sv. split; [reflexivity|].
  unfold Unmarshal.
  change (skipSpace (bs "{" ++ ?Y)) with ("{"%char :: Y).
  change (Z_of_byte "{" =? 123) with true. cbv iota.
  destruct sv as [|kv sv'] eqn:Hsv.
  - reflexivity.
  - destruct (members_head kv sv') as [tl Htl].
    rewrite Htl. cbn [app]. rewrite skipSpace_dq.
    change (Z_of_byte dq =? 125) with false. cbv iota.
    change (dq :: tl ++ bs "}") with ((dq :: tl) ++ bs "}" ++ []).
    rewrite <- Htl.
    rewrite object_members_members; [reflexivity|discriminate|].
    rewrite length_app. pose proof (members_length (kv :: sv')). lia.
Qed.

Lemma foldl_store_other (l : list (bytes * bytes)) :
  forall (acc : gmap bytes bytes) (x : bytes),
    (forall kv, kv ∈ l -> coerce kv.1 <> x) ->
    foldl store acc l !! x = acc !! x.
Proof.
  induction l as [|kv l IH]; intros acc x Hl; [reflexivity|].
  cbn [foldl]. rewrite IH.
  - unfold store. apply lookup_insert_ne. apply Hl. left.
  - intros kv' Hin. apply Hl. right. assumption.
Qed.

Lemma foldl_store_lookup (l : list (bytes * bytes)) :
  forall (acc : gmap bytes bytes) (key v : bytes),
    NoDup l.*1 -> (key, v) ∈ l ->
    (forall kv, kv ∈ l -> coerce kv.1 = coerce key -> kv.1 = key) ->
    foldl store acc l !! coerce key = Some (coerce v).
Proof.
  induction l as [|[k1 v1] l IH]; intros acc key v Hnd Hin Hinj.
  - inversion Hin.
  - cbn [fmap list_fmap fst] in Hnd. apply NoDup_cons in Hnd as [Hk1 Hnd].
    cbn [foldl]. apply elem_of_cons in Hin as [Heq|Hin].
    + injection Heq as <- <-.
      rewrite foldl_store_other.
      * unfold store. cbn. apply lookup_insert_eq.
      * intros kv Hkv Hc. apply Hk1.
        rewrite <- (Hinj kv); [|right; assumption|assumption].
        apply list_elem_of_fmap. exists kv. split; [reflexivity|assumption].
    + apply IH; [assumption|assumption|].
      intros kv Hkv. apply Hinj. right. assumption.
Qed.

Lemma coerce_step_multibyte c tl :
  0x80 <= Z_of_byte c ->
  exists o k, coerce_step (c :: tl) = (o, k) /\
    (1 <= k <= length (c :: tl))%nat /\
    exists c' o', o = c' :: o' /\ 0x80 <= Z_of_byte c'.
Proof.
  intros Hc. unfold coerce_step.
  destruct (DecodeRune (c :: tl)) as [r size] eqn:Hdec.
  destruct ((r =? RuneError) && (size =? 1)%nat) eqn:Herr.
  - do 2 eexists. split; [reflexivity|]. split; [cbn; lia|].
    do 2 eexists. split; [reflexivity|]. vm_compute. discriminate.
  - assert (Hok : ~ (r = RuneError /\ size = 1%nat)).
    { intros [-> ->]. cbn in Herr. discriminate. }
    destruct (DecodeRune_multibyte c tl r size Hc Hdec Hok)
      as (p & tl' & Hs & Hlen & Hsize & Henc & Hhigh & Hall).
    exists p, size. split.
    + rewrite Hs, <- Hlen, take_app_length. reflexivity.
    + split; [rewrite Hs, length_app; lia|].
      destruct Hhigh as [|c' o' Hc' _]; [cbn in Hlen; lia|].
      eauto.
Qed.

Lemma coerce_loop_ascii_inv n :
  forall s a : bytes,
    (length s <= n)%nat -> coerce_loop n s = a ->
    Forall (fun c => Z_of_byte c < 0x80) a -> s = a.
Proof.
  induction n as [|n IH]; intros s a Hn Heq Ha.
  - destruct s; [subst; reflexivity|cbn in Hn; lia].
  - destruct s as [|c tl]; [subst; reflexivity|].
    cbn [coerce_loop] in Heq.
    destruct (Z.lt_ge_cases (Z_of_byte c) 0x80) as [Hc|Hc].
    + rewrite coerce_step_ascii in Heq by assumption.
      cbn [app drop] in Heq. subst a.
      apply Forall_cons in Ha as [_ Ha]. f_equal.
      apply IH; [cbn in Hn; lia|reflexivity|assumption].
    + destruct (coerce_step_multibyte c tl Hc)
        as (o & k & Hco & _ & c' & o' & -> & Hc').
      rewrite Hco in Heq. subst a. cbn [app] in Ha.
      apply Forall_cons in Ha as [Hlow _]. lia.
Qed.

Lemma coerce_ascii_inv k a :
  coerce k = a -> Forall (fun c => Z_of_byte c < 0x80) a -> k = a.
Proof. apply coerce_loop_ascii_inv. apply Nat.le_refl. Qed.

Lemma ValidString_loop_coerce n :
  forall s : bytes,
    (length s <= n)%nat -> ValidString_loop n s = true -> coerce_loop n s = s.
Proof.
  induction n as [|n IH]; intros s Hn Hv.
  - destruct s; [reflexivity|cbn in Hn; lia].
  - destruct s as [|c tl]; [reflexivity|].
    cbn [ValidString_loop coerce_loop] in *. unfold coerce_step.
    destruct (DecodeRune (c :: tl)) as [r size] eqn:Hdec.
    destruct ((r =? RuneError) && (size =? 1)%nat) eqn:Herr; [discriminate|].
    assert (Hsize : (1 <= size)%nat).
    { destruct (Z.lt_ge_cases (Z_of_byte c) 0x80) as [Hc|Hc].
      - rewrite DecodeRune_ascii in Hdec by assumption.
        injection Hdec as _ <-. lia.
      - assert (Hok : ~ (r = RuneError /\ size = 1%nat)).
        { intros [-> ->]. cbn in Herr. discriminate. }
        destruct (DecodeRune_multibyte c tl r size Hc Hdec Hok)
          as (p & tl' & Hs & Hlen & Hsz & _). lia. }
    rewrite IH; [apply take_drop| |assumption].
    rewrite length_drop. cbn [length] in *. lia.
Qed.

Lemma ValidString_coerce v : ValidString v = true -> coerce v = v.
Proof. apply ValidString_loop_coerce. apply Nat.le_refl. Qed.

(** Reading the preface of a map back gives the coerced [dst]. *)
Lemma Unmarshal_Marshal_dst (g : gmap bytes bytes) (v : bytes) :
  g !! bs "dst" = Some v ->
  exists J body g',
    Marshal (Some g) = Ok J /\ J = "{"%char :: body ++ ["}"%char] /\
    no_nl J = true /\
    Unmarshal J = Ok (Some g') /\ g' !! bs "dst" = Some (coerce v).
Proof.
  intros Hv. destruct (Unmarshal_Marshal g) as [HM HU].
  set (sv := merge_sort key_le (map_to_list g)) in *.
  exists (bs "{" ++ members sv ++ bs "}"), (members sv), (foldl store ∅ sv).
  split; [exact HM|]. split; [reflexivity|]. split.
  - rewrite !no_nl_app, members_no_nl. reflexivity.
  - split; [exact HU|].
    assert (Hperm : sv ≡ₚ map_to_list g) by apply merge_sort_Permutation.
    change (bs "dst") with (coerce (bs "dst")) at 1.
    apply foldl_store_lookup.
    + rewrite Hperm. apply NoDup_fst_map_to_list.
    + rewrite Hperm. apply elem_of_map_to_list. assumption.
    + intros kv _ Hc. apply coerce_ascii_inv; [exact Hc|].
      repeat constructor.
Qed.

(** ** The stream preface *)

Import preface.

Lemma cut_no_nl line rest :
  no_nl line = true ->
  bufio.cut nl (line ++ nl :: rest) = Some (line ++ [nl], rest).
Proof.
  induction line as [|c line IH]; intros Hl.
  - reflexivity.
  - change (no_nl (c :: line)) with (negb (Z_of_byte c =? 10) && no_nl line) in Hl.
    apply andb_prop in Hl as [Hc Hl].
    cbn [app bufio.cut].
    rewrite bool_decide_eq_false_2.
    + rewrite IH by assumption. reflexivity.
    + intros ->. discriminate.
Qed.

Lemma cut_None s : no_nl s = true -> bufio.cut nl s = None.
Proof.
  induction s as [|c s IH]; intros Hl; [reflexivity|].
  change (no_nl (c :: s)) with (negb (Z_of_byte c =? 10) && no_nl s) in Hl.
  apply andb_prop in Hl as [Hc Hl].
  cbn [bufio.cut]. rewrite bool_decide_eq_false_2.
  - rewrite IH by assumption. reflexivity.
  - intros ->. discriminate.
Qed.

Lemma cut_length delim s line rest :
  bufio.cut delim s = Some (line, rest) -> (length rest < length s)%nat.
Proof.
  revert line. induction s as [|c s IH]; intros line; [discriminate|].
  cbn [bufio.cut]. destruct (bool_decide (c = delim)).
  - intros [= <- <-]. cbn. lia.
  - destruct (bufio.cut delim s) as [[l r]|]; [|discriminate].
    intros [= <- <-]. specialize (IH l eq_refl). cbn. lia.
Qed.

(** A JSON object followed by padding and the newline is trimmed to
    the object. *)
Lemma TrimSpace_stop_pad (pad r : bytes) c :
  Forall (fun x => strings.asciiSpace (Z_of_byte x) = true) pad ->
  Z_of_byte c < 0x80 -> strings.asciiSpace (Z_of_byte c) = false ->
  strings.TrimSpace_stop (pad ++ c :: r) = (false, c :: r).
Proof.
  intros Hpad Hc Hns. induction Hpad as [|x pad Hx _ IH].
  - cbn [app strings.TrimSpace_stop]. unfold RuneSelf.
    destruct (Z.leb_spec 0x80 (Z_of_byte c)); [lia|]. rewrite Hns. reflexivity.
  - cbn [app strings.TrimSpace_stop]. rewrite Hx.
    destruct (Z.leb_spec RuneSelf (Z_of_byte x)) as [Hhi|_]; [|exact IH].
    exfalso. unfold RuneSelf, strings.asciiSpace in *.
    revert Hx. zb; try discriminate.
Qed.

Lemma TrimSpace_start_brace X :
  strings.TrimSpace_start ("{"%char :: X) = (false, "{"%char :: X).
Proof. reflexivity. Qed.

Lemma TrimSpace_object (body pad : bytes) :
  Forall (fun x => strings.asciiSpace (Z_of_byte x) = true) pad ->
  strings.TrimSpace (("{"%char :: body ++ ["}"%char]) ++ pad)
  = "{"%char :: body ++ ["}"%char].
Proof.
  intros Hpad. unfold strings.TrimSpace.
  cbn [app]. rewrite TrimSpace_start_brace.
  replace (rev ("{"%char :: (body ++ ["}"%char]) ++ pad))
    with (rev pad ++ "}"%char :: rev body ++ ["{"%char]).
  2: { cbn [rev]. rewrite !rev_app_distr. cbn [rev app].
       rewrite <- !app_assoc. reflexivity. }
  rewrite TrimSpace_stop_pad; [| |reflexivity|reflexivity].
  - cbn [rev]. rewrite rev_app_distr, rev_involutive. reflexivity.
  - apply Forall_rev. assumption.
Qed.

Lemma TrimSpace_blank (ws : bytes) :
  Forall (fun x => strings.asciiSpace (Z_of_byte x) = true) ws ->
  strings.TrimSpace ws = [].
Proof.
  intros Hws. unfold strings.TrimSpace.
  assert (Hstart : strings.TrimSpace_start ws = (false, [])).
  { induction Hws as [|x ws Hx _ IH]; [reflexivity|].
    cbn [strings.TrimSpace_start]. rewrite Hx.
    destruct (Z.leb_spec RuneSelf (Z_of_byte x)) as [Hhi|_]; [|exact IH].
    exfalso. unfold RuneSelf, strings.asciiSpace in *.
    revert Hx. zb; try discriminate. }
  rewrite Hstart. reflexivity.
Qed.

Lemma blank_split ws :
  blank ws ->
  no_nl ws = true \/
  exists w1 w2, ws = w1 ++ nl :: w2 /\ no_nl w1 = true /\ blank w1 /\ blank w2.
Proof.
  induction 1 as [|x ws Hx Hws IH].
  - left. reflexivity.
  - destruct (Z.eqb_spec (Z_of_byte x) 10) as [Hnl|Hnl].
    + right. exists [], ws. split.
      * cbn [app]. f_equal. rewrite <- (byte_of_Z_of_byte x), Hnl. reflexivity.
      * split; [reflexivity|]. split; [constructor|exact Hws].
    + destruct IH as [IH|(w1 & w2 & -> & Hw1 & Hb1 & Hb2)].
      * left. change (no_nl (x :: ws)) with (negb (Z_of_byte x =? 10) && no_nl ws).
        rewrite IH. destruct (Z.eqb_spec (Z_of_byte x) 10); [contradiction|reflexivity].
      * right. exists (x :: w1), w2. split; [reflexivity|].
        split.
        -- change (no_nl (x :: w1)) with (negb (Z_of_byte x =? 10) && no_nl w1).
           rewrite Hw1. destruct (Z.eqb_spec (Z_of_byte x) 10); [contradiction|reflexivity].
        -- split; [constructor; assumption|exact Hb2].
Qed.

Lemma blank_nl : blank [nl].
Proof. repeat constructor. Qed.

Lemma blank_app a b : blank a -> blank b -> blank (a ++ b).
Proof. apply Forall_app_2. Qed.

(** One turn of the loop on a first line that is not blank. *)
Lemma readStreamDestination_loop_line fuel line rest e :
  no_nl line = true ->
  strings.TrimSpace (line ++ [nl]) <> [] ->
  readStreamDestination_loop (S fuel)
    {| bufio.data := line ++ nl :: rest; bufio.err := e |}
  = Some ({| bufio.data := rest; bufio.err := e |},
          match Unmarshal (strings.TrimSpace (line ++ [nl])) with
          | Err e' => Err e'
          | Ok pre => Ok (json.index pre (bs "dst"))
          end).
Proof.
  intros Hline Hne.
  cbn [readStreamDestination_loop]. unfold bufio.ReadString.
  cbn [bufio.data bufio.err]. fold nl. rewrite cut_no_nl by assumption.
  destruct (strings.TrimSpace (line ++ [nl])) as [|c t]; [contradiction|].
  destruct (Unmarshal (c :: t)); reflexivity.
Qed.

(** One turn of the loop on a blank first line. *)
Lemma readStreamDestination_loop_blank fuel line rest e :
  no_nl line = true -> blank line ->
  readStreamDestination_loop (S fuel)
    {| bufio.data := line ++ nl :: rest; bufio.err := e |}
  = readStreamDestination_loop fuel {| bufio.data := rest; bufio.err := e |}.
Proof.
  intros Hline Hb.
  cbn [readStreamDestination_loop]. unfold bufio.ReadString.
  cbn [bufio.data bufio.err]. fold nl. rewrite cut_no_nl by assumption.
  rewrite TrimSpace_blank; [reflexivity|].
  apply blank_app; [assumption|apply blank_nl].
Qed.

(** One turn of the loop when the input ends before a newline. *)
Lemma readStreamDestination_loop_eof fuel s e :
  no_nl s = true ->
  readStreamDestination_loop (S fuel) {| bufio.data := s; bufio.err := e |}
  = Some ({| bufio.data := []; bufio.err := e |}, Err e).
Proof.
  intros Hs.
  cbn [readStreamDestination_loop]. unfold bufio.ReadString.
  cbn [bufio.data bufio.err]. fold nl. rewrite cut_None by assumption.
  reflexivity.
Qed.

(** Blank lines before the input [tail] are skipped: the loop ends as
    it does on the last, unfinished, blank line followed by [tail]. *)
Lemma readStreamDestination_loop_skip (tail : bytes) e r :
  (forall w fuel, blank w -> no_nl w = true ->
     readStreamDestination_loop (S fuel)
       {| bufio.data := w ++ tail; bufio.err := e |} = Some r) ->
  forall fuel ws, blank ws -> (length ws < fuel)%nat ->
    readStreamDestination_loop fuel
      {| bufio.data := ws ++ tail; bufio.err := e |} = Some r.
Proof.
  intros Htail fuel. induction fuel as [|fuel IH]; intros ws Hws Hfuel; [lia|].
  destruct (blank_split ws Hws) as [Hno|(w1 & w2 & -> & Hw1 & Hb1 & Hb2)].
  - apply Htail; assumption.
  - rewrite <- app_assoc. cbn [app].
    rewrite readStreamDestination_loop_blank by assumption.
    apply IH; [assumption|]. rewrite length_app in Hfuel. cbn [length] in Hfuel. lia.
Qed.

Lemma TrimSpace_skip_blank (w x : bytes) :
  blank w -> strings.TrimSpace (w ++ x) = strings.TrimSpace x.
Proof.
  intros Hw. unfold strings.TrimSpace.
  replace (strings.TrimSpace_start (w ++ x)) with (strings.TrimSpace_start x);
    [reflexivity|].
  induction Hw as [|c w Hc _ IH]; [reflexivity|].
  cbn [app strings.TrimSpace_start]. rewrite Hc.
  destruct (Z.leb_spec RuneSelf (Z_of_byte c)) as [Hhi|_]; [|exact IH].
  exfalso. unfold RuneSelf, strings.asciiSpace in *.
  revert Hc. zb; try discriminate.
Qed.

(** The loop on the first line that is not blank, after blank lines:
    the line is decoded whatever its length. *)
Lemma readStreamDestination_loop_first_line (line rest : bytes) e :
  no_nl line = true ->
  strings.TrimSpace (line ++ [nl]) <> [] ->
  forall fuel ws, blank ws -> (length ws < fuel)%nat ->
    readStreamDestination_loop fuel
      {| bufio.data := ws ++ line ++ nl :: rest; bufio.err := e |}
    = Some ({| bufio.data := rest; bufio.err := e |},
            match Unmarshal (strings.TrimSpace (line ++ [nl])) with
            | Err e' => Err e'
            | Ok pre => Ok (json.index pre (bs "dst"))
            end).
Proof.
  intros Hline Hne.
  apply readStreamDestination_loop_skip. intros w fuel Hw Hwnl.
  assert (Htrim : strings.TrimSpace ((w ++ line) ++ [nl])
                  = strings.TrimSpace (line ++ [nl])).
  { rewrite <- app_assoc. apply TrimSpace_skip_blank. assumption. }
  rewrite app_assoc.
  rewrite readStreamDestination_loop_line.
  - rewrite Htrim. reflexivity.
  - rewrite no_nl_app, Hwnl, Hline. reflexivity.
  - rewrite Htrim. assumption.
Qed.

(** The loop on an object line, after blank lines and before blanks. *)
Lemma readStreamDestination_loop_object (body pad rest : bytes) e :
  let J := "{"%char :: body ++ ["}"%char] in
  no_nl J = true -> blank pad -> no_nl pad = true ->
  forall fuel ws, blank ws -> (length ws < fuel)%nat ->
    readStreamDestination_loop fuel
      {| bufio.data := ws ++ J ++ pad ++ nl :: rest; bufio.err := e |}
    = Some ({| bufio.data := rest; bufio.err := e |},
            match Unmarshal J with
            | Err e' => Err e'
            | Ok pre => Ok (json.index pre (bs "dst"))
            end).
Proof.
  intros J HJ Hpad Hpadnl fuel ws Hws Hfuel.
  assert (Htrim : strings.TrimSpace ((J ++ pad) ++ [nl]) = J).
  { rewrite <- app_assoc. apply TrimSpace_object.
    apply blank_app; [assumption|apply blank_nl]. }
  replace (ws ++ J ++ pad ++ nl :: rest) with (ws ++ (J ++ pad) ++ nl :: rest)
    by (rewrite <- !app_assoc; reflexivity).
  rewrite readStreamDestination_loop_first_line; try assumption.
  - rewrite Htrim. reflexivity.
  - rewrite no_nl_app, HJ, Hpadnl. reflexivity.
  - rewrite Htrim. discriminate.
Qed.

(** The loop when the input ends, after blank lines, before a newline. *)
Lemma readStreamDestination_loop_unfinished (s : bytes) e :
  no_nl s = true ->
  forall fuel ws, blank ws -> (length ws < fuel)%nat ->
    readStreamDestination_loop fuel
      {| bufio.data := ws ++ s; bufio.err := e |}
    = Some ({| bufio.data := []; bufio.err := e |}, Err e).
Proof.
  intros Hs. apply readStreamDestination_loop_skip. intros w fuel Hw Hwnl.
  apply readStreamDestination_loop_eof. rewrite no_nl_app, Hwnl, Hs. reflexivity.
Qed.

Lemma encodePreface_Marshal fields J :
  Marshal fields = Ok J -> encodePreface fields = Ok (J ++ [nl]).
Proof. intros H. unfold encodePreface. rewrite H. reflexivity. Qed.

(** C3 (amended).  For every string map [g] that holds the key "dst",
    [encodePreface] succeeds, and [readStreamDestination], applied to
    the bytes it produced (also after blank lines, that is lines of
    ASCII white space, and before the bytes [rest] of the stream),
    returns the value of "dst" with each byte that is not part of valid
    UTF-8 replaced by U+FFFD, leaving [rest] in the reader; that is the
    value of "dst" itself when it is valid UTF-8.  When the input ends,
    after blank lines, before a newline, the call fails with the
    reader's error ([io.EOF] at the end of a stream). *)
Theorem preface_roundtrip (g : gmap bytes bytes) (v ws rest s : bytes)
    (e : error) :
  g !! bs "dst" = Some v -> blank ws -> no_nl s = true ->
  (exists P,
     encodePreface (Some g) = Ok P /\
     readStreamDestination (bufio.NewReader (ws ++ P ++ rest))
     = Some ({| bufio.data := rest; bufio.err := EOF |}, Ok (coerce v))) /\
  (ValidString v = true -> coerce v = v) /\
  readStreamDestination {| bufio.data := ws ++ s; bufio.err := e |}
  = Some ({| bufio.data := []; bufio.err := e |}, Err e).
Proof.
  intros Hv Hws Hs. split; [|split].
  - destruct (Unmarshal_Marshal_dst g v Hv)
      as (J & body & g' & HM & HJ & Hnl & HU & Hdst).
    exists (J ++ [nl]). split; [apply encodePreface_Marshal; exact HM|].
    unfold readStreamDestination, bufio.NewReader. cbn [bufio.data].
    subst J.
    pose proof (readStreamDestination_loop_object body [] rest EOF Hnl
                  (List.Forall_nil _) eq_refl) as Hloop.
    cbn zeta in Hloop. cbn [app] in Hloop.
    rewrite <- app_assoc. cbn [app].
    rewrite Hloop; [|assumption|rewrite length_app; lia].
    rewrite HU. do 3 f_equal. exact (f_equal (default []) Hdst).
  - apply ValidString_coerce.
  - unfold readStreamDestination. cbn [bufio.data].
    apply readStreamDestination_loop_unfinished; [assumption|assumption|].
    rewrite length_app. lia.
Qed.

Lemma preface_roundtrip_witness :
  (exists P,
     encodePreface (Some demo_preface) = Ok P /\
     readStreamDestination
       (bufio.NewReader ((bs " " ++ [nl; nl]) ++ P ++ bs "hello"))
     = Some ({| bufio.data := bs "hello"; bufio.err := EOF |},
             Ok (coerce (bs "127.0.0.1:8080")))) /\
  (ValidString (bs "127.0.0.1:8080") = true ->
   coerce (bs "127.0.0.1:8080") = bs "127.0.0.1:8080") /\
  readStreamDestination
    {| bufio.data := (bs " " ++ [nl; nl]) ++ bs "{"; bufio.err := EOF |}
  = Some ({| bufio.data := []; bufio.err := EOF |}, Err EOF).
Proof.
  apply (preface_roundtrip demo_preface (bs "127.0.0.1:8080")
           (bs " " ++ [nl; nl]) (bs "hello") (bs "{") EOF).
  - reflexivity.
  - repeat constructor.
  - reflexivity.
Defined.

(** The round trip as first stated, for every string map, fails: a
    destination that is the single byte FF (not valid UTF-8) is written
    as the escape of U+FFFD and comes back as the three bytes EF BF BD. *)
Lemma preface_roundtrip_invalid_utf8 :
  let M : gmap bytes bytes := {[ bs "dst" := [byte_of_Z 255] ]} in
  exists P dst,
    encodePreface (Some M) = Ok P /\
    readStreamDestination (bufio.NewReader P)
    = Some ({| bufio.data := []; bufio.err := EOF |}, Ok dst) /\
    dst = [byte_of_Z 239; byte_of_Z 191; byte_of_Z 189] /\
    M !! bs "dst" = Some [byte_of_Z 255] /\
    dst <> [byte_of_Z 255].
Proof.
  do 2 eexists. split; [vm_compute; reflexivity|].
  split; [vm_compute; reflexivity|].
  split; [reflexivity|]. split; [reflexivity|]. discriminate.
Qed.

(** C9 (amended).  [readStreamDestination] has no cap on the size of
    the preface.  The first line that is not blank, whatever its length,
    is trimmed and decoded: the call returns the "dst" member of the
    object that the line holds, and fails only where [json.Unmarshal]
    fails on the trimmed line. *)
Theorem preface_has_no_size_cap (ws line rest : bytes) (e : error) :
  blank ws -> no_nl line = true ->
  strings.TrimSpace (line ++ [nl]) <> [] ->
  readStreamDestination
    {| bufio.data := ws ++ line ++ nl :: rest; bufio.err := e |}
  = Some ({| bufio.data := rest; bufio.err := e |},
          match Unmarshal (strings.TrimSpace (line ++ [nl])) with
          | Err e' => Err e'
          | Ok pre => Ok (json.index pre (bs "dst"))
          end).
Proof.
  intros Hws Hline Hne. unfold readStreamDestination. cbn [bufio.data].
  apply readStreamDestination_loop_first_line; try assumption.
  rewrite length_app. lia.
Qed.

Lemma preface_has_no_size_cap_witness :
  readStreamDestination
    {| bufio.data := [nl] ++ demo_line ++ nl :: bs "hello"; bufio.err := EOF |}
  = Some ({| bufio.data := bs "hello"; bufio.err := EOF |},
          match Unmarshal (strings.TrimSpace (demo_line ++ [nl])) with
          | Err e' => Err e'
          | Ok pre => Ok (json.index pre (bs "dst"))
          end).
Proof.
  apply (preface_has_no_size_cap [nl] demo_line (bs "hello") EOF).
  - repeat constructor.
  - reflexivity.
  - vm_compute. discriminate.
Defined.

Lemma coerce_loop_ascii n :
  forall s : bytes,
    Forall (fun c => Z_of_byte c < 0x80) s -> (length s <= n)%nat ->
    coerce_loop n s = s.
Proof.
  induction n as [|n IH]; intros s Hs Hn.
  - destruct s; [reflexivity|cbn in Hn; lia].
  - destruct s as [|c tl]; [reflexivity|].
    inversion Hs as [|? ? Hc Htl]; subst.
    cbn [coerce_loop]. rewrite coerce_step_ascii by assumption.
    cbn [drop app]. rewrite drop_0.
    rewrite IH; [reflexivity|assumption|cbn in Hn; lia].
Qed.

Lemma coerce_ascii (s : bytes) :
  Forall (fun c => Z_of_byte c < 0x80) s -> coerce s = s.
Proof. intros Hs. apply coerce_loop_ascii; [assumption|apply Nat.le_refl]. Qed.

Lemma members_value_length sv kv :
  kv ∈ sv -> (length kv.2 <= length (members sv))%nat.
Proof.
  induction sv as [|kv' sv IH]; intros Hin; [inversion Hin|].
  assert (Hm : (length kv'.2 <= length (member kv'))%nat).
  { unfold member, appendString.
    repeat (rewrite !length_app; cbn [length]).
    pose proof (appendString_loop_length (length kv'.2) kv'.2 (Nat.le_refl _)).
    lia. }
  rewrite members_cons.
  apply elem_of_cons in Hin as [->|Hin].
  - rewrite length_app. etransitivity; [exact Hm|apply Nat.le_add_r].
  - specialize (IH Hin). rewrite length_app.
    etransitivity; [exact IH|]. destruct sv as [|kv'' sv']; [inversion Hin|].
    rewrite length_app. lia.
Qed.

(** The preface of a map is longer than its destination, its only
    newline is its last byte, and it is decoded whatever its length. *)
Lemma encodePreface_any_length (g : gmap bytes bytes) (v : bytes) :
  g !! bs "dst" = Some v ->
  exists P,
    encodePreface (Some g) = Ok P /\
    (length v < length P)%nat /\
    bufio.cut nl P = Some (P, []) /\
    readStreamDestination (bufio.NewReader P)
    = Some ({| bufio.data := []; bufio.err := EOF |}, Ok (coerce v)).
Proof.
  intros Hv.
  destruct (Unmarshal_Marshal_dst g v Hv)
    as (J & body & g' & HM & HJ & Hnl & HU & Hdst).
  exists (J ++ [nl]). split; [apply encodePreface_Marshal; exact HM|].
  split; [|split].
  - destruct (Unmarshal_Marshal g) as [HM' _]. rewrite HM in HM'.
    injection HM' as ->.
    assert (Hin : (bs "dst", v) ∈ merge_sort key_le (map_to_list g)).
    { rewrite merge_sort_Permutation. apply elem_of_map_to_list. assumption. }
    apply members_value_length in Hin.
    eapply Nat.le_lt_trans; [exact Hin|].
    repeat (rewrite !length_app; cbn [length]).
    set (n := length (members _)). lia.
  - apply (cut_no_nl J [] Hnl).
  - unfold readStreamDestination, bufio.NewReader. cbn [bufio.data].
    subst J.
    pose proof (readStreamDestination_loop_object body [] [] EOF Hnl
                  (List.Forall_nil _) eq_refl) as Hloop.
    cbn zeta in Hloop. cbn [app] in Hloop.
    rewrite (Hloop _ []); [|constructor|cbn [length]; lia].
    rewrite HU. do 3 f_equal. exact (f_equal (default []) Hdst).
Qed.

(** The claim as first stated fails: the preface of a destination of
    70000 bytes is longer than 64 KiB, its only newline is its last
    byte, and [readStreamDestination] returns the destination. *)
Lemma oversized_preface_decoded :
  let v : bytes := List.repeat "a"%char (70 * 1000) in
  let M : gmap bytes bytes := {[ bs "dst" := v ]} in
  exists P,
    encodePreface (Some M) = Ok P /\
    (64 * 1024 < length P)%nat /\
    bufio.cut nl P = Some (P, []) /\
    readStreamDestination (bufio.NewReader P)
    = Some ({| bufio.data := []; bufio.err := EOF |}, Ok v).
Proof.
  intros v M.
  destruct (encodePreface_any_length M v) as (P & HP & Hlen & Hcut & Hread).
  { apply lookup_singleton_eq. }
  exists P. split; [exact HP|]. split; [|split; [exact Hcut|]].
  - unfold v in Hlen. rewrite repeat_length in Hlen. lia.
  - rewrite Hread, coerce_ascii; [reflexivity|].
    apply List.Forall_forall. intros c Hc. unfold v in Hc.
    apply repeat_spec in Hc. subst c.
    reflexivity.
Qed.

(** * Further properties of the code *)

Import utf8 utils support.

(** ** Package support: conversions, ports, benign errors, secrets *)

(** X1.  [ToUint16Size] and [ToUint32Size] succeed exactly on the
    values of their type, 0..65535 and 0..4294967295, and then return
    the value unchanged; every other [int] is an error. *)
Theorem ToUintSize_range (n v : Z) :
  (ToUint16Size n = Ok v <-> 0 <= n <= 65535 /\ v = n) /\
  (ToUint32Size n = Ok v <-> 0 <= n <= 4294967295 /\ v = n).
Proof.
  unfold ToUint16Size, ToUint32Size, toUintSize, MaxUint16, MaxUint32, MaxInt.
  split.
  - destruct (Z.ltb_spec n 0); [split; [discriminate|lia]|].
    cbn [Z.leb Z.compare Z.pow Z.sub]. 
    destruct (65535 <=? 2 ^ 63 - 1) eqn:E; [|discriminate E].
    destruct (Z.gtb_spec n 65535); [split; [discriminate|lia]|].
    rewrite Z.mod_small by lia.
    split; [intros [= <-]; lia|intros [_ ->]; reflexivity].
  - destruct (Z.ltb_spec n 0); [split; [discriminate|lia]|].
    destruct (4294967295 <=? 2 ^ 63 - 1) eqn:E; [|discriminate E].
    destruct (Z.gtb_spec n 4294967295); [split; [discriminate|lia]|].
    rewrite Z.mod_small by lia.
    split; [intros [= <-]; lia|intros [_ ->]; reflexivity].
Qed.

Lemma Contains_app_l (p s x : bytes) :
  Contains s x = true -> Contains (p ++ s) x = true.
Proof.
  intros Hs. induction p as [|c p IH]; [exact Hs|].
  cbn [app Contains]. rewrite IH. apply orb_true_r.
Qed.

(** X4.  [IsBenignCopyError] is kept by wrapping: an error it takes as
    benign stays benign under every [fmt.Errorf("...%w", err)] around
    it, and so does every error that wraps [io.EOF],
    [io.ErrUnexpectedEOF] or [net.ErrClosed] at any depth. *)
Theorem IsBenignCopyError_wrap (e : error) (prefix : bytes) :
  (IsBenignCopyError (Some e) = true ->
   IsBenignCopyError (Some (wrapError prefix e)) = true) /\
  (errors_Is e EOF = true \/ errors_Is e ErrUnexpectedEOF = true
   \/ errors_Is e ErrNetClosed = true ->
   IsBenignCopyError (Some e) = true).
Proof.
  split.
  - unfold IsBenignCopyError. cbn [errors_Is Error].
    rewrite !bool_decide_eq_false_2 by discriminate. cbn [orb].
    destruct (errors_Is e EOF || errors_Is e ErrUnexpectedEOF
              || errors_Is e ErrNetClosed); [reflexivity|].
    intros H.
    destruct (Contains (Error e) (bs "use of closed network connection")) eqn:H1;
      [rewrite (Contains_app_l prefix _ _ H1); reflexivity|].
    destruct (Contains (Error e) (bs "broken pipe")) eqn:H2;
      [rewrite (Contains_app_l prefix _ _ H2), !orb_true_r; reflexivity|].
    destruct (Contains (Error e) (bs "connection reset by peer")) eqn:H3;
      [rewrite (Contains_app_l prefix _ _ H3), !orb_true_r; reflexivity|].
    destruct (Contains (Error e) (bs "stream closed")) eqn:H4;
      [rewrite (Contains_app_l prefix _ _ H4), !orb_true_r; reflexivity|].
    destruct (Contains (Error e) (bs "EOF")) eqn:H5;
      [rewrite (Contains_app_l prefix _ _ H5), !orb_true_r; reflexivity|].
    discriminate H.
  - intros H. unfold IsBenignCopyError.
    destruct H as [ H | [ H | H ] ]; rewrite H, ?orb_true_r; reflexivity.
Qed.

Lemma IsBenignCopyError_wrap_witness :
  IsBenignCopyError
    (Some (wrapError (bs "read echo: ") (errorString (bs "write: broken pipe"))))
  = true.
Proof.
  apply (proj1 (IsBenignCopyError_wrap (errorString (bs "write: broken pipe"))
                  (bs "read echo: "))).
  reflexivity.
Defined.

Lemma hasPrefix_nil (s : bytes) : hasPrefix s [] = true.
Proof. destruct s; reflexivity. Qed.

Lemma digit_ascii c : digit c -> Z_of_byte c < 0x80.
Proof. unfold digit. lia. Qed.

(** The loop of [ParsePort] runs to the end exactly on strings of
    digits. *)
Lemma ParsePort_loop_digits fuel :
  forall s : bytes, (length s <= fuel)%nat ->
    (ParsePort_loop fuel s = true <-> Forall digit s).
Proof.
  induction fuel as [|fuel IH]; intros s Hlen.
  - destruct s; [|cbn in Hlen; lia]. split; [constructor|reflexivity].
  - destruct s as [|c s]; [split; [constructor|reflexivity]|].
    cbn [ParsePort_loop].
    destruct (Z.lt_ge_cases (Z_of_byte c) 0x80) as [Hc|Hc].
    + rewrite DecodeRune_ascii by assumption.
      cbn [drop]. rewrite drop_0.
      destruct (Z.ltb_spec (Z_of_byte c) 48); cbn [orb].
      * split; [discriminate|]. intros H'. inversion H' as [|? ? Hd _]; subst.
        unfold digit in Hd. lia.
      * destruct (Z.ltb_spec 57 (Z_of_byte c)).
        -- split; [discriminate|]. intros H'. inversion H' as [|? ? Hd _]; subst.
           unfold digit in Hd. lia.
        -- rewrite IH by (cbn in Hlen; lia).
           split; [intros Hs; constructor; [unfold digit; lia|exact Hs]
                  |intros H'; inversion H'; assumption].
    + assert (Hnd : ~ Forall digit (c :: s)).
      { intros H'. inversion H' as [|? ? Hd _]; subst. unfold digit in Hd. lia. }
      destruct (DecodeRune (c :: s)) as [ch size] eqn:Hdec.
      assert (Hch : 57 < ch).
      { destruct (Z.eq_dec ch RuneError) as [->|Hne]; [unfold RuneError; lia|].
        destruct (DecodeRune_multibyte c s ch size Hc Hdec)
          as (p & tl & Hs & Hlenp & Hsize & Henc & Hall & _).
        { intros [? _]. contradiction. }
        destruct (Z.le_gt_cases ch 57) as [Hle|Hgt]; [|exact Hgt].
        exfalso.
        destruct (Z.lt_ge_cases ch 0) as [Hneg|Hpos].
        - (* a decoded rune is not negative *)
          destruct (DecodeRune_inv c s ch size Hc Hdec)
            as [[-> _]|[H2|[H3|H4]]]; [unfold RuneError in Hneg; lia| | |].
          + destruct H2 as (c1 & t & -> & -> & Hr0 & Hr1).
            rewrite DecodeRune_2_ok in Hdec by (unfold cont in *; lia).
            injection Hdec as <-. unfold cont in *. lia.
          + destruct H3 as (c1 & c2 & t & -> & -> & Hr0 & Hr1 & Ha & Hb & Hr2).
            rewrite DecodeRune_3_ok in Hdec by (unfold cont in *; lia || assumption).
            injection Hdec as <-. unfold cont in *. lia.
          + destruct H4 as (c1 & c2 & c3 & t & -> & -> & Hr0 & Hr1 & Ha & Hb & Hr2 & Hr3).
            rewrite DecodeRune_4_ok in Hdec by (unfold cont in *; lia || assumption).
            injection Hdec as <-. unfold cont in *. lia.
        - rewrite EncodeRune_1 in Henc by lia. subst p.
          cbn in Hlenp. lia. }
      destruct (Z.ltb_spec ch 48); [lia|]. cbn [orb].
      destruct (Z.ltb_spec 57 ch); [|lia].
      split; [discriminate|]. intros H'. contradiction.
Qed.

Lemma digits_no_colon (d : bytes) : Forall digit d -> ":"%char ∉ d.
Proof.
  intros Hd Hin. rewrite Forall_forall in Hd. apply Hd in Hin.
  unfold digit in Hin. vm_compute in Hin. destruct Hin as [_ H]. apply H. reflexivity.
Qed.

(** X2.  [ParsePort] returns a port exactly for a string of digits, with
    or without one colon before it, and then returns the digits; on
    every other input it returns the empty string. *)
Theorem ParsePort_spec (s d : bytes) :
  d <> [] ->
  (ParsePort s = d <-> Forall digit d /\ (s = d \/ s = ":"%char :: d)).
Proof.
  intros Hd. split.
  - intros HP. destruct s as [|c s]; [cbn in HP; congruence|].
    unfold ParsePort in HP.
    destruct (ParsePort_loop _ _) eqn:Hloop; [|congruence].
    apply ParsePort_loop_digits in Hloop; [|apply Nat.le_refl].
    rewrite HP in Hloop. split; [exact Hloop|].
    unfold TrimPrefix in HP. cbn [hasPrefix bs list_ascii_of_string] in HP.
    destruct (bool_decide (":"%char = c)) eqn:Hc.
    + apply bool_decide_eq_true in Hc. subst c. right.
      cbn [andb length drop] in HP. rewrite hasPrefix_nil, drop_0 in HP.
      subst s. reflexivity.
    + left. cbn [andb] in HP. exact HP.
  - intros [Hdig [->| ->]].
    + destruct d as [|c d]; [congruence|].
      unfold ParsePort, TrimPrefix. cbn [hasPrefix bs list_ascii_of_string].
      rewrite bool_decide_eq_false_2.
      * cbn [andb].
        rewrite (proj2 (ParsePort_loop_digits _ _ (Nat.le_refl _)) Hdig).
        reflexivity.
      * intros <-. apply (digits_no_colon _ Hdig). left.
    + unfold ParsePort, TrimPrefix. cbn [hasPrefix bs list_ascii_of_string].
      rewrite bool_decide_eq_true_2 by reflexivity.
      cbn [andb length drop]. rewrite hasPrefix_nil, drop_0.
      rewrite (proj2 (ParsePort_loop_digits _ _ (Nat.le_refl _)) Hdig).
      reflexivity.
Qed.

Lemma ParsePort_spec_witness :
  ParsePort (bs ":9000") = bs "9000".
Proof.
  apply (proj2 (ParsePort_spec (bs ":9000") (bs "9000") ltac:(discriminate))).
  split; [|right; reflexivity].
  repeat constructor; vm_compute; discriminate.
Defined.

(** The scan of [strings.LastIndex]: the index of the last [c]. *)
Lemma LastIndexByte_loop_found (r : bytes) (c : ascii) (i : Z) :
  LastIndexByte_loop r c = i -> 0 <= i ->
  exists post pre,
    r = post ++ c :: pre /\ (c ∉ post) /\ i = len pre.
Proof.
  revert i. induction r as [|x r IH]; intros i Hi Hpos.
  - cbn in Hi. lia.
  - cbn [LastIndexByte_loop] in Hi.
    destruct (bool_decide (x = c)) eqn:Hx.
    + apply bool_decide_eq_true in Hx. subst x.
      exists [], r. split; [reflexivity|]. split; [apply not_elem_of_nil|].
      symmetry. exact Hi.
    + apply bool_decide_eq_false in Hx.
      destruct (IH i Hi Hpos) as (post & pre & -> & Hnot & Hlen).
      exists (x :: post), pre. split; [reflexivity|]. split; [|exact Hlen].
      intros Hin. apply elem_of_cons in Hin as [->|Hin]; [congruence|contradiction].
Qed.

Lemma LastIndexByte_loop_last (post pre : bytes) (c : ascii) :
  c ∉ post -> LastIndexByte_loop (post ++ c :: pre) c = len pre.
Proof.
  induction post as [|x post IH]; intros Hnot.
  - cbn [app LastIndexByte_loop]. rewrite bool_decide_eq_true_2; reflexivity.
  - cbn [app LastIndexByte_loop].
    rewrite bool_decide_eq_false_2.
    + apply IH. intros Hin. apply Hnot. right. exact Hin.
    + intros ->. apply Hnot. left.
Qed.

Lemma LastIndexByte_found (s : bytes) (c : ascii) (i : Z) :
  LastIndexByte s c = i -> 0 <= i ->
  exists pre post,
    s = pre ++ c :: post /\ (c ∉ post) /\ i = len pre.
Proof.
  intros Hi Hpos.
  destruct (LastIndexByte_loop_found (rev s) c i Hi Hpos)
    as (post & pre & Hr & Hnot & Hlen).
  exists (rev pre), (rev post).
  split; [|split].
  - rewrite <- (rev_involutive s), Hr, rev_app_distr. cbn [rev].
    rewrite <- app_assoc. reflexivity.
  - intros Hin. apply Hnot. apply list_elem_of_In, in_rev, list_elem_of_In. exact Hin.
  - unfold len in *. rewrite length_rev. exact Hlen.
Qed.

Lemma LastIndexByte_last (pre post : bytes) (c : ascii) :
  c ∉ post -> LastIndexByte (pre ++ c :: post) c = len pre.
Proof.
  intros Hnot. unfold LastIndexByte.
  rewrite rev_app_distr. cbn [rev]. rewrite <- app_assoc. cbn [app].
  rewrite LastIndexByte_loop_last.
  - unfold len. rewrite length_rev. reflexivity.
  - intros Hin. apply Hnot. apply list_elem_of_In, in_rev, list_elem_of_In.
    exact Hin.
Qed.

(** X3.  [LooksLikeHostPort] holds exactly for the strings
    [host ++ ":" ++ port] with a host that is not empty and a port that
    is a string of one digit or more; the host may hold colons
    itself. *)
Theorem LooksLikeHostPort_spec (s : bytes) :
  LooksLikeHostPort s = true <->
  exists host port,
    s = host ++ ":"%char :: port /\ host <> [] /\ port <> [] /\
    Forall digit port.
Proof.
  unfold LooksLikeHostPort. split.
  - destruct (Z.leb_spec (LastIndexByte s ":"%char) 0) as [|Hi]; [discriminate|].
    destruct (LastIndexByte_found s ":"%char _ eq_refl ltac:(lia))
      as (pre & post & Hs & Hnot & Hlen).
    rewrite Hlen in Hi |- *. clear Hlen. subst s. unfold len in *.
    replace (Z.to_nat (Z.of_nat (length pre) + 1)) with (length pre + 1)%nat by lia.
    rewrite Nat2Z.id, take_app_length, drop_app_add.
    cbn [drop]. rewrite drop_0.
    destruct (bool_decide (pre = [])); [discriminate|].
    destruct (bool_decide (post = [])) eqn:Hpost; [discriminate|].
    apply bool_decide_eq_false in Hpost. cbn [orb].
    intros HP. apply negb_true_iff, bool_decide_eq_false in HP.
    exists pre, post. split; [reflexivity|].
    split; [intros ->; cbn in Hi; lia|]. split; [exact Hpost|].
    destruct (proj1 (ParsePort_spec post (ParsePort post) HP) eq_refl)
      as [Hdig [Heq|Heq]].
    + rewrite Heq. exact Hdig.
    + exfalso. apply Hnot. rewrite Heq. left.
  - intros (host & port & -> & Hh & Hp & Hdig).
    rewrite LastIndexByte_last by (apply digits_no_colon; exact Hdig).
    unfold len.
    destruct (Z.leb_spec (Z.of_nat (length host)) 0) as [H0|_].
    { destruct host; [congruence|cbn in H0; lia]. }
    replace (Z.to_nat (Z.of_nat (length host) + 1)) with (length host + 1)%nat by lia.
    rewrite Nat2Z.id, take_app_length, drop_app_add.
    cbn [drop]. rewrite drop_0.
    rewrite (bool_decide_eq_false_2 (host = [])) by exact Hh.
    rewrite (bool_decide_eq_false_2 (port = [])) by exact Hp.
    cbn [orb].
    rewrite (proj2 (ParsePort_spec port port Hp)) by (split; [exact Hdig|left; reflexivity]).
    rewrite bool_decide_eq_false_2 by exact Hp. reflexivity.
Qed.

(** [strings.TrimSpace] returns a part of its argument. *)
Lemma TrimSpace_start_length (s : bytes) :
  (length (strings.TrimSpace_start s).2 <= length s)%nat.
Proof.
  induction s as [|c s IH]; [reflexivity|].
  cbn [strings.TrimSpace_start].
  destruct (RuneSelf <=? Z_of_byte c); [reflexivity|].
  destruct (strings.asciiSpace (Z_of_byte c)); [cbn [length]; lia|reflexivity].
Qed.

Lemma TrimSpace_stop_length (s : bytes) :
  (length (strings.TrimSpace_stop s).2 <= length s)%nat.
Proof.
  induction s as [|c s IH]; [reflexivity|].
  cbn [strings.TrimSpace_stop].
  destruct (RuneSelf <=? Z_of_byte c); [reflexivity|].
  destruct (strings.asciiSpace (Z_of_byte c)); [cbn [length]; lia|reflexivity].
Qed.

Lemma TrimLeftFunc_loop_length fuel :
  forall s : bytes, (length (strings.TrimLeftFunc_loop fuel s) <= length s)%nat.
Proof.
  induction fuel as [|fuel IH]; intros s.
  - destruct s; reflexivity.
  - destruct s as [|c s]; [reflexivity|].
    cbn [strings.TrimLeftFunc_loop].
    destruct (DecodeRune (c :: s)) as [r wid].
    destruct (IsSpace r); [|reflexivity].
    etransitivity; [apply IH|]. rewrite length_drop. lia.
Qed.

Lemma TrimRightFunc_length (s : bytes) :
  (length (strings.TrimRightFunc s) <= length s)%nat.
Proof.
  unfold strings.TrimRightFunc.
  destruct (_ && _).
  - destruct (DecodeRune _) as [r wid]. rewrite length_take. lia.
  - rewrite length_take. lia.
Qed.

Lemma TrimSpace_length (s : bytes) :
  (length (strings.TrimSpace s) <= length s)%nat.
Proof.
  unfold strings.TrimSpace.
  pose proof (TrimSpace_start_length s) as H1.
  destruct (strings.TrimSpace_start s) as [[] s']; cbn [snd] in H1.
  - etransitivity; [apply TrimRightFunc_length|].
    etransitivity; [apply TrimLeftFunc_loop_length|exact H1].
  - pose proof (TrimSpace_stop_length (rev s')) as H2.
    destruct (strings.TrimSpace_stop (rev s')) as [[] r]; cbn [snd] in H2;
      rewrite length_rev in H2.
    + etransitivity; [apply TrimRightFunc_length|]. rewrite length_rev. lia.
    + rewrite length_rev. lia.
Qed.

(** X5.  A secret that [ReadSecretStdin] accepts is the input with the
    white space around it trimmed; it is not empty and has at most
    64 KiB, and [ReadSecretFile] accepts a file of the same bytes with
    the same secret. *)
Theorem ReadSecretStdin_accepts (label input secret : bytes) :
  ReadSecretStdin label (Ok input) = Ok secret ->
  secret = strings.TrimSpace input /\ secret <> [] /\
  len secret <= 64 * 1024 /\
  ReadSecretFile (Ok input) = Ok secret.
Proof.
  unfold ReadSecretStdin, ReadSecretFile, maxSecretSize, len.
  change (Z.to_nat (64 * 1024 + 1)) with (64 * 1024 + 1)%nat.
  destruct (Z.gtb_spec (Z.of_nat (length (take (64 * 1024 + 1) input))) (64 * 1024))
    as [|Hlen]; [discriminate|].
  rewrite length_take in Hlen.
  assert (Hin : (length input <= 64 * 1024)%nat) by lia.
  rewrite take_ge by lia.
  pose proof (TrimSpace_length input) as Htrim.
  destruct (bool_decide (strings.TrimSpace input = [])) eqn:He; [discriminate|].
  apply bool_decide_eq_false in He.
  intros [= <-]. split; [reflexivity|]. split; [exact He|].
  split; [lia|].
  destruct (Z.gtb_spec (Z.of_nat (length (strings.TrimSpace input))) (64 * 1024));
    [lia|reflexivity].
Qed.

Lemma ReadSecretStdin_accepts_witness :
  bs "s3cret" = strings.TrimSpace (bs " s3cret  ") /\ bs "s3cret" <> [] /\
  len (bs "s3cret") <= 64 * 1024 /\
  ReadSecretFile (Ok (bs " s3cret  ")) = Ok (bs "s3cret").
Proof.
  apply (ReadSecretStdin_accepts (bs "psk") (bs " s3cret  ") (bs "s3cret")).
  vm_compute. reflexivity.
Defined.

Import binary support io udp.

(** ** UDP frames: streams of frames, truncation, the forwarders *)

(** [io.ReadFull] on a mock that holds fewer bytes than asked for. *)
Lemma mock_ReadFull_short (m : mockReadWriteCloser) (n : nat) :
  readErr m = None -> (length (readData m) < n)%nat ->
  ReadFull m n
  = Some (with_readData m [],
          Err (match readData m with [] => EOF | _ => ErrUnexpectedEOF end)).
Proof.
  intros Hr Hlen. unfold ReadFull.
  destruct n as [|n]; [lia|].
  cbn [ReadAtLeast_loop].
  destruct (Nat.ltb_spec (length (@nil ascii)) (S n)) as [_|Hbad];
    [|cbn in Hbad; lia].
  cbn [Read mock_rwc]. unfold mock_Read at 1. rewrite Hr.
  destruct (readData m) as [|c d] eqn:Hd.
  - cbn [app].
    destruct (Nat.leb_spec (S n) (length (@nil ascii))) as [Hbad|_];
      [cbn in Hbad; lia|].
    rewrite bool_decide_eq_true_2 by reflexivity.
    replace (with_readData m []) with m
      by (rewrite <- Hd; symmetry; apply with_readData_id).
    reflexivity.
  - cbn [length]. rewrite Nat.sub_0_r, take_ge, drop_ge by lia.
    cbn [app].
    destruct n as [|n]; [cbn in Hlen; lia|].
    cbn [ReadAtLeast_loop].
    destruct (Nat.ltb_spec (length (c :: d)) (S (S n))) as [_|]; [|lia].
    cbn [Read mock_rwc]. unfold mock_Read. cbn [readErr readData with_readData].
    rewrite Hr. rewrite app_nil_r.
    rewrite bool_decide_eq_true_2 by reflexivity.
    destruct (Nat.leb_spec (S (S n)) (length (c :: d))); [lia|].
    reflexivity.
Qed.

(** X7.  A frame cut short is never delivered: on a stream that ends
    inside a frame [readUDPPacket] returns no payload and an error,
    [io.ErrUnexpectedEOF] when the stream ends inside the header or
    inside the payload, plain [io.EOF] when it ends before the frame
    or between the header and a payload. *)
Theorem readUDPPacket_truncated (P : bytes) (k : nat) :
  1 <= len P <= 65535 -> (k < 2 + length P)%nat ->
  readUDPPacket (mock_of (take k (PutUint16 (len P) ++ P)))
  = Some (mock_of [],
          Err (if (k =? 0)%nat || (k =? 2)%nat then EOF else ErrUnexpectedEOF)).
Proof.
  intros HP Hk. unfold readUDPPacket.
  destruct (Nat.lt_ge_cases k 2) as [Hk2|Hk2].
  - rewrite mock_ReadFull_short;
      [|reflexivity|cbn [readData mock_of]; rewrite length_take; lia].
    cbn [readData mock_of].
    destruct k as [|[|k]]; [reflexivity|reflexivity|lia].
  - set (rest := take (k - 2) P).
    assert (Hsplit : take k (PutUint16 (len P) ++ P) = PutUint16 (len P) ++ rest).
    { rewrite take_app, take_ge, PutUint16_length by (rewrite PutUint16_length; lia).
      reflexivity. }
    rewrite Hsplit.
    change 2%nat with (length (PutUint16 (len P))) at 1.
    rewrite (mock_ReadFull_ok _ (PutUint16 (len P)) rest) by reflexivity.
    rewrite Uint16_PutUint16 by lia. unfold udpMaxPacketSize.
    destruct (Z.leb_spec (len P) 0); [lia|].
    destruct (Z.gtb_spec (len P) 65535); [lia|].
    cbn [orb]. unfold len. rewrite Nat2Z.id.
    rewrite mock_ReadFull_short;
      [|reflexivity|cbn; unfold rest; rewrite length_take; lia].
    cbn [readData with_readData mock_of].
    destruct (Nat.eqb_spec k 0) as [->|_]; [lia|]. cbn [orb].
    destruct (Nat.eqb_spec k 2) as [->|Hne].
    + reflexivity.
    + destruct rest as [|c r] eqn:Hrest; [|reflexivity].
      exfalso. apply (f_equal (@length _)) in Hrest. unfold rest in Hrest.
      rewrite length_take in Hrest. cbn in Hrest. lia.
Qed.

Lemma readUDPPacket_truncated_witness :
  readUDPPacket (mock_of (take 4 (PutUint16 (len (bs "hello")) ++ bs "hello")))
  = Some (mock_of [], Err ErrUnexpectedEOF).
Proof.
  apply (readUDPPacket_truncated (bs "hello") 4); vm_compute.
  - split; discriminate.
  - lia.
Defined.

Lemma take_udpMax_len (d : bytes) :
  len (take (Z.to_nat udpMaxPacketSize) d) <= 65535.
Proof.
  unfold len. rewrite length_take.
  assert (Hn : Z.of_nat (Z.to_nat udpMaxPacketSize) = 65535) by reflexivity.
  set (n := Z.to_nat udpMaxPacketSize) in *. lia.
Qed.

Lemma framed_sizes ds : Forall (fun p => 1 <= len p <= 65535) (framed ds).
Proof.
  unfold framed. apply List.Forall_forall. intros p Hp.
  apply filter_In in Hp as [Hin Hne].
  apply in_map_iff in Hin as (d & <- & _).
  destruct (Z.leb_spec (len (take (Z.to_nat udpMaxPacketSize) d.1)) 0);
    [discriminate|].
  split; [lia|apply take_udpMax_len].
Qed.

Lemma startUDPLocalToStream_mock (ds : list (bytes * UDPAddr)) (e : error) :
  forall (w : mockReadWriteCloser) (lastSrc : option UDPAddr),
    writeErr w = None ->
    exists src,
      startUDPLocalToStream w (map Ok ds ++ [Err e]) lastSrc
      = (with_writeData w (writeData w ++ udp_frames (framed ds)), src, Some e).
Proof.
  induction ds as [|[d a] ds IH]; intros w lastSrc Hw.
  - exists lastSrc. cbn. rewrite app_nil_r.
    destruct w; cbn in *; subst; reflexivity.
  - cbn [map app startUDPLocalToStream].
    unfold framed. cbn [map List.filter fst].
    fold (framed ds).
    destruct (Z.leb_spec (len (take (Z.to_nat udpMaxPacketSize) d)) 0) as [H0|H0];
      cbn [negb].
    + apply IH. exact Hw.
    + rewrite writeUDPPacket_mock; [|exact Hw|].
      2: { split; [lia|apply take_udpMax_len]. }
      destruct (IH (with_writeData w
                      (writeData w
                       ++ PutUint16 (len (take (Z.to_nat udpMaxPacketSize) d))
                       ++ take (Z.to_nat udpMaxPacketSize) d)) (Some a) Hw)
        as [src Hrun].
      exists src. rewrite Hrun. cbn [writeData with_writeData].
      unfold udp_frames. cbn [map concat].
      rewrite <- !app_assoc. reflexivity.
Qed.

Lemma startStreamToUDPLocal_mock (ps : list bytes) :
  forall (observed : list (option UDPAddr)) (r : mockReadWriteCloser)
         (delivered : list (bytes * UDPAddr)),
    readErr r = None -> readData r = udp_frames ps ->
    Forall (fun p => 1 <= len p <= 65535) ps ->
    length observed = length ps ->
    startStreamToUDPLocal r observed None delivered
    = Some (with_readData r [], delivered ++ deliveries ps observed, EOF).
Proof.
  induction ps as [|p ps IH]; intros observed r delivered Hr Hd Hps Hlen.
  - destruct observed; [|discriminate].
    cbn [startStreamToUDPLocal]. unfold readUDPPacket.
    rewrite mock_ReadFull_short; [|exact Hr|rewrite Hd; cbn; lia].
    rewrite Hd. cbn. rewrite app_nil_r. reflexivity.
  - inversion Hps as [|? ? Hp Hps']; subst.
    destruct observed as [|o observed]; [discriminate|].
    injection Hlen as Hlen.
    cbn [startStreamToUDPLocal].
    rewrite (readUDPPacket_mock r p (udp_frames ps)); [|exact Hr|exact Hp|].
    2: { rewrite Hd. unfold udp_frames. cbn [map concat].
         rewrite <- app_assoc. reflexivity. }
    destruct o as [dst|].
    + rewrite IH; [|exact Hr|reflexivity|exact Hps'|exact Hlen].
      unfold deliveries. cbn [zip zip_with omap list_omap snd fst with_readData].
      rewrite <- app_assoc. reflexivity.
    + rewrite IH; [|exact Hr|reflexivity|exact Hps'|exact Hlen].
      reflexivity.
Qed.

Lemma deliveries_repeat (ps : list bytes) (a : UDPAddr) :
  deliveries ps (repeat (Some a) (length ps)) = map (fun p => (p, a)) ps.
Proof.
  unfold deliveries. induction ps as [|p ps IH]; [reflexivity|].
  cbn [length repeat zip zip_with omap list_omap map snd fst]. f_equal. exact IH.
Qed.

(** X8.  [startStreamToUDPLocal] hands each datagram it reads from the
    stream to the address that [*lastSrc] holds in that turn, in
    order, drops the datagrams of the turns that find no address, and
    ends with [io.EOF] when the stream ends after a whole frame. *)
Theorem startStreamToUDPLocal_delivers (ps : list bytes)
    (observed : list (option UDPAddr)) (rest : list (bytes * UDPAddr)) :
  Forall (fun p => 1 <= len p <= 65535) ps ->
  length observed = length ps ->
  startStreamToUDPLocal (mock_of (udp_frames ps)) observed None rest
  = Some (mock_of [], rest ++ deliveries ps observed, EOF).
Proof.
  intros Hps Hlen.
  apply (startStreamToUDPLocal_mock ps observed (mock_of (udp_frames ps)) rest);
    [reflexivity|reflexivity|exact Hps|exact Hlen].
Qed.

Lemma startStreamToUDPLocal_delivers_witness :
  startStreamToUDPLocal (mock_of (udp_frames [bs "early"; bs "pong"]))
    [None; Some (bs "127.0.0.1:5000")] None []
  = Some (mock_of [], [(bs "pong", bs "127.0.0.1:5000")], EOF).
Proof.
  apply (startStreamToUDPLocal_delivers [bs "early"; bs "pong"]
           [None; Some (bs "127.0.0.1:5000")] []).
  - repeat constructor; vm_compute; discriminate.
  - reflexivity.
Defined.

(** X6.  The two forwarders relay datagrams through a stream: what
    [startUDPLocalToStream] writes for the datagrams of the local
    socket, [startStreamToUDPLocal] at the other end of the stream
    hands to its socket as the same datagrams in the same order
    (each cut to 65535 bytes, the empty ones left out) before it
    reports the end of the stream; the first forwarder ends with the
    error of its socket. *)
Theorem udp_forwarders_relay (ds : list (bytes * UDPAddr)) (e : error)
    (a : UDPAddr) :
  exists w src,
    startUDPLocalToStream (mock_of []) (map Ok ds ++ [Err e]) None
    = (w, src, Some e) /\
    startStreamToUDPLocal (mock_of (writeData w))
      (repeat (Some a) (length (framed ds))) None []
    = Some (mock_of [], map (fun p => (p, a)) (framed ds), EOF).
Proof.
  destruct (startUDPLocalToStream_mock ds e (mock_of []) None eq_refl)
    as [src Hrun].
  eexists. exists src. split; [exact Hrun|].
  cbn [writeData with_writeData mock_of app].
  rewrite (startStreamToUDPLocal_mock (framed ds));
    [|reflexivity|reflexivity|apply framed_sizes|apply repeat_length].
  rewrite deliveries_repeat. reflexivity.
Qed.

(** X15.  The codec is not symmetric on the empty payload:
    [writeUDPPacket] accepts it and writes the header 00 00 alone, a
    frame on which [readUDPPacket] fails with [io.ErrUnexpectedEOF],
    the two bytes consumed. *)
Theorem writeUDPPacket_empty_payload (w : mockReadWriteCloser) (rest : bytes) :
  writeErr w = None ->
  writeUDPPacket w []
  = (with_writeData w (writeData w ++ [zero; zero]), None) /\
  readUDPPacket (mock_of ([zero; zero] ++ rest))
  = Some (mock_of rest, Err ErrUnexpectedEOF).
Proof.
  intros Hw. split.
  - rewrite writeUDPPacket_mock;
      [|exact Hw|split; vm_compute; discriminate].
    rewrite app_nil_r. reflexivity.
  - unfold readUDPPacket.
    change 2%nat with (length [zero; zero]).
    rewrite (mock_ReadFull_ok _ [zero; zero] rest) by reflexivity.
    reflexivity.
Qed.

Lemma writeUDPPacket_empty_payload_witness :
  writeUDPPacket (mock_of []) []
  = (with_writeData (mock_of []) (writeData (mock_of []) ++ [zero; zero]), None) /\
  readUDPPacket (mock_of ([zero; zero] ++ bs "next"))
  = Some (mock_of (bs "next"), Err ErrUnexpectedEOF).
Proof.
  apply (writeUDPPacket_empty_payload (mock_of []) (bs "next")). reflexivity.
Defined.

Import binary support io security.

(** ** The AEAD wrapper: overhead, truncated frames, frame order *)

Section wrapper_more.
Context {A : Type} `{Crypto A} `{!CryptoLaws A}.

Lemma aead_frame_length (a : A) (k : Z) (p : bytes) :
  length (aead_frame a k p) = (length p + 44)%nat.
Proof.
  unfold aead_frame. rewrite !length_app, nonce_of_length, Seal_length.
  cbn [length PutUint32]. lia.
Qed.

Lemma aead_frame_split (a : A) (k : Z) (p : bytes) :
  aead_frame a k p
  = (PutUint32 (len p + 16) ++ nonce_of k) ++ Seal a (nonce_of k) p.
Proof. unfold aead_frame. rewrite Seal_len, <- app_assoc. reflexivity. Qed.

(** X10.  A [Write] that succeeds puts one frame on the stream, 44
    bytes longer than the plaintext (4 of length, 24 of nonce, 16 of
    tag), and reports the length of the plaintext. *)
Theorem Write_overhead (c : ClientAEAD mockReadWriteCloser A) (p : bytes) :
  writeErr (base c) = None -> len p + 16 <= MaxUint32 ->
  (ClientAEAD_Write c p).2 = (len p, None) /\
  length (writeData (base (ClientAEAD_Write c p).1))
  = (length (writeData (base c)) + length p + 44)%nat.
Proof.
  intros Hw Hp. rewrite Write_mock_ok by assumption.
  cbn [fst snd base writeData with_writeData].
  split; [reflexivity|]. rewrite length_app, aead_frame_length. lia.
Qed.

(** X11.  A frame cut short is never delivered: when the stream ends
    inside a frame, [Read] stores no byte and returns an error,
    [io.ErrUnexpectedEOF] when the stream ends inside the header or
    inside the ciphertext, plain [io.EOF] when it ends before the
    frame or between the header and the ciphertext. *)
Theorem Read_truncated (a : A) (ctr x : Z) (p : bytes) (k n : nat) :
  len p + 16 <= MaxUint32 -> (k < length p + 44)%nat ->
  ClientAEAD_Read {| base := mock_of (take k (aead_frame a x p));
                     aead := a; encCtr := ctr |} n
  = Some ({| base := mock_of []; aead := a; encCtr := ctr |},
          ([], Some (if (k =? 0)%nat || (k =? 28)%nat
                     then EOF else ErrUnexpectedEOF))).
Proof.
  intros Hp Hk. unfold ClientAEAD_Read. cbn [base aead].
  unfold MaxUint32 in Hp.
  set (hdr := PutUint32 (len p + 16) ++ nonce_of x).
  assert (Hhdr : length hdr = 28%nat).
  { unfold hdr. rewrite length_app, nonce_of_length. reflexivity. }
  destruct (Nat.lt_ge_cases k 28) as [Hk28|Hk28].
  - change (4 + 24)%nat with 28%nat.
    rewrite mock_ReadFull_short;
      [|reflexivity|cbn [readData mock_of]; rewrite length_take; lia].
    cbn [readData mock_of with_base base aead encCtr].
    assert (Hlen : length (take k (aead_frame a x p)) = k).
    { rewrite length_take, aead_frame_length. lia. }
    destruct (Nat.eqb_spec k 28) as [->|_]; [lia|].
    rewrite orb_false_r.
    destruct (take k (aead_frame a x p)) as [|c t]; cbn [length] in Hlen.
    + subst k. reflexivity.
    + destruct k; [discriminate|]. reflexivity.
  - set (rest := take (k - 28) (Seal a (nonce_of x) p)).
    assert (Hsplit : take k (aead_frame a x p) = hdr ++ rest).
    { rewrite aead_frame_split. fold hdr.
      rewrite take_app, take_ge, Hhdr by lia. reflexivity. }
    rewrite Hsplit.
    change (4 + 24)%nat with 28%nat.
    pose proof (mock_ReadFull_ok (mock_of (hdr ++ rest)) hdr rest
                  eq_refl eq_refl) as HRF.
    rewrite Hhdr in HRF. rewrite HRF. clear HRF.
    change (take 4 hdr) with (PutUint32 (len p + 16)).
    change (drop 4 hdr) with (nonce_of x).
    rewrite Uint32_PutUint32 by (unfold len in *; lia).
    assert (Hrest : (length rest < Z.to_nat (len p + 16))%nat).
    { unfold rest. rewrite length_take, Seal_length. unfold len. lia. }
    rewrite mock_ReadFull_short; [|reflexivity|exact Hrest].
    cbn [readData with_readData mock_of with_base base aead encCtr].
    destruct (Nat.eqb_spec k 0) as [->|_]; [lia|]. cbn [orb].
    destruct (Nat.eqb_spec k 28) as [->|Hne].
    + reflexivity.
    + destruct rest as [|c r] eqn:Hr; [|reflexivity].
      exfalso. apply (f_equal (@length _)) in Hr. unfold rest in Hr.
      rewrite length_take, Seal_length in Hr. cbn in Hr. lia.
Qed.

(** Frames are read whatever their counters. *)
Lemma read_all_frames_with (kps : list (Z * bytes)) :
  forall (c : ClientAEAD mockReadWriteCloser A) (caps : list nat)
         (rest : bytes),
    readErr (base c) = None ->
    readData (base c) = frames_with (aead c) kps ++ rest ->
    Forall (fun kp => len kp.2 + 16 <= MaxUint32) kps ->
    Forall2 (fun kp n => (length kp.2 <= n)%nat) kps caps ->
    read_all c caps
    = Some (with_base c (with_readData (base c) rest),
            map (fun kp => (kp.2, None)) kps).
Proof.
  induction kps as [|[k p] kps IH]; intros c caps rest Hr Hd Hall Hcaps.
  - inversion Hcaps; subst. cbn [read_all map].
    cbn in Hd. rewrite <- Hd, with_readData_id.
    destruct c; reflexivity.
  - inversion Hcaps as [|? n ? caps' Hn Hcaps']; subst.
    inversion Hall as [|? ? Hp Hall']; subst. cbn [fst snd] in *.
    cbn [read_all].
    rewrite (Read_mock_ok c k p (frames_with (aead c) kps ++ rest) n);
      [|exact Hr|exact Hp| |exact Hn].
    2: { rewrite Hd. unfold frames_with. cbn [map concat fst snd].
         rewrite <- app_assoc. reflexivity. }
    rewrite (IH _ caps' rest); [|exact Hr|reflexivity|exact Hall'|exact Hcaps'].
    cbn [map fst snd with_base base aead encCtr with_readData]. reflexivity.
Qed.

(** X12.  [Read] does not look at the counter of a frame: frames
    sealed under any counters, also repeated or out of order, are
    opened and delivered in the order in which they stand on the
    stream. *)
Theorem Read_any_counter (a : A) (ctr : Z) (kps : list (Z * bytes))
    (caps : list nat) :
  Forall (fun kp => len kp.2 + 16 <= MaxUint32) kps ->
  Forall2 (fun kp n => (length kp.2 <= n)%nat) kps caps ->
  read_all {| base := mock_of (frames_with a kps); aead := a; encCtr := ctr |}
    caps
  = Some ({| base := mock_of []; aead := a; encCtr := ctr |},
          map (fun kp => (kp.2, None)) kps).
Proof.
  intros Hall Hcaps.
  rewrite (read_all_frames_with kps _ caps []);
    [reflexivity|reflexivity| |exact Hall|exact Hcaps].
  cbn [base readData mock_of aead]. rewrite app_nil_r. reflexivity.
Qed.
End wrapper_more.

Lemma Write_overhead_witness :
  (ClientAEAD_Write {| base := mock_of []; aead := bs "key"; encCtr := 7 |}
     (bs "hello")).2 = (5, None) /\
  length (writeData (base (ClientAEAD_Write
            {| base := mock_of []; aead := bs "key"; encCtr := 7 |}
            (bs "hello")).1)) = 49%nat.
Proof.
  apply (@Write_overhead bytes demo_crypto demo_crypto_laws
           {| base := mock_of []; aead := bs "key"; encCtr := 7 |} (bs "hello")).
  - reflexivity.
  - vm_compute. discriminate.
Defined.

Lemma Read_truncated_witness :
  ClientAEAD_Read {| base := mock_of (take 30 (aead_frame (bs "key") 0 (bs "hello")));
                     aead := bs "key"; encCtr := 0 |} 64
  = Some ({| base := mock_of []; aead := bs "key"; encCtr := 0 |},
          ([], Some ErrUnexpectedEOF)).
Proof.
  apply (@Read_truncated bytes demo_crypto demo_crypto_laws
           (bs "key") 0 0 (bs "hello") 30 64).
  - vm_compute. discriminate.
  - vm_compute. lia.
Defined.

Lemma Read_any_counter_witness :
  read_all {| base := mock_of (frames_with (bs "key")
                                 [(5, bs "b"); (5, bs "b"); (0, bs "a")]);
              aead := bs "key"; encCtr := 0 |} [8; 8; 8]%nat
  = Some ({| base := mock_of []; aead := bs "key"; encCtr := 0 |},
          [(bs "b", None); (bs "b", None); (bs "a", None)]).
Proof.
  apply (@Read_any_counter bytes demo_crypto demo_crypto_laws
           (bs "key") 0 [(5, bs "b"); (5, bs "b"); (0, bs "a")] [8; 8; 8]%nat).
  - repeat constructor; vm_compute; discriminate.
  - repeat constructor; vm_compute; lia.
Defined.


Import io security bridge.

(** ** The stream bridge: what a copy transfers *)

Lemma CopyBuffer_loop_mock (n : nat) (fuel : nat) :
  (0 < n)%nat ->
  forall (dst src : mockReadWriteCloser) (written : Z),
    readErr src = None -> writeErr dst = None ->
    (length (readData src) < fuel)%nat ->
    exists total,
      CopyBuffer_loop fuel dst src n written
      = Some (with_writeData dst (writeData dst ++ readData src),
              with_readData src [], (total, None)).
Proof.
  intros Hn. induction fuel as [|fuel IH]; intros dst src written Hr Hw Hlen;
    [lia|].
  cbn [CopyBuffer_loop Read Write mock_rwc]. unfold mock_Read. rewrite Hr.
  destruct (readData src) as [|c d] eqn:Hd.
  - exists written. cbn [len length Z.of_nat Z.ltb Z.compare].
    rewrite bool_decide_eq_true_2 by reflexivity.
    rewrite app_nil_r.
    replace (with_writeData dst (writeData dst)) with dst by (destruct dst; reflexivity).
    replace (with_readData src []) with src
      by (rewrite <- Hd; destruct src; reflexivity).
    reflexivity.
  - set (chunk := take n (c :: d)). set (rest := drop n (c :: d)).
    assert (Hchunk : (0 < length chunk)%nat).
    { unfold chunk. rewrite length_take. cbn [length]. lia. }
    destruct (Z.ltb_spec 0 (len chunk)) as [_|Hbad]; [|unfold len in Hbad; lia].
    unfold mock_Write. rewrite Hw.
    destruct (Z.ltb_spec (len chunk) 0) as [Hbad|_]; [unfold len in Hbad; lia|].
    destruct (Z.ltb_spec (len chunk) (len chunk)) as [Hbad|_]; [lia|].
    cbn [orb]. rewrite Z.eqb_refl. cbn [negb].
    destruct (IH (with_writeData dst (writeData dst ++ chunk))
                 (with_readData src rest)
                 (wrap_int64 (written + len chunk)))
      as [total Hrun]; [exact Hr|exact Hw| |].
    { cbn [readData with_readData]. unfold rest. rewrite length_drop.
      cbn [length] in *. lia. }
    exists total. rewrite Hrun. cbn [readData writeData with_readData with_writeData].
    unfold chunk, rest. rewrite <- app_assoc, take_drop. reflexivity.
Qed.

(** X14.  A copy of the bridge is complete and in order: from a
    source that delivers [data] and then ends, to a destination that
    takes what it is given, [startBufferedCopy] appends exactly [data]
    to the destination, whatever the size of the buffer, and logs
    nothing. *)
Theorem startBufferedCopy_transfers (dst : mockReadWriteCloser)
    (data label : bytes) (buf fuel : nat) :
  writeErr dst = None -> (0 < buf)%nat -> (length data < fuel)%nat ->
  startBufferedCopy fuel dst (mock_of data) buf label
  = Some (with_writeData dst (writeData dst ++ data), mock_of [], []).
Proof.
  intros Hw Hbuf Hfuel. unfold startBufferedCopy.
  destruct (CopyBuffer_loop_mock buf fuel Hbuf dst (mock_of data) 0
              eq_refl Hw Hfuel) as [total Hrun].
  rewrite Hrun. reflexivity.
Qed.

Lemma startBufferedCopy_transfers_witness :
  startBufferedCopy 4 (mock_of_written (bs "one ")) (mock_of (bs "two")) 2
    (bs "a->b")
  = Some (mock_of_written (bs "one two"), mock_of [], []).
Proof.
  apply (startBufferedCopy_transfers (mock_of_written (bs "one ")) (bs "two")
           (bs "a->b") 2 4).
  - reflexivity.
  - lia.
  - vm_compute. lia.
Defined.

Import session.

(** ** The session manager: reuse, sockets closed, release *)

Section manager_more.
Variable buildWebSocketURL : bytes -> bytes -> result (bytes * bytes).

Lemma closedConns_app tr tr' :
  closedConns (tr ++ tr') = closedConns tr ++ closedConns tr'.
Proof. unfold closedConns. apply omap_app. Qed.

(** A dial loop that returns a session has stored it, with its
    socket, in a manager that is not stopped. *)
Lemma dial_loop_stores (answers : list DialResult) :
  forall m tr wsURL origin b m' rest tr' s,
    dial_loop m answers tr wsURL origin b = Some (m', rest, tr', Ok s) ->
    stopped m' = false /\ sess m' = Some s /\ exists c, conn m' = Some c.
Proof.
  induction answers as [|a answers IH];
    intros m tr wsURL origin b m' rest tr' s Hrun.
  - cbn [dial_loop] in Hrun. destruct (stopped m); discriminate.
  - cbn [dial_loop] in Hrun. destruct (stopped m) eqn:Hst; [discriminate|].
    destruct a as [e|c [s0|e]].
    + eapply IH. exact Hrun.
    + cbn [initializeSession] in Hrun. injection Hrun as <- _ _ <-.
      cbn [set_session stopped sess conn]. eauto.
    + cbn [initializeSession] in Hrun. eapply IH. exact Hrun.
Qed.

(** X16.  The manager keeps the session it returned: while the session
    is open, [EnsureSession] returns it again, without a dial and
    without any other call on the outside world. *)
Theorem EnsureSession_reuses_session (m m' : Manager) (w w' w2 : World)
    (s : Session) :
  EnsureSession buildWebSocketURL m w = Some (m', w', Ok s) ->
  IsClosed w2 s = false ->
  EnsureSession buildWebSocketURL m' w2 = Some (m', w2, Ok s).
Proof.
  intros Hrun Hopen.
  assert (Hm' : stopped m' = false /\ sess m' = Some s).
  { unfold EnsureSession in Hrun.
    destruct (stopped m) eqn:Hst; [discriminate|].
    destruct (live_session m w) as [s0|] eqn:Hlive.
    - injection Hrun as <- _ <-. split; [exact Hst|].
      unfold live_session in Hlive. destruct (sess m) as [s1|]; [|discriminate].
      destruct (IsClosed w s1); [discriminate|]. congruence.
    - destruct (sessionDialParams buildWebSocketURL m) as [wsURL origin].
      destruct wsURL as [|x wsURL]; [discriminate|].
      destruct (dial_loop _ _ _ _ _ _) as [[[[m1 rest] tr] r]|] eqn:Hloop;
        [|discriminate].
      injection Hrun as <- _ ->.
      destruct (dial_loop_stores _ _ _ _ _ _ _ _ _ _ Hloop) as (H1 & H2 & _).
      auto. }
  destruct Hm' as [Hst Hs].
  unfold EnsureSession, live_session. rewrite Hst, Hs, Hopen. reflexivity.
Qed.

Lemma dial_loop_closes (fails : list DialResult) :
  forall m tr wsURL origin b c s rest,
  stopped m = false -> Forall is_failure fails ->
  exists tr',
    dial_loop m (fails ++ DialConn c (Ok s) :: rest) tr wsURL origin b
    = Some (set_session m c s, rest, tr', Ok s) /\
    closedConns tr' = closedConns tr ++ failedHandshakes fails.
Proof.
  induction fails as [|a fails IH]; intros m tr wsURL origin b c s rest Hst Hf.
  - cbn [app dial_loop initializeSession]. rewrite Hst.
    eexists. split; [reflexivity|].
    rewrite !closedConns_app. cbn. rewrite !app_nil_r. reflexivity.
  - inversion Hf as [|? ? Ha Hf']; subst.
    cbn [app dial_loop]. rewrite Hst.
    destruct a as [e|c0 [s0|e]]; [| destruct Ha |].
    + destruct (IH m ((tr ++ [EvDial wsURL origin]) ++ [EvSleep b]) wsURL origin
                  (nextBackoff b (boMax m)) c s rest Hst Hf') as (tr' & Hrun & Hc).
      exists tr'. split; [exact Hrun|].
      rewrite Hc, !closedConns_app. cbn. rewrite !app_nil_r. reflexivity.
    + cbn [initializeSession].
      destruct (IH m ((((tr ++ [EvDial wsURL origin])
                         ++ [EvSetReadDeadline c0; EvSmuxClient c0])
                        ++ [EvConnClose c0]) ++ [EvSleep b]) wsURL origin
                  (nextBackoff b (boMax m)) c s rest Hst Hf') as (tr' & Hrun & Hc).
      exists tr'. split; [exact Hrun|].
      rewrite Hc, !closedConns_app. cbn. rewrite !app_nil_r, <- app_assoc.
      reflexivity.
Qed.

(** X17.  While it reconnects, [EnsureSession] closes every socket on
    which the smux handshake failed, in the order of the dials, and no
    other socket: not the one it goes on to use and not the one the
    manager held before. *)
Theorem EnsureSession_closes_failed_sockets (m : Manager) (w : World)
    (wsURL origin : bytes) (fails rest : list DialResult)
    (c : Conn) (s : Session) :
  stopped m = false -> live_session m w = None ->
  buildWebSocketURL (serverURL m) (tunnelID m) = Ok (wsURL, origin) ->
  wsURL <> [] ->
  Forall is_failure fails ->
  dials w = fails ++ DialConn c (Ok s) :: rest ->
  exists w',
    EnsureSession buildWebSocketURL m w = Some (set_session m c s, w', Ok s) /\
    closedConns (trace w') = closedConns (trace w) ++ failedHandshakes fails.
Proof.
  intros Hst Hlive Hurl Hne Hf Hd.
  unfold EnsureSession, sessionDialParams. rewrite Hst, Hlive, Hurl.
  destruct wsURL as [|x wsURL]; [congruence|].
  rewrite Hd.
  destruct (dial_loop_closes fails m (trace w) (x :: wsURL) origin (boInit m)
              c s rest Hst Hf) as (tr' & Hrun & Hc).
  rewrite Hrun. eexists. split; [reflexivity|]. exact Hc.
Qed.

(** X18.  [Close] releases what [EnsureSession] returned: it closes the
    session, which from then on reports [IsClosed], and after it the
    socket of the manager, and the manager holds neither any more. *)
Theorem Close_releases_session (m m' : Manager) (w w' : World) (s : Session) :
  EnsureSession buildWebSocketURL m w = Some (m', w', Ok s) ->
  IsClosed (Close m' w').2 s = true /\
  sess (Close m' w').1 = None /\ conn (Close m' w').1 = None /\
  (forall c, conn m' = Some c ->
     trace (Close m' w').2 = trace w' ++ [EvSessClose s; EvConnClose c]).
Proof.
  intros Hrun.
  assert (Hs : sess m' = Some s).
  { unfold EnsureSession in Hrun.
    destruct (stopped m) eqn:Hst; [discriminate|].
    destruct (live_session m w) as [s0|] eqn:Hlive.
    - injection Hrun as <- _ <-.
      unfold live_session in Hlive. destruct (sess m) as [s1|]; [|discriminate].
      destruct (IsClosed w s1); [discriminate|]. congruence.
    - destruct (sessionDialParams buildWebSocketURL m) as [wsURL origin].
      destruct wsURL as [|x wsURL]; [discriminate|].
      destruct (dial_loop _ _ _ _ _ _) as [[[[m1 rest] tr] r]|] eqn:Hloop;
        [|discriminate].
      injection Hrun as <- _ ->.
      destruct (dial_loop_stores _ _ _ _ _ _ _ _ _ _ Hloop) as (_ & H2 & _).
      exact H2. }
  unfold Close. rewrite Hs.
  split; [|split; [|split]].
  - destruct (conn m'); cbn [snd closedSessions]; unfold IsClosed;
      cbn [closedSessions]; apply bool_decide_eq_true; left.
  - destruct (conn m'); reflexivity.
  - destruct (conn m'); reflexivity.
  - intros c Hc. rewrite Hc. cbn [snd trace]. rewrite <- app_assoc. reflexivity.
Qed.
End manager_more.

Lemma EnsureSession_reuses_session_witness :
  let m := NewManager (bs "http://example.com") (bs "t") Second (5 * Second)
             {| PingInterval := 0; PingTimeout := 0;
                SmuxKeepAliveInterval := 0; SmuxKeepAliveTimeout := 0 |} in
  let w := {| dials := [DialConn 2%nat (Ok 9%nat)]; closedSessions := [];
              trace := [] |} in
  let w2 := {| dials := []; closedSessions := [4%nat]; trace := [] |} in
  EnsureSession demo_url (set_session m 2%nat 9%nat) w2
  = Some (set_session m 2%nat 9%nat, w2, Ok 9%nat).
Proof.
  intros m w w2.
  apply (EnsureSession_reuses_session demo_url m (set_session m 2%nat 9%nat) w
           {| dials := []; closedSessions := [];
              trace := [EvDial (bs "http://example.com/ws?mode=data&tunnel_id=t")
                          (bs "http://example.com");
                        EvSetReadDeadline 2%nat; EvSmuxClient 2%nat;
                        EvPingLoop 2%nat] |} w2 9%nat).
  - reflexivity.
  - reflexivity.
Defined.

Lemma EnsureSession_closes_failed_sockets_witness :
  let m := NewManager (bs "http://example.com") (bs "t") Second (5 * Second)
             {| PingInterval := 0; PingTimeout := 0;
                SmuxKeepAliveInterval := 0; SmuxKeepAliveTimeout := 0 |} in
  let w := {| dials := [DialError EOF; DialConn 1%nat (Err EOF);
                        DialConn 3%nat (Err EOF); DialConn 2%nat (Ok 9%nat)];
              closedSessions := []; trace := [] |} in
  exists w',
    EnsureSession demo_url m w = Some (set_session m 2%nat 9%nat, w', Ok 9%nat) /\
    closedConns (trace w') = [1%nat; 3%nat].
Proof.
  intros m w.
  apply (EnsureSession_closes_failed_sockets demo_url m w
           (bs "http://example.com/ws?mode=data&tunnel_id=t")
           (bs "http://example.com")
           [DialError EOF; DialConn 1%nat (Err EOF); DialConn 3%nat (Err EOF)]
           [] 2%nat 9%nat).
  - reflexivity.
  - reflexivity.
  - reflexivity.
  - discriminate.
  - repeat constructor.
  - reflexivity.
Defined.

Lemma Close_releases_session_witness :
  let m := NewManager (bs "http://example.com") (bs "t") Second (5 * Second)
             {| PingInterval := 0; PingTimeout := 0;
                SmuxKeepAliveInterval := 0; SmuxKeepAliveTimeout := 0 |} in
  let m' := set_session m 2%nat 9%nat in
  let w' := {| dials := []; closedSessions := [];
               trace := [EvDial (bs "http://example.com/ws?mode=data&tunnel_id=t")
                           (bs "http://example.com");
                         EvSetReadDeadline 2%nat; EvSmuxClient 2%nat;
                         EvPingLoop 2%nat] |} in
  IsClosed (Close m' w').2 9%nat = true /\
  sess (Close m' w').1 = None /\ conn (Close m' w').1 = None /\
  (forall c, conn m' = Some c ->
     trace (Close m' w').2 = trace w' ++ [EvSessClose 9%nat; EvConnClose c]).
Proof.
  intros m m' w'.
  apply (Close_releases_session demo_url m m'
           {| dials := [DialConn 2%nat (Ok 9%nat)]; closedSessions := [];
              trace := [] |} w' 9%nat).
  reflexivity.
Defined.

Import wsconn.

(** ** The WebSocket adapter as a byte stream *)

Lemma binary_payloads_cons mt d ms :
  binary_payloads ((mt, d) :: ms)
  = (if mt =? BinaryMessage then d else []) ++ binary_payloads ms.
Proof.
  unfold binary_payloads. cbn [List.filter fst].
  destruct (mt =? BinaryMessage); reflexivity.
Qed.

Lemma weight_cons cr mt d ms :
  weight cr ((mt, d) :: ms)
  = (weight cr ms + length d + 2)%nat.
Proof.
  unfold weight. cbn [map concat snd length]. rewrite length_app. lia.
Qed.

Lemma reading_tick c : reading c -> reading (tick c).
Proof. intros H. exact H. Qed.

Lemma NextReader_end (c : scriptConn) (tail : list (Z * bytes)) :
  reading c -> incoming c = tail -> ends_reading tail ->
  exists c', NextReader c = (c', Err (match tail with
                                       | [] => errorString
                                           (bs "websocket: close 1006 (abnormal closure)")
                                       | _ => ErrReadLimit
                                       end)).
Proof.
  intros [He Hl] Hin Hend. cbn [NextReader script_conn]. rewrite He, Hin.
  destruct tail as [|[mt d] rest]; [eexists; reflexivity|].
  cbn [ends_reading snd] in Hend. rewrite Hl. unfold MaxWebSocketMessageSize in *.
  destruct (Z.ltb_spec (1024 * 1024) (len d)); [|lia].
  eexists. reflexivity.
Qed.

Lemma NextReader_within (c : scriptConn) mt d rest :
  reading c -> incoming c = (mt, d) :: rest ->
  len d <= MaxWebSocketMessageSize ->
  NextReader c
  = ({| incoming := rest; sent := sent c; calls := S (calls c);
        isClosed := isClosed c; readLimit := readLimit c;
        readErr := readErr c |}, Ok (mt, d)).
Proof.
  intros [He Hl] Hin Hd. cbn [NextReader script_conn]. rewrite He, Hin, Hl.
  unfold MaxWebSocketMessageSize in *.
  destruct (Z.ltb_spec (1024 * 1024) (len d)); [lia|].
  rewrite andb_false_r. reflexivity.
Qed.

Lemma Read_loop_script (n : nat) (fuel : nat) :
  (0 < n)%nat ->
  forall (c : scriptConn) (cr : option bytes) (ms tail : list (Z * bytes)),
    reading c -> incoming c = ms ++ tail ->
    Forall (fun m => len m.2 <= MaxWebSocketMessageSize) ms ->
    ends_reading tail ->
    (weight cr ms < fuel)%nat ->
    exists c' cr' data err,
      Read_loop fuel {| conn := Some c; currReader := cr |} n
      = Some ({| conn := Some c'; currReader := cr' |}, (data, err)) /\
      ((err = Some (end_error tail) /\ data = [] /\
        pending cr ++ binary_payloads ms = []) \/
       (err = None /\
        exists ms',
          reading c' /\ incoming c' = ms' ++ tail /\
          Forall (fun m => len m.2 <= MaxWebSocketMessageSize) ms' /\
          data ++ pending cr' ++ binary_payloads ms'
          = pending cr ++ binary_payloads ms /\
          (weight cr' ms' < weight cr ms)%nat)).
Proof.
  intros Hn. induction fuel as [|fuel IH];
    intros c cr ms tail Hrd Hin Hms Hend Hw; [lia|].
  destruct cr as [r|].
  - (* a reader is in place *)
    cbn [Read_loop currReader conn reader_Read script_conn].
    destruct r as [|x r].
    + rewrite bool_decide_eq_true_2 by reflexivity.
      cbn [length Nat.ltb Nat.leb].
      destruct (IH (tick c) None ms tail) as (c' & cr' & data & err & Hrun & Hres);
        [exact Hrd|exact Hin|exact Hms|exact Hend| |].
      { unfold weight in *. cbn [length] in Hw. lia. }
      exists c', cr', data, err. split; [exact Hrun|].
      cbn [pending app] in *.
      destruct Hres as [H1|(H1 & ms' & H2 & H3 & H4 & H5 & H6)];
        [left; exact H1|right].
      split; [exact H1|]. exists ms'. repeat split; try assumption; try apply H2.
      unfold weight in *. cbn [length]. lia.
    + rewrite bool_decide_eq_false_2 by discriminate.
      exists (tick c), (Some (drop n (x :: r))), (take n (x :: r)), None.
      split; [reflexivity|]. right. split; [reflexivity|].
      exists ms. split; [exact Hrd|]. split; [exact Hin|]. split; [exact Hms|].
      cbn [pending]. split.
      * rewrite app_assoc, take_drop. reflexivity.
      * unfold weight. rewrite length_drop. cbn [length]. lia.
  - (* the next message is asked for *)
    cbn [Read_loop currReader conn].
    destruct ms as [|[mt d] ms].
    + cbn [app] in Hin.
      destruct (NextReader_end c tail Hrd Hin Hend) as [c' Hnext].
      rewrite Hnext.
      exists c', None, [], (Some (end_error tail)).
      split; [|left; auto].
      destruct tail; reflexivity.
    + inversion Hms as [|? ? Hd Hms']; subst. cbn [snd] in Hd.
      rewrite (NextReader_within c mt d (ms ++ tail) Hrd Hin Hd).
      set (c1 := {| incoming := ms ++ tail; sent := sent c;
                    calls := S (calls c); isClosed := isClosed c;
                    readLimit := readLimit c; readErr := readErr c |}).
      assert (Hrd1 : reading c1) by exact Hrd.
      rewrite binary_payloads_cons, weight_cons in *.
      destruct (Z.eqb_spec mt BinaryMessage) as [->|Hmt].
      * cbn [negb conn currReader reader_Read script_conn].
        destruct d as [|x d].
        -- rewrite bool_decide_eq_true_2 by reflexivity.
           cbn [length Nat.ltb Nat.leb].
           destruct (IH (tick c1) None ms tail)
             as (c' & cr' & data & err & Hrun & Hres);
             [exact Hrd1|reflexivity|exact Hms'|exact Hend| |].
           { cbn [length] in Hw. lia. }
           exists c', cr', data, err. split; [exact Hrun|].
           cbn [pending app] in *.
           destruct Hres as [H1|(H1 & ms' & H2 & H3 & H4 & H5 & H6)];
             [left; exact H1|right].
           split; [exact H1|]. exists ms'.
           repeat split; try assumption; try apply H2. lia.
        -- rewrite bool_decide_eq_false_2 by discriminate.
           exists (tick c1), (Some (drop n (x :: d))), (take n (x :: d)), None.
           split; [reflexivity|]. right. split; [reflexivity|].
           exists ms. split; [exact Hrd1|]. split; [reflexivity|].
           split; [exact Hms'|]. cbn [pending app]. split.
           ++ rewrite !app_assoc, take_drop. reflexivity.
           ++ unfold weight. rewrite length_drop. cbn [length]. lia.
      * cbn [negb reader_Discard script_conn].
        destruct (IH (tick c1) None ms tail)
          as (c' & cr' & data & err & Hrun & Hres);
          [exact Hrd1|reflexivity|exact Hms'|exact Hend| |].
        { lia. }
        exists c', cr', data, err. split; [exact Hrun|].
        cbn [pending app] in *.
        destruct Hres as [H1|(H1 & ms' & H2 & H3 & H4 & H5 & H6)];
          [left; exact H1|right].
        split; [exact H1|]. exists ms'.
        repeat split; try assumption; try apply H2. lia.
Qed.

Lemma read_to_end_script (n : nat) (fuel : nat) :
  (0 < n)%nat -> Z.of_nat n <= 65536 ->
  forall (c : scriptConn) (cr : option bytes) (ms tail : list (Z * bytes))
         (got : bytes),
    reading c -> incoming c = ms ++ tail ->
    Forall (fun m => len m.2 <= MaxWebSocketMessageSize) ms ->
    ends_reading tail ->
    (weight cr ms < fuel)%nat ->
    exists w',
      read_to_end fuel {| conn := Some c; currReader := cr |} n got
      = Some (w', got ++ pending cr ++ binary_payloads ms, end_error tail).
Proof.
  intros Hn Hmax. induction fuel as [|fuel IH];
    intros c cr ms tail got Hrd Hin Hms Hend Hw; [lia|].
  cbn [read_to_end]. unfold WSConn_Read, MaxWebSocketFrameSize.
  destruct (Z.gtb_spec (Z.of_nat n) (64 * 1024)) as [Hbad|_]; [lia|].
  destruct (Read_loop_script n (S fuel) Hn c cr ms tail Hrd Hin Hms Hend Hw)
    as (c' & cr' & data & err & Hrun & Hres).
  rewrite Hrun.
  destruct Hres as [(-> & -> & Hs)|(-> & ms' & Hrd' & Hin' & Hms' & Hs & Hlt)].
  - eexists. rewrite Hs. reflexivity.
  - destruct (IH c' cr' ms' tail (got ++ data) Hrd' Hin' Hms' Hend)
      as [w' Hrest]; [lia|].
    exists w'. rewrite Hrest, <- Hs, <- !app_assoc. reflexivity.
Qed.



Lemma WSConn_Write_script (c : scriptConn) (cr : option bytes) (p : bytes) :
  len p <= 1048576 ->
  exists c',
    WSConn_Write {| conn := Some c; currReader := cr |} p
    = Some ({| conn := Some c'; currReader := cr |}, (len p, None)) /\
    sent c' = sent c ++ [(BinaryMessage, p)] /\ incoming c' = incoming c.
Proof.
  intros Hp. unfold WSConn_Write, MaxWebSocketMessageSize.
  destruct (Z.gtb_spec (len p) (1024 * 1024)) as [Hbad|_]; [lia|].
  cbn [conn currReader NextWriter writer_Write writer_Close script_conn].
  eexists. split; [reflexivity|]. split; reflexivity.
Qed.

Lemma WSConn_write_all_script (ps : list bytes) :
  forall (c : scriptConn) (cr : option bytes),
    Forall (fun p => len p <= 1048576) ps ->
    exists c',
      WSConn_write_all {| conn := Some c; currReader := cr |} ps
      = Some ({| conn := Some c'; currReader := cr |},
              map (fun p => (len p, None)) ps) /\
      sent c' = sent c ++ map (pair BinaryMessage) ps /\
      incoming c' = incoming c.
Proof.
  induction ps as [|p ps IH]; intros c cr Hps.
  - exists c. cbn. rewrite app_nil_r. auto.
  - inversion Hps as [|? ? Hp Hps']; subst.
    destruct (WSConn_Write_script c cr p Hp) as (c1 & Hw & Hs1 & Hi1).
    destruct (IH c1 cr Hps') as (c2 & Hrun & Hs2 & Hi2).
    exists c2. cbn [WSConn_write_all map]. rewrite Hw, Hrun.
    split; [reflexivity|]. rewrite Hs2, Hs1, Hi2, Hi1, <- app_assoc.
    split; reflexivity.
Qed.

Lemma binary_payloads_all (ps : list bytes) :
  binary_payloads (map (pair BinaryMessage) ps) = concat ps.
Proof.
  induction ps as [|p ps IH]; [reflexivity|].
  cbn [map]. rewrite binary_payloads_cons, IH. reflexivity.
Qed.

(** X20.  Bytes written on one end of a WebSocket are the bytes read
    at the other: each [Write] of at most 1 MiB sends its argument as
    one binary message and reports its length, and a peer that reads
    those messages through its [WSConn], with a buffer of any size from
    1 to 65536 bytes, gets the arguments joined in order, then
    [io.EOF]. *)
Theorem WSConn_stream_roundtrip (ps : list bytes) (n fuel : nat) :
  Forall (fun p => len p <= 1048576) ps ->
  (0 < n)%nat -> Z.of_nat n <= 65536 ->
  (length (concat ps) + 2 * length ps < fuel)%nat ->
  exists c' w',
    WSConn_write_all
      (NewWSConn {| incoming := []; sent := []; calls := 0; isClosed := false;
                    readLimit := 0; readErr := None |})
      ps
    = Some ({| conn := Some c'; currReader := None |},
            map (fun p => (len p, None)) ps) /\
    sent c' = map (pair BinaryMessage) ps /\
    read_to_end fuel
      (NewWSConn {| incoming := sent c'; sent := []; calls := 0;
                    isClosed := false; readLimit := 0; readErr := None |}) n []
    = Some (w', concat ps, EOF).
Proof.
  intros Hps Hn Hmax Hfuel.
  destruct (WSConn_write_all_script ps
              {| incoming := []; sent := []; calls := 1; isClosed := false;
                 readLimit := MaxWebSocketMessageSize; readErr := None |}
              None Hps) as (c' & Hrun & Hsent & _).
  cbn [sent app] in Hsent.
  assert (Hlen : (length (concat (map snd (map (pair BinaryMessage) ps)))
                  + 2 * length (map (pair BinaryMessage) ps) < fuel)%nat).
  { rewrite map_map, length_map. cbn [snd]. rewrite map_id. exact Hfuel. }
  assert (Hms : Forall (fun m : Z * bytes => len m.2 <= MaxWebSocketMessageSize)
                  (map (pair BinaryMessage) ps)).
  { apply Forall_map. exact Hps. }
  destruct (read_to_end_script n fuel Hn Hmax
              {| incoming := map (pair BinaryMessage) ps; sent := [];
                 calls := 1; isClosed := false;
                 readLimit := MaxWebSocketMessageSize; readErr := None |}
              None (map (pair BinaryMessage) ps) [] [])
    as [w' Hread];
    [split; reflexivity|cbn [incoming]; rewrite app_nil_r; reflexivity
    |exact Hms|exact I|exact Hlen|].
  exists c', w'. split; [exact Hrun|]. split; [exact Hsent|].
  rewrite Hsent. cbn [pending app end_error] in Hread.
  rewrite binary_payloads_all in Hread. exact Hread.
Qed.

Lemma WSConn_stream_roundtrip_witness :
  exists c' w',
    WSConn_write_all
      (NewWSConn {| incoming := []; sent := []; calls := 0; isClosed := false;
                    readLimit := 0; readErr := None |})
      [bs "hel"; bs "lo"]
    = Some ({| conn := Some c'; currReader := None |}, [(3, None); (2, None)]) /\
    sent c' = [(BinaryMessage, bs "hel"); (BinaryMessage, bs "lo")] /\
    read_to_end 10
      (NewWSConn {| incoming := sent c'; sent := []; calls := 0;
                    isClosed := false; readLimit := 0; readErr := None |}) 4 []
    = Some (w', bs "hello", EOF).
Proof.
  apply (WSConn_stream_roundtrip [bs "hel"; bs "lo"] 4 10).
  - repeat constructor; vm_compute; discriminate.
  - lia.
  - lia.
  - vm_compute. lia.
Defined.

Import utf8 json preface io.

(** ** The stream preface: missing fields, one line, the UDP preface *)

(** Decoding what [Marshal] wrote: the member of a key of ASCII
    characters is the value stored under it, coerced to valid UTF-8,
    and there is none when the map has none. *)
Lemma Unmarshal_Marshal_key (g : gmap bytes bytes) (key : bytes) :
  Forall (fun c => Z_of_byte c < 0x80) key ->
  exists J body g',
    Marshal (Some g) = Ok J /\ J = "{"%char :: body ++ ["}"%char] /\
    no_nl J = true /\
    Unmarshal J = Ok (Some g') /\ g' !! key = coerce <$> g !! key.
Proof.
  intros Hkey. destruct (Unmarshal_Marshal g) as [HM HU].
  set (sv := merge_sort key_le (map_to_list g)) in *.
  exists (bs "{" ++ members sv ++ bs "}"), (members sv), (foldl store ∅ sv).
  split; [exact HM|]. split; [reflexivity|]. split.
  { rewrite !no_nl_app, members_no_nl. reflexivity. }
  split; [exact HU|].
  assert (Hperm : sv ≡ₚ map_to_list g) by apply merge_sort_Permutation.
  assert (Hinj : forall kv, kv ∈ sv -> coerce kv.1 = key -> kv.1 = key).
  { intros kv _ Hc. apply coerce_ascii_inv; assumption. }
  destruct (g !! key) as [v|] eqn:Hg; cbn [fmap option_fmap option_map].
  - replace key with (coerce key) at 1
      by (apply coerce_ascii; assumption).
    apply foldl_store_lookup.
    + rewrite Hperm. apply NoDup_fst_map_to_list.
    + rewrite Hperm. apply elem_of_map_to_list. assumption.
    + intros kv Hkv Hc. apply Hinj; [exact Hkv|].
      rewrite Hc. apply coerce_ascii. assumption.
  - rewrite foldl_store_other; [apply lookup_empty|].
    intros [k v] Hkv Hc. cbn [fst] in Hc.
    assert (k = key) by (apply (Hinj (k, v)); assumption). subst k.
    rewrite Hperm in Hkv. apply elem_of_map_to_list in Hkv. congruence.
Qed.

Lemma ascii_dst : Forall (fun c => Z_of_byte c < 0x80) (bs "dst").
Proof. repeat constructor. Qed.

(** What [readStreamDestination] returns on the preface of a map. *)
Lemma readStreamDestination_encodePreface (g : gmap bytes bytes)
    (rest : bytes) :
  exists P,
    encodePreface (Some g) = Ok P /\
    bufio.cut nl P = Some (P, []) /\
    readStreamDestination (bufio.NewReader (P ++ rest))
    = Some ({| bufio.data := rest; bufio.err := EOF |},
            Ok (default [] (coerce <$> g !! bs "dst"))).
Proof.
  destruct (Unmarshal_Marshal_key g (bs "dst") ascii_dst)
    as (J & body & g' & HM & HJ & Hnl & HU & Hdst).
  exists (J ++ [nl]). split; [apply encodePreface_Marshal; exact HM|].
  split; [apply (cut_no_nl J [] Hnl)|].
  unfold readStreamDestination, bufio.NewReader. cbn [bufio.data].
  subst J.
  pose proof (readStreamDestination_loop_object body [] rest EOF Hnl
                (List.Forall_nil _) eq_refl) as Hloop.
  cbn zeta in Hloop. cbn [app] in Hloop.
  rewrite <- app_assoc. cbn [app].
  rewrite (Hloop _ []); [|constructor|cbn [length]; lia].
  rewrite HU. do 3 f_equal. exact (f_equal (default []) Hdst).
Qed.

(** X21.  A preface without destination is no error: for a map that
    has no key "dst", and for the [nil] map, [readStreamDestination]
    returns the empty string and leaves the bytes after the preface in
    the reader. *)
Theorem readStreamDestination_missing_dst (g : gmap bytes bytes)
    (rest : bytes) :
  g !! bs "dst" = None ->
  (exists P,
     encodePreface (Some g) = Ok P /\
     readStreamDestination (bufio.NewReader (P ++ rest))
     = Some ({| bufio.data := rest; bufio.err := EOF |}, Ok [])) /\
  (exists P,
     encodePreface None = Ok P /\
     readStreamDestination (bufio.NewReader (P ++ rest))
     = Some ({| bufio.data := rest; bufio.err := EOF |}, Ok [])).
Proof.
  intros Hg. split.
  - destruct (readStreamDestination_encodePreface g rest) as (P & HP & _ & Hr).
    exists P. split; [exact HP|]. rewrite Hr, Hg. reflexivity.
  - exists (bs "null" ++ [nl]). split; [reflexivity|].
    unfold readStreamDestination, bufio.NewReader. cbn [bufio.data].
    rewrite <- app_assoc.
    rewrite (readStreamDestination_loop_first_line (bs "null") rest EOF
               eq_refl ltac:(vm_compute; discriminate) _ []);
      [reflexivity|constructor|cbn [length]; lia].
Qed.

Lemma readStreamDestination_missing_dst_witness :
  (exists P,
     encodePreface (Some {[ bs "proto" := bs "tcp" ]}) = Ok P /\
     readStreamDestination (bufio.NewReader (P ++ bs "payload"))
     = Some ({| bufio.data := bs "payload"; bufio.err := EOF |}, Ok [])) /\
  (exists P,
     encodePreface None = Ok P /\
     readStreamDestination (bufio.NewReader (P ++ bs "payload"))
     = Some ({| bufio.data := bs "payload"; bufio.err := EOF |}, Ok [])).
Proof.
  apply (readStreamDestination_missing_dst {[ bs "proto" := bs "tcp" ]}
           (bs "payload")).
  vm_compute. reflexivity.
Defined.

(** X22.  [encodePreface] never fails, and what it returns is one
    line: its only newline byte is its last byte, whatever bytes the
    keys and the values hold. *)
Theorem encodePreface_one_line (fields : gomap) :
  exists J,
    encodePreface fields = Ok (J ++ [nl]) /\ no_nl J = true /\
    bufio.cut nl (J ++ [nl]) = Some (J ++ [nl], []).
Proof.
  destruct fields as [g|].
  - destruct (Unmarshal_Marshal g) as [HM _].
    eexists. split; [apply encodePreface_Marshal; exact HM|].
    assert (Hnl : no_nl (bs "{" ++ members (merge_sort key_le (map_to_list g))
                         ++ bs "}") = true).
    { rewrite !no_nl_app, members_no_nl. reflexivity. }
    split; [exact Hnl|]. apply (cut_no_nl _ [] Hnl).
  - exists (bs "null"). split; [reflexivity|]. split; reflexivity.
Qed.

(** X9.  [sendUDPPreface] on a stream that takes its bytes writes one
    line from which [readStreamDestination] returns [dst] (each byte
    that is not part of valid UTF-8 replaced by U+FFFD; [dst] itself
    when it is valid UTF-8), leaving what follows the preface in the
    reader; on a stream whose write fails it returns that error
    wrapped as "write preface: ...". *)
Theorem sendUDPPreface_decoded (dst tunnelID rest : bytes) :
  (exists P,
     sendUDPPreface (mock_of []) dst tunnelID = (mock_of_written P, None) /\
     readStreamDestination (bufio.NewReader (P ++ rest))
     = Some ({| bufio.data := rest; bufio.err := EOF |}, Ok (coerce dst))) /\
  (ValidString dst = true -> coerce dst = dst) /\
  (forall (m : mockReadWriteCloser) (e : error),
     writeErr m = Some e ->
     sendUDPPreface m dst tunnelID
     = (m, Some (wrapError (bs "write preface: ") e))).
Proof.
  set (g := ({[ bs "dst" := dst; bs "proto" := bs "udp";
                bs "tunnel_id" := tunnelID ]} : gmap bytes bytes)).
  destruct (readStreamDestination_encodePreface g rest) as (P & HP & _ & Hr).
  assert (Hg : g !! bs "dst" = Some dst) by apply lookup_insert_eq.
  split; [|split].
  - exists P. unfold sendUDPPreface. fold g. rewrite HP.
    split; [reflexivity|]. rewrite Hr, Hg. reflexivity.
  - apply ValidString_coerce.
  - intros m e Hm. unfold sendUDPPreface. fold g. rewrite HP.
    cbn [Write mock_rwc]. unfold mock_Write. rewrite Hm. reflexivity.
Qed.

Lemma TrimSpace_stop_ascii (x : bytes) (c : ascii) :
  Forall (fun b => Z_of_byte b < 0x80) x ->
  Z_of_byte c < 0x80 -> strings.asciiSpace (Z_of_byte c) = false ->
  exists y, strings.TrimSpace_stop (x ++ [c]) = (false, y ++ [c]).
Proof.
  intros Hx Hc Hns. induction Hx as [|b x Hb _ [y IH]].
  - exists []. cbn [app strings.TrimSpace_stop]. unfold RuneSelf.
    destruct (Z.leb_spec 0x80 (Z_of_byte c)); [lia|]. rewrite Hns. reflexivity.
  - cbn [app strings.TrimSpace_stop]. unfold RuneSelf.
    destruct (Z.leb_spec 0x80 (Z_of_byte b)); [lia|].
    destruct (strings.asciiSpace (Z_of_byte b)).
    + exists y. exact IH.
    + exists (b :: x). reflexivity.
Qed.

(** A line of ASCII characters that starts with one that is not white
    space is trimmed to a string that starts with it. *)
Lemma TrimSpace_head (c : ascii) (tl : bytes) :
  Forall (fun b => Z_of_byte b < 0x80) (c :: tl) ->
  strings.asciiSpace (Z_of_byte c) = false ->
  exists t, strings.TrimSpace (c :: tl) = c :: t.
Proof.
  intros Hall Hns. inversion Hall as [|? ? Hc Htl]; subst.
  unfold strings.TrimSpace. cbn [strings.TrimSpace_start]. unfold RuneSelf.
  destruct (Z.leb_spec 0x80 (Z_of_byte c)); [lia|]. rewrite Hns.
  cbn [rev].
  destruct (TrimSpace_stop_ascii (rev tl) c) as [y Hy];
    [apply Forall_rev; exact Htl|exact Hc|exact Hns|].
  rewrite Hy. exists (rev y). rewrite rev_app_distr. reflexivity.
Qed.

(** X23.  A first line that is not a JSON object is rejected: when the
    first line (of ASCII characters) starts with a character that is
    neither white space, an opening brace nor the letter n,
    [readStreamDestination] fails and returns no destination; the
    line is consumed. *)
Theorem readStreamDestination_rejects (c : ascii) (tl rest : bytes) :
  Forall (fun b => Z_of_byte b < 0x80) (c :: tl) ->
  no_nl (c :: tl) = true ->
  strings.asciiSpace (Z_of_byte c) = false ->
  Z_of_byte c <> 123 -> Z_of_byte c <> 110 ->
  exists e,
    readStreamDestination (bufio.NewReader ((c :: tl) ++ nl :: rest))
    = Some ({| bufio.data := rest; bufio.err := EOF |}, Err e).
Proof.
  intros Hall Hnl Hns Hbrace Hn.
  assert (Hall' : Forall (fun b => Z_of_byte b < 0x80) (c :: tl ++ [nl])).
  { inversion Hall; subst. constructor; [assumption|].
    apply Forall_app_2; [assumption|repeat constructor]. }
  destruct (TrimSpace_head c (tl ++ [nl]) Hall' Hns) as [t Ht].
  unfold readStreamDestination, bufio.NewReader. cbn [bufio.data].
  pose proof (readStreamDestination_loop_first_line (c :: tl) rest EOF Hnl)
    as Hloop.
  cbn [app] in Hloop. rewrite Ht in Hloop.
  specialize (Hloop ltac:(discriminate) (S (length ((c :: tl) ++ nl :: rest))) []
                    ltac:(constructor) ltac:(cbn [length]; lia)).
  cbn [app] in Hloop |- *. rewrite Hloop.
  assert (HU : Unmarshal (c :: t) = Err jsonError).
  { unfold Unmarshal.
    assert (Hsk : skipSpace (c :: t) = c :: t).
    { cbn [skipSpace]. unfold isSpace, strings.asciiSpace in *.
      destruct (Z.eqb_spec (Z_of_byte c) 32) as [E|_]; [rewrite E in Hns; discriminate|].
      destruct (Z.eqb_spec (Z_of_byte c) 9) as [E|_]; [rewrite E in Hns; discriminate|].
      destruct (Z.eqb_spec (Z_of_byte c) 13) as [E|_]; [rewrite E in Hns; discriminate|].
      destruct (Z.eqb_spec (Z_of_byte c) 10) as [E|_]; [rewrite E in Hns; discriminate|].
      reflexivity. }
    rewrite Hsk.
    destruct (Z.eqb_spec (Z_of_byte c) 123); [contradiction|].
    cbn [hasPrefix bs list_ascii_of_string].
    rewrite bool_decide_eq_false_2; [reflexivity|].
    intros <-. apply Hn. reflexivity. }
  rewrite HU. eexists. reflexivity.
Qed.

Lemma readStreamDestination_rejects_witness :
  exists e,
    readStreamDestination (bufio.NewReader (bs "invalid" ++ nl :: bs "data"))
    = Some ({| bufio.data := bs "data"; bufio.err := EOF |}, Err e).
Proof.
  apply (readStreamDestination_rejects "i"%char (bs "nvalid") (bs "data")).
  - repeat constructor.
  - reflexivity.
  - reflexivity.
  - discriminate.
  - discriminate.
Defined.

Import io security bridge.

(** ** The encryption settings of a validated configuration *)

(** X24.  A configuration that [enforceEncryptionRequirements] lets
    pass with encryption on hands [WrapClientStream] a key of 32 bytes
    or more: the stream is wrapped, under the key as configured (not
    trimmed). *)
Theorem validated_encryption_settings {S A : Type} `{Crypto A}
    (cfg : config.Config) (s : S) (tunnelID : bytes) :
  config.enforceEncryptionRequirements cfg = None ->
  config.Encrypt cfg = true ->
  32 <= len (PSK (config.EncryptionSettings cfg)) /\
  WrapClientStream s tunnelID (config.EncryptionSettings cfg)
  = Encrypted (Wrap (NewClientPSK (config.PSK cfg)) s tunnelID).
Proof.
  unfold config.enforceEncryptionRequirements. intros Hv He. rewrite He in Hv.
  cbn [negb] in Hv.
  destruct (bool_decide _); [discriminate|].
  destruct (Z.ltb_spec (len (strings.TrimSpace (config.PSK cfg))) 32) as [|Hlen];
    [discriminate|].
  split.
  - cbn [config.EncryptionSettings PSK].
    pose proof (TrimSpace_length (config.PSK cfg)). unfold len in *. lia.
  - unfold WrapClientStream. cbn [config.EncryptionSettings Enabled PSK].
    rewrite He. reflexivity.
Qed.

Lemma validated_encryption_settings_witness :
  let cfg := {| config.Encrypt := true;
                config.PSK := bs " 0123456789abcdef0123456789abcdef" |} in
  32 <= len (PSK (config.EncryptionSettings cfg)) /\
  WrapClientStream (A := bytes) (mock_of []) (bs "tunnel-123")
    (config.EncryptionSettings cfg)
  = Encrypted (Wrap (NewClientPSK (config.PSK cfg)) (mock_of [])
                 (bs "tunnel-123")).
Proof.
  intros cfg.
  apply (@validated_encryption_settings mockReadWriteCloser bytes demo_crypto
           cfg (mock_of []) (bs "tunnel-123")).
  - vm_compute. reflexivity.
  - reflexivity.
Defined.

(** ** The session manager: retries and sleeps *)

Import session.

Section manager_retry.
Variable buildWebSocketURL : bytes -> bytes -> result (bytes * bytes).

Lemma dial_loop_failures (fails : list DialResult) :
  forall m tr wsURL origin b,
    stopped m = false -> Forall is_failure fails ->
    dial_loop m fails tr wsURL origin b = None.
Proof.
  induction fails as [|a fails IH]; intros m tr wsURL origin b Hst Hf.
  - cbn [dial_loop]. rewrite Hst. reflexivity.
  - inversion Hf as [|? ? Ha Hf']; subst.
    cbn [dial_loop]. rewrite Hst.
    destruct a as [e|c [s|e]]; [|destruct Ha|].
    + apply IH; assumption.
    + cbn [initializeSession]. apply IH; assumption.
Qed.

Lemma first_success (answers : list DialResult) :
  Forall is_failure answers \/
  exists fails c s rest,
    answers = fails ++ DialConn c (Ok s) :: rest /\ Forall is_failure fails.
Proof.
  induction answers as [|a answers IH]; [left; constructor|].
  destruct a as [e|c [s|e]].
  - destruct IH as [IH|(fails & c & s & rest & -> & Hf)].
    + left. constructor; [exact I|exact IH].
    + right. exists (DialError e :: fails), c, s, rest.
      split; [reflexivity|constructor; [exact I|exact Hf]].
  - right. exists [], c, s, answers. split; [reflexivity|constructor].
  - destruct IH as [IH|(fails & c0 & s & rest & -> & Hf)].
    + left. constructor; [exact I|exact IH].
    + right. exists (DialConn c (Err e) :: fails), c0, s, rest.
      split; [reflexivity|constructor; [exact I|exact Hf]].
Qed.

(** X25.  [EnsureSession] does not give up and returns no error of a
    dial or of a handshake.  Whatever the number of attempts that fail
    first, an attempt that succeeds makes the call return its session,
    after one dial for each failed attempt and one more, with one sleep
    after each failed attempt; the call returns in no other way; as
    long as every attempt fails it has not returned. *)
Theorem EnsureSession_keeps_dialing (m : Manager) (w : World)
    (wsURL origin : bytes) :
  stopped m = false -> live_session m w = None ->
  buildWebSocketURL (serverURL m) (tunnelID m) = Ok (wsURL, origin) ->
  wsURL <> [] ->
  (forall fails c s rest,
     dials w = fails ++ DialConn c (Ok s) :: rest -> Forall is_failure fails ->
     exists w',
       EnsureSession buildWebSocketURL m w
       = Some (set_session m c s, w', Ok s) /\
       dials w' = rest /\
       dialed (trace w')
       = dialed (trace w) ++ repeat (EvDial wsURL origin) (S (length fails)) /\
       length (sleeps (trace w'))
       = (length (sleeps (trace w)) + length fails)%nat) /\
  (forall m' w' r,
     EnsureSession buildWebSocketURL m w = Some (m', w', r) ->
     exists fails c s rest,
       dials w = fails ++ DialConn c (Ok s) :: rest /\
       Forall is_failure fails /\ r = Ok s /\ m' = set_session m c s) /\
  (Forall is_failure (dials w) -> EnsureSession buildWebSocketURL m w = None).
Proof.
  intros Hst Hlive Hurl Hne.
  assert (Hrun : forall fails c s rest,
     dials w = fails ++ DialConn c (Ok s) :: rest -> Forall is_failure fails ->
     exists w',
       EnsureSession buildWebSocketURL m w
       = Some (set_session m c s, w', Ok s) /\
       dials w' = rest /\
       dialed (trace w')
       = dialed (trace w) ++ repeat (EvDial wsURL origin) (S (length fails)) /\
       length (sleeps (trace w'))
       = (length (sleeps (trace w)) + length fails)%nat).
  { intros fails c s rest Hd Hf.
    unfold EnsureSession, sessionDialParams. rewrite Hst, Hlive, Hurl.
    destruct wsURL as [|x wsURL]; [congruence|].
    rewrite Hd.
    destruct (dial_loop_sleeps fails m (trace w) (x :: wsURL) origin (boInit m)
                c s rest Hst Hf) as (tr' & Hloop & Hsl & Hdl).
    rewrite Hloop. eexists. split; [reflexivity|]. cbn [dials trace].
    split; [reflexivity|]. split; [exact Hdl|].
    rewrite Hsl, length_app. f_equal.
    clear. generalize (boInit m). induction fails as [|a fails IH]; intros b;
      [reflexivity|]. cbn [sleep_schedule length]. f_equal. apply IH. }
  assert (Hnone : Forall is_failure (dials w) ->
                  EnsureSession buildWebSocketURL m w = None).
  { intros Hf. unfold EnsureSession, sessionDialParams.
    rewrite Hst, Hlive, Hurl.
    destruct wsURL as [|x wsURL]; [congruence|].
    rewrite dial_loop_failures by assumption. reflexivity. }
  split; [exact Hrun|]. split; [|exact Hnone].
  intros m' w' r Hret.
  destruct (first_success (dials w)) as [Hf|(fails & c & s & rest & Hd & Hf)].
  - rewrite (Hnone Hf) in Hret. discriminate.
  - destruct (Hrun fails c s rest Hd Hf) as (w1 & Hrun1 & _).
    rewrite Hrun1 in Hret. injection Hret as <- _ <-.
    exists fails, c, s, rest. auto.
Qed.

Lemma nextBackoff_bounds (b0 b bmax : Z) :
  0 < b0 -> b0 <= b <= bmax -> bmax < 2 ^ 62 ->
  b0 <= nextBackoff b bmax <= bmax /\ b <= nextBackoff b bmax.
Proof.
  intros H0 Hb Hmax. rewrite nextBackoff_min by lia. lia.
Qed.

Lemma sleep_schedule_bounds (n : nat) :
  forall b0 b bmax,
    0 < b0 -> b0 <= b <= bmax -> bmax < 2 ^ 62 ->
    Forall (fun d => b0 <= d <= bmax) (sleep_schedule b bmax n) /\
    length (sleep_schedule b bmax n) = n.
Proof.
  induction n as [|n IH]; intros b0 b bmax H0 Hb Hmax.
  - split; [constructor|reflexivity].
  - cbn [sleep_schedule length].
    destruct (nextBackoff_bounds b0 b bmax H0 Hb Hmax) as [Hn _].
    destruct (IH b0 (nextBackoff b bmax) bmax H0 Hn Hmax) as [IH1 IH2].
    split; [constructor; assumption|f_equal; exact IH2].
Qed.

(** X26.  With a backoff configured as the validation demands
    ([0 < boInit <= boMax], and [boMax] below 2^62 ns), the manager
    sleeps once after each failed attempt, and every one of these
    sleeps lasts at least [boInit] and at most [boMax]. *)
Theorem EnsureSession_sleeps_bounded (m : Manager) (w : World)
    (wsURL origin : bytes) (fails rest : list DialResult)
    (c : Conn) (s : Session) :
  stopped m = false -> live_session m w = None ->
  buildWebSocketURL (serverURL m) (tunnelID m) = Ok (wsURL, origin) ->
  wsURL <> [] ->
  Forall is_failure fails ->
  dials w = fails ++ DialConn c (Ok s) :: rest ->
  0 < boInit m <= boMax m -> boMax m < 2 ^ 62 ->
  exists w' slept,
    EnsureSession buildWebSocketURL m w = Some (set_session m c s, w', Ok s) /\
    sleeps (trace w') = sleeps (trace w) ++ slept /\
    length slept = length fails /\
    Forall (fun d => boInit m <= d <= boMax m) slept.
Proof.
  intros Hst Hlive Hurl Hne Hf Hd Hb Hmax.
  unfold EnsureSession, sessionDialParams. rewrite Hst, Hlive, Hurl.
  destruct wsURL as [|x wsURL]; [congruence|].
  rewrite Hd.
  destruct (dial_loop_sleeps fails m (trace w) (x :: wsURL) origin (boInit m)
              c s rest Hst Hf) as (tr' & Hrun & Hsl & _).
  rewrite Hrun.
  destruct (sleep_schedule_bounds (length fails) (boInit m) (boInit m) (boMax m))
    as [Hall Hlen]; [lia|lia|lia|].
  eexists. exists (sleep_schedule (boInit m) (boMax m) (length fails)).
  split; [reflexivity|]. cbn [trace]. auto.
Qed.
End manager_retry.

Lemma EnsureSession_keeps_dialing_witness :
  let m := NewManager (bs "http://example.com") (bs "t") Second (5 * Second)
             {| PingInterval := 0; PingTimeout := 0;
                SmuxKeepAliveInterval := 0; SmuxKeepAliveTimeout := 0 |} in
  let w := {| dials := [DialError EOF; DialConn 1%nat (Err EOF); DialError EOF];
              closedSessions := []; trace := [] |} in
  EnsureSession demo_url m w = None.
Proof.
  intros m w.
  apply (proj2 (proj2 (EnsureSession_keeps_dialing demo_url m w
           (bs "http://example.com/ws?mode=data&tunnel_id=t")
           (bs "http://example.com") eq_refl eq_refl eq_refl
           ltac:(discriminate)))).
  repeat constructor.
Defined.

Lemma EnsureSession_sleeps_bounded_witness :
  let m := NewManager (bs "http://example.com") (bs "t") Second (5 * Second)
             {| PingInterval := 0; PingTimeout := 0;
                SmuxKeepAliveInterval := 0; SmuxKeepAliveTimeout := 0 |} in
  let w := {| dials := [DialError EOF; DialConn 1%nat (Err EOF);
                        DialError EOF; DialError EOF;
                        DialConn 2%nat (Ok 9%nat)];
              closedSessions := []; trace := [] |} in
  exists w' slept,
    EnsureSession demo_url m w = Some (set_session m 2%nat 9%nat, w', Ok 9%nat) /\
    sleeps (trace w') = sleeps (trace w) ++ slept /\
    length slept = 4%nat /\
    Forall (fun d => Second <= d <= 5 * Second) slept.
Proof.
  intros m w.
  apply (EnsureSession_sleeps_bounded demo_url m w
           (bs "http://example.com/ws?mode=data&tunnel_id=t")
           (bs "http://example.com")
           [DialError EOF; DialConn 1%nat (Err EOF); DialError EOF; DialError EOF]
           [] 2%nat 9%nat).
  - reflexivity.
  - reflexivity.
  - reflexivity.
  - discriminate.
  - repeat constructor.
  - reflexivity.
  - vm_compute. split; [reflexivity|discriminate].
  - vm_compute. reflexivity.
Defined.
